(** * TGSRTC bus maps: route consolidation and journey planner

    A shallow embedding of the route consolidation code
    ([src/data/gtfs_loader.py], [src/utils/geo.py],
    [src/generators/interactive_map.py], [src/generators/network_map.py])
    and of the trip planner ([old_scripts/gtfs_trip_planner.py], its
    Python index construction and the [findRoutesRaptor] function of the
    page it generates).

    Conventions of the embedding:
    - a pandas table is the list of its rows, in row order; a missing
      cell (NaN) is [None];
    - a Python [dict] is an association list in insertion order with
      unique keys ([dict_get], [dict_set]); a Python or JavaScript set of
      identifiers is a [gset string];
    - a Python [float] obtained by dividing two small integers is the
      exact rational; a coordinate is a rational that is only carried;
    - every stable sort ([list.sort], [Array.prototype.sort]) is the one
      stable insertion sort [stable_sort]: a stable sort by a total
      preorder has one possible result. pandas does not fix the order in
      which [sort_values] leaves rows of equal key; the embedding takes
      the stable order for it, and the general statements proved of it
      are written so that they hold for every order of the rows of equal
      key: they use only that the result is a sorted permutation. *)

From Stdlib Require Import ZArith QArith Lia Ascii OrderedTypeEx.
From stdpp Require Import base list strings gmap sorting.

#[local] Open Scope string_scope.
#[local] Open Scope list_scope.

(** ** Python and JavaScript primitives *)

Module Prim.

Section StableSort.
Context {A : Type} (le : A -> A -> bool).

(** [insert_sorted x l] puts [x] before the first element that is not
    strictly smaller: [x] comes from the left of everything in [l]. *)
Fixpoint insert_sorted (x : A) (l : list A) : list A :=
  match l with
  | [] => [x]
  | y :: l' => if le x y then x :: l else y :: insert_sorted x l'
  end.

Fixpoint stable_sort (l : list A) : list A :=
  match l with
  | [] => []
  | x :: l' => insert_sorted x (stable_sort l')
  end.
End StableSort.

Section Dict.
Context {K V : Type} `{EqDecision K}.

(** [d.get(k)] *)
Fixpoint dict_get (k : K) (d : list (K * V)) : option V :=
  match d with
  | [] => None
  | (k', v) :: d' => if decide (k = k') then Some v else dict_get k d'
  end.

(** [d[k] = v]: the position of an existing key is kept, a new key
    goes last. *)
Fixpoint dict_set (k : K) (v : V) (d : list (K * V)) : list (K * V) :=
  match d with
  | [] => [(k, v)]
  | (k', v') :: d' =>
      if decide (k = k') then (k, v) :: d' else (k', v') :: dict_set k v d'
  end.
End Dict.

End Prim.

(** ** [src/utils/geo.py] *)

Module Geo.

(** [calculate_route_overlap(stops1, stops2)]: [not s] on a set is
    emptiness; [len(a) / len(b)] is the exact quotient. *)
Definition calculate_route_overlap (stops1 stops2 : gset string) : Q :=
  if bool_decide (stops1 = ∅) || bool_decide (stops2 = ∅) then 0%Q
  else
    let intersection := size (stops1 ∩ stops2) in
    let union := size (stops1 ∪ stops2) in
    if bool_decide (0 < union)%nat
    then (inject_Z (Z.of_nat intersection) / inject_Z (Z.of_nat union))%Q
    else 0%Q.

End Geo.

(** ** The feed tables *)

Module Feed.

(** A row of [trips.txt]; [direction_id] is [None] when the cell (or the
    whole column) is missing. *)
Record trip_row := {
  trip_id : string;
  route_id : string;
  direction_id : option string
}.

(** A row of [stop_times.txt]. [stop_sequence] is the cell after
    [pd.to_numeric(..., errors='coerce')]: [None] is NaN. The clock times
    are the raw cells. *)
Record stop_time_row := {
  st_trip_id : string;
  st_stop_id : option string;
  stop_sequence : option Z;
  arrival_time : option string;
  departure_time : option string
}.

(** A row of [stops.txt] after the two [pd.to_numeric(..., errors='coerce')]
    of the generators: an unparseable coordinate is [None]. *)
Record stop_row := {
  stop_id : string;
  stop_name : option string;
  stop_lat : option Q;
  stop_lon : option Q
}.

(** What [row.get(column)] returns on a row of [routes.txt]. The name
    columns are read without a [dtype]: a column of numerals is a numeric
    column. A number is kept by what the code reads of it, whether it is
    zero, which is false in a condition, and the text that [str] gives
    it. *)
Inductive cell :=
  | Absent                               (* no such column: [None] *)
  | NaN                                  (* empty cell *)
  | Str (s : string)
  | Num (zero : bool) (text : string).   (* a cell of a numeric column *)

Record route_row := {
  r_route_id : string;
  route_short_name : cell;
  route_long_name : cell
}.

End Feed.

(** ** [src/data/gtfs_loader.py] *)

Module Loader.
Import Prim Feed.

(** [stop_times.groupby('trip_id').size()]: the trip ids of the table in
    ascending order, each with its number of rows. *)
Definition visit_count (stop_times : list stop_time_row) (tid : string) : nat :=
  length (filter (fun st => st_trip_id st = tid) stop_times).

Definition trip_counts (stop_times : list stop_time_row) : list (string * nat) :=
  (fun tid => (tid, visit_count stop_times tid))
    <$> stable_sort String.leb (remove_dups (st_trip_id <$> stop_times)).

(** A row of [trips_enriched] and of [rep_trips]. *)
Record rep_trip_row := {
  rt_trip_id : string;
  rt_route_id : string;
  rt_direction_id : string;
  stop_count : nat
}.

(** [trips.merge(trip_counts, on='trip_id')] (an inner join, in the order
    of [trips]) followed by [fillna('0')] on [direction_id]. *)
Definition trips_enriched (trips : list trip_row)
    (stop_times : list stop_time_row) : list rep_trip_row :=
  omap (fun t =>
          (fun c => {| rt_trip_id := trip_id t;
                       rt_route_id := route_id t;
                       rt_direction_id := default "0" (direction_id t);
                       stop_count := c |})
            <$> dict_get (trip_id t) (trip_counts stop_times))
       trips.

Section DropDuplicates.
Context {A K : Type} `{EqDecision K} (key : A -> K).

(** [df.drop_duplicates(subset)]: the first row of every key is kept. *)
Fixpoint drop_duplicates_from (seen : list K) (l : list A) : list A :=
  match l with
  | [] => []
  | x :: l' =>
      if bool_decide (key x ∈ seen) then drop_duplicates_from seen l'
      else x :: drop_duplicates_from (key x :: seen) l'
  end.

Definition drop_duplicates : list A -> list A := drop_duplicates_from [].
End DropDuplicates.

(** [sort_values('stop_count', ascending=False)]: descending counts.
    pandas leaves the order of the rows of one count open; they stay in
    table order here. *)
Definition by_stop_count_desc (a b : rep_trip_row) : bool :=
  (stop_count b <=? stop_count a)%nat.

Definition route_direction (r : rep_trip_row) : string * string :=
  (rt_route_id r, rt_direction_id r).

Definition get_representative_trips (trips : list trip_row)
    (stop_times : list stop_time_row) : list rep_trip_row :=
  drop_duplicates route_direction
    (stable_sort by_stop_count_desc (trips_enriched trips stop_times)).

End Loader.

(** ** [src/config.py] *)

Module Config.

(** [MERGE_THRESHOLD = 0.3]. The quotient of two set sizes exceeds the
    float [0.3] exactly when the exact quotient exceeds [3/10], for every
    set size a feed can reach. *)
Definition MERGE_THRESHOLD : Q := 3 # 10.

End Config.

(** ** The stop visits joined with the stops *)

Module StopJoin.
Import Prim Feed Loader.

(** A row of [st_geo]. *)
Record geo_row := {
  g_trip_id : string;
  g_stop_id : option string;
  g_stop_sequence : Z;
  g_stop_name : option string;
  g_stop_lat : option Q;
  g_stop_lon : option Q
}.

(** [st_filtered.merge(stops[[...]], on='stop_id', how='left')] on one
    row of the left table: one row per stop with that id, and one row
    with three missing cells when there is none. *)
Definition merge_stops (stops : list stop_row) (tid : string)
    (sid : option string) (seq : Z) : list geo_row :=
  let unmatched :=
    {| g_trip_id := tid; g_stop_id := sid; g_stop_sequence := seq;
       g_stop_name := None; g_stop_lat := None; g_stop_lon := None |} in
  match sid with
  | None => [unmatched]
  | Some s =>
      match filter (fun sr => stop_id sr = s) stops with
      | [] => [unmatched]
      | matches =>
          (fun sr => {| g_trip_id := tid; g_stop_id := sid;
                        g_stop_sequence := seq;
                        g_stop_name := stop_name sr;
                        g_stop_lat := stop_lat sr;
                        g_stop_lon := stop_lon sr |}) <$> matches
      end
  end.

(** [.astype(int)] on an integer: its value in 64-bit two's complement,
    to which a greater unsigned number wraps around. *)
Definition astype_int (z : Z) : Z := ((z + 2 ^ 63) mod 2 ^ 64 - 2 ^ 63)%Z.

(** [st_geo[st_geo['trip_id'] == trip_id].sort_values('stop_sequence')];
    the rows of one sequence number, whose order pandas leaves open, stay
    in table order. *)
Definition by_stop_sequence (a b : geo_row) : bool :=
  (g_stop_sequence a <=? g_stop_sequence b)%Z.

Definition trip_stops_of (st_geo : list geo_row) (tid : string) : list geo_row :=
  stable_sort by_stop_sequence (filter (fun g => g_trip_id g = tid) st_geo).

(** [trip_stops[['stop_lon', 'stop_lat']].dropna().values.tolist()] *)
Definition coords_of (trip_stops : list geo_row) : list (Q * Q) :=
  omap (fun g => match g_stop_lon g, g_stop_lat g with
                 | Some lon, Some lat => Some (lon, lat)
                 | _, _ => None
                 end) trip_stops.

(** [set(trip_stops['stop_id'].dropna().values)] *)
Definition stop_ids_of (trip_stops : list geo_row) : gset string :=
  list_to_set (omap g_stop_id trip_stops).

(** [trip_stops.iloc[0]['stop_name'] if len(trip_stops) > 0 else 'Unknown']
    and the same with [iloc[-1]]. *)
Definition start_of (trip_stops : list geo_row) : option string :=
  match head trip_stops with
  | Some g => g_stop_name g
  | None => Some "Unknown"
  end.

Definition end_of (trip_stops : list geo_row) : option string :=
  match last trip_stops with
  | Some g => g_stop_name g
  | None => Some "Unknown"
  end.

(** How an f-string prints a name cell: a missing name prints as [nan]. *)
Definition fmt (name : option string) : string := default "nan" name.

(** [row.get('route_short_name') or row.get('route_long_name') or rid],
    then [str(name)]: [None], the empty string and the number 0 are
    false, NaN is true. *)
Definition truthy (c : cell) : bool :=
  match c with
  | Absent => false
  | NaN => true
  | Str s => negb (String.eqb s "")
  | Num zero _ => negb zero
  end.

Definition str (c : cell) : string :=
  match c with
  | Absent => "None"
  | NaN => "nan"
  | Str s => s
  | Num _ text => text
  end.

Definition route_names_of (routes : list route_row) : list (string * string) :=
  foldl (fun route_names row =>
           let rid := r_route_id row in
           let name :=
             if truthy (route_short_name row) then str (route_short_name row)
             else if truthy (route_long_name row) then str (route_long_name row)
             else rid in
           dict_set rid name route_names)
        [] routes.

End StopJoin.

(** ** [src/generators/interactive_map.py] *)

Module InteractiveMap.
Import Prim Feed Loader Geo Config StopJoin.

Record stop_detail := {
  sd_name : option string;
  sd_lat : Q;
  sd_lon : Q
}.

Record geometry := {
  coords : list (Q * Q);
  stop_ids : gset string;
  stop_list : list stop_detail;
  start : option string;
  end_ : option string;
  count : nat
}.

Definition stop_list_of (trip_stops : list geo_row) : list stop_detail :=
  omap (fun r => match g_stop_lat r, g_stop_lon r with
                 | Some lat, Some lon =>
                     Some {| sd_name := g_stop_name r; sd_lat := lat; sd_lon := lon |}
                 | _, _ => None
                 end) trip_stops.

Definition geometry_of (trip_stops : list geo_row) : geometry :=
  let coords := coords_of trip_stops in
  {| coords := coords;
     stop_ids := stop_ids_of trip_stops;
     stop_list := stop_list_of trip_stops;
     start := start_of trip_stops;
     end_ := end_of trip_stops;
     count := length coords |}.

(** [st_geo]: the visits of the representative trips, their sequence
    number after [.fillna(0).astype(int)], joined with the stops. *)
Definition st_geo_of (stops : list stop_row) (stop_times : list stop_time_row)
    (rep_trips : list rep_trip_row) : list geo_row :=
  let trip_ids := rt_trip_id <$> rep_trips in
  let st_filtered := filter (fun st => st_trip_id st ∈ trip_ids) stop_times in
  st_filtered ≫= (fun st => merge_stops stops (st_trip_id st) (st_stop_id st)
                              (astype_int (default 0%Z (stop_sequence st)))).

(** The body of the loop over [rep_trips.iterrows()]. *)
Definition add_geometry (st_geo : list geo_row)
    (geometries : list (string * string * geometry)) (row : rep_trip_row)
    : list (string * string * geometry) :=
  match trip_stops_of st_geo (rt_trip_id row) with
  | [] => geometries                                   (* [continue] *)
  | trip_stops =>
      dict_set (rt_route_id row, rt_direction_id row) (geometry_of trip_stops)
               geometries
  end.

Definition _build_route_geometries (stops : list stop_row)
    (stop_times : list stop_time_row) (rep_trips : list rep_trip_row)
    : list (string * string * geometry) :=
  foldl (add_geometry (st_geo_of stops stop_times rep_trips)) [] rep_trips.

Inductive feature_type := bidirectional | one_way.

Record feature := {
  id : string;
  route_name : string;
  search_text : string;
  desc : string;
  stops_count : nat;
  f_stop_list : list stop_detail;
  type : feature_type;
  coordinates : list (Q * Q)
}.

(** [route_directions]: route id, then direction id, to geometry. *)
Definition route_directions_of (geometries : list (string * string * geometry))
    : list (string * list (string * geometry)) :=
  foldl (fun route_directions '((route_id, dir_id), data) =>
           let directions := default [] (dict_get route_id route_directions) in
           dict_set route_id (dict_set dir_id data directions) route_directions)
        [] geometries.

(** The block under [if '0' in directions and '1' in directions]: the
    feature appended when [merged] becomes [True]. *)
Definition merged_feature (route_id route_name : string)
    (directions : list (string * geometry)) : option feature :=
  match dict_get "0" directions, dict_get "1" directions with
  | Some d0, Some d1 =>
      let jaccard := calculate_route_overlap (stop_ids d0) (stop_ids d1) in
      if Qlt_le_dec MERGE_THRESHOLD jaccard then
        let d := if (count d1 <=? count d0)%nat then d0 else d1 in
        Some {| id := route_id ++ "_bidir";
                route_name := route_name;
                search_text := route_name ++ " (Bidirectional)";
                desc := fmt (start d) ++ " ↔ " ++ fmt (end_ d);
                stops_count := count d;
                f_stop_list := stop_list d;
                type := bidirectional;
                coordinates := coords d |}
      else None
  | _, _ => None
  end.

Definition one_way_feature (route_id route_name : string)
    (entry : string * geometry) : feature :=
  let '(dir_id, d) := entry in
  let suffix := if String.eqb dir_id "0" then "Outbound" else "Inbound" in
  {| id := route_id ++ "_" ++ dir_id;
     route_name := route_name;
     search_text := route_name ++ " (" ++ suffix ++ ")";
     desc := fmt (start d) ++ " → " ++ fmt (end_ d);
     stops_count := count d;
     f_stop_list := stop_list d;
     type := one_way;
     coordinates := coords d |}.

(** One turn of the loop over [route_directions.items()]. *)
Definition route_features (route_names : list (string * string))
    (entry : string * list (string * geometry)) : list feature :=
  let '(route_id, directions) := entry in
  let route_name := default route_id (dict_get route_id route_names) in
  match merged_feature route_id route_name directions with
  | Some f => [f]
  | None => one_way_feature route_id route_name <$> directions
  end.

(** [features.sort(key=lambda x: x['properties']['search_text'])] *)
Definition by_search_text (a b : feature) : bool :=
  String.leb (search_text a) (search_text b).

Definition _create_geojson_features
    (geometries : list (string * string * geometry)) (routes : list route_row)
    : list feature :=
  stable_sort by_search_text
    (route_directions_of geometries ≫= route_features (route_names_of routes)).

(** The features that [generate] hands to [_generate_html]. *)
Definition generate_features (stops : list stop_row)
    (stop_times : list stop_time_row) (trips : list trip_row)
    (routes : list route_row) : list feature :=
  let rep_trips := get_representative_trips trips stop_times in
  _create_geojson_features (_build_route_geometries stops stop_times rep_trips) routes.

End InteractiveMap.

(** ** [src/generators/network_map.py] *)

Module NetworkMap.
Import Prim Feed Loader Geo Config StopJoin.

Record geometry := {
  coords : list (Q * Q);
  stop_ids : gset string;
  start : option string;
  end_ : option string;
  count : nat
}.

Definition geometry_of (trip_stops : list geo_row) : geometry :=
  let coords := coords_of trip_stops in
  {| coords := coords;
     stop_ids := stop_ids_of trip_stops;
     start := start_of trip_stops;
     end_ := end_of trip_stops;
     count := length coords |}.

(** [st_geo]: here the sequence numbers go through [.astype(int)] without
    a [fillna], which raises on a NaN: [None]. *)
Definition st_geo_of (stops : list stop_row) (stop_times : list stop_time_row)
    (rep_trips : list rep_trip_row) : option (list geo_row) :=
  let trip_ids := rt_trip_id <$> rep_trips in
  let st_filtered := filter (fun st => st_trip_id st ∈ trip_ids) stop_times in
  mjoin <$>
    mapM (fun st => (fun q => merge_stops stops (st_trip_id st) (st_stop_id st)
                                (astype_int q))
                      <$> stop_sequence st)
         st_filtered.

(** The body of the loop over [rep_trips.iterrows()]. *)
Definition add_direction (st_geo : list geo_row)
    (route_directions : list (string * list (string * geometry)))
    (row : rep_trip_row) : list (string * list (string * geometry)) :=
  match trip_stops_of st_geo (rt_trip_id row) with
  | [] => route_directions                             (* [continue] *)
  | trip_stops =>
      let directions := default [] (dict_get (rt_route_id row) route_directions) in
      dict_set (rt_route_id row)
               (dict_set (rt_direction_id row) (geometry_of trip_stops) directions)
               route_directions
  end.

Record feature := {
  route_name : string;
  search_key : string;
  details : string;
  stops : nat;
  color : string;
  coordinates : list (Q * Q)
}.

Definition merged_feature (route_name : string)
    (directions : list (string * geometry)) : option feature :=
  match dict_get "0" directions, dict_get "1" directions with
  | Some d0, Some d1 =>
      let jaccard := calculate_route_overlap (stop_ids d0) (stop_ids d1) in
      if Qlt_le_dec MERGE_THRESHOLD jaccard then
        let d := if (count d1 <=? count d0)%nat then d0 else d1 in
        Some {| route_name := route_name;
                search_key := route_name ++ " (Bidirectional)";
                details := fmt (start d) ++ " ‚Üî " ++ fmt (end_ d);
                stops := count d;
                color := "#3388ff";
                coordinates := coords d |}
      else None
  | _, _ => None
  end.

Definition one_way_feature (route_name : string)
    (entry : string * geometry) : feature :=
  let '(dir_id, d) := entry in
  let suffix := if String.eqb dir_id "0" then "(Outbound)" else "(Inbound)" in
  let color := if String.eqb dir_id "0" then "#ff3333" else "#33aa33" in
  {| route_name := route_name;
     search_key := route_name ++ " " ++ suffix;
     details := fmt (start d) ++ " ‚Üí " ++ fmt (end_ d);
     stops := count d;
     color := color;
     coordinates := coords d |}.

(** One turn of the loop over [route_directions.items()]. *)
Definition route_features (route_names : list (string * string))
    (entry : string * list (string * geometry)) : list feature :=
  let '(route_id, directions) := entry in
  let route_name := default route_id (dict_get route_id route_names) in
  match merged_feature route_name directions with
  | Some f => [f]
  | None => one_way_feature route_name <$> directions
  end.

(** [_build_features]: the representative trips are selected by the same
    statements as in [GTFSLoader.get_representative_trips]; the features
    are returned in the order of the loop. *)
Definition _build_features (stops : list stop_row)
    (stop_times : list stop_time_row) (trips : list trip_row)
    (routes : list route_row) : option (list feature) :=
  let rep_trips := get_representative_trips trips stop_times in
  st_geo ← st_geo_of stops stop_times rep_trips;
  let route_directions := foldl (add_direction st_geo) [] rep_trips in
  Some (route_directions ≫= route_features (route_names_of routes)).

End NetworkMap.

(** ** [old_scripts/gtfs_trip_planner.py]: the indices *)

Module TripPlanner.
Import Prim Feed Loader.

(** [trip_to_route]: the last row of a trip id wins. *)
Definition trip_to_route_of (trips : list trip_row) : list (string * string) :=
  foldl (fun trip_to_route row => dict_set (trip_id row) (route_id row) trip_to_route)
        [] trips.

(** One turn of the loop over [trip_stop_counts.items()]; [if rid:] is
    false on the empty string. *)
Definition keep_longer (trip_to_route : list (string * string))
    (route_rep_trips : list (string * (string * nat))) (item : string * nat)
    : list (string * (string * nat)) :=
  let '(tid, cnt) := item in
  match dict_get tid trip_to_route with
  | Some rid =>
      if negb (String.eqb rid "") then
        match dict_get rid route_rep_trips with
        | Some (_, best) =>
            if (best <? cnt)%nat then dict_set rid (tid, cnt) route_rep_trips
            else route_rep_trips
        | None => dict_set rid (tid, cnt) route_rep_trips
        end
      else route_rep_trips
  | None => route_rep_trips
  end.

(** [route_rep_trips]: the items of [groupby('trip_id').size()] come in
    ascending order of the trip id. *)
Definition route_rep_trips_of (trips : list trip_row)
    (stop_times : list stop_time_row) : list (string * (string * nat)) :=
  foldl (keep_longer (trip_to_route_of trips)) [] (trip_counts stop_times).

(** An entry of [route_stop_times]. *)
Record stop_time_entry := {
  stop : option string;
  arr : option string;
  dep : option string;
  seq : Z
}.

(** The rows of a trip in ascending [stop_sequence]; the rows of one
    sequence number, whose order [sort_values] leaves open, stay in table
    order. A NaN sequence number makes [int(row['stop_sequence'])] raise:
    [None]. *)
Definition trip_st_of (stop_times : list stop_time_row) (tid : string)
    : option (list (Z * stop_time_row)) :=
  stable_sort (fun a b => (a.1 <=? b.1)%Z)
    <$> mapM (fun st => (fun q => (q, st)) <$> stop_sequence st)
             (filter (fun st => st_trip_id st = tid) stop_times).

Definition entry_of (row : Z * stop_time_row) : stop_time_entry :=
  {| stop := st_stop_id row.2; arr := arrival_time row.2;
     dep := departure_time row.2; seq := row.1 |}.

(** [route_stops] and [route_stop_times], filled by one loop over the
    items of [route_rep_trips], whose keys are distinct. *)
Definition route_sequences_of (trips : list trip_row)
    (stop_times : list stop_time_row)
    : option (list (string * list (Z * stop_time_row))) :=
  mapM (fun '(rid, (tid, _)) => (fun trip_st => (rid, trip_st)) <$> trip_st_of stop_times tid)
       (route_rep_trips_of trips stop_times).

(** [trip_st['stop_id'].tolist()] *)
Definition stop_id_list (trip_st : list (Z * stop_time_row)) : list (option string) :=
  (fun row : Z * stop_time_row => st_stop_id row.2) <$> trip_st.

Definition stops_item (item : string * list (Z * stop_time_row))
    : string * list (option string) :=
  (item.1, stop_id_list item.2).

Definition times_item (item : string * list (Z * stop_time_row))
    : string * list stop_time_entry :=
  (item.1, entry_of <$> item.2).

Definition route_stops_of (trips : list trip_row) (stop_times : list stop_time_row)
    : option (list (string * list (option string))) :=
  match route_sequences_of trips stop_times with
  | Some sequences => Some (stops_item <$> sequences)
  | None => None
  end.

Definition route_stop_times_of (trips : list trip_row)
    (stop_times : list stop_time_row)
    : option (list (string * list stop_time_entry)) :=
  match route_sequences_of trips stop_times with
  | Some sequences => Some (times_item <$> sequences)
  | None => None
  end.

(** *** [int(s)] on a string, for ASCII text *)

(** The white space that [int] skips around an ASCII numeral: tab to
    carriage return, and the space. *)
Definition is_space (c : ascii) : bool :=
  let n := nat_of_ascii c in
  ((9 <=? n) && (n <=? 13) || (n =? 32))%nat.

Definition digit_value (c : ascii) : option Z :=
  let n := nat_of_ascii c in
  if ((48 <=? n) && (n <=? 57))%nat then Some (Z.of_nat n - 48)%Z else None.

Fixpoint lstrip (s : list ascii) : list ascii :=
  match s with
  | c :: s' => if is_space c then lstrip s' else s
  | [] => []
  end.

Definition strip (s : list ascii) : list ascii :=
  reverse (lstrip (reverse (lstrip s))).

(** Digits, with single underscores between two digits. *)
Fixpoint digits (acc : Z) (after_digit : bool) (s : list ascii) : option Z :=
  match s with
  | [] => if after_digit then Some acc else None
  | c :: s' =>
      match digit_value c with
      | Some d => digits (10 * acc + d)%Z true s'
      | None =>
          if Ascii.eqb c "_" && after_digit then digits acc false s' else None
      end
  end.

(** A numeral of more than 4300 digits is refused
    ([sys.int_info.default_max_str_digits]). *)
Definition numeral (s : list ascii) : option Z :=
  if (4300 <? length (filter (fun c => is_Some (digit_value c)) s))%nat then None
  else digits 0 false s.

(** [int(s)]: [None] stands for [ValueError]. *)
Definition int (s : string) : option Z :=
  match strip (String.list_ascii_of_string s) with
  | c :: s' =>
      if Ascii.eqb c "+" then numeral s'
      else if Ascii.eqb c "-" then Z.opp <$> numeral s'
      else numeral (c :: s')
  | [] => None
  end.

(** [t.split(':')] *)
Fixpoint split (t : string) : list string :=
  match t with
  | EmptyString => [EmptyString]
  | String c t' =>
      if Ascii.eqb c ":" then EmptyString :: split t'
      else match split t' with
           | part :: parts => String c part :: parts
           | [] => [String c EmptyString]
           end
  end.

(** [time_to_minutes(t)]: a missing cell is a float, on which [split]
    raises; every exception gives [None]. *)
Definition time_to_minutes (t : option string) : option Z :=
  match t with
  | None => None
  | Some t =>
      match split t with
      | hours :: minutes :: _ =>
          h ← int hours; m ← int minutes; Some (h * 60 + m)%Z
      | _ => None
      end
  end.

(** The body of the loop over [range(len(times) - 1)]: the value
    appended to [durations] for the segment from one stop to the next. *)
Definition segment_minutes (dep_here arr_next : option string) : Z :=
  match time_to_minutes dep_here, time_to_minutes arr_next with
  | Some t1, Some t2 =>
      let diff := (t2 - t1)%Z in
      let diff := if (diff <? 0)%Z then 3%Z else diff in
      Z.max 1 (Z.min diff 30)
  | _, _ => 3%Z
  end.

Fixpoint durations_of (times : list stop_time_entry) : list Z :=
  match times with
  | here :: (next :: _) as rest =>
      segment_minutes (dep here) (arr next) :: durations_of rest
  | _ => []
  end.

Definition route_travel_times_of (trips : list trip_row)
    (stop_times : list stop_time_row) : option (list (string * list Z)) :=
  match route_stop_times_of trips stop_times with
  | Some route_stop_times =>
      Some ((fun item : string * list stop_time_entry =>
               (item.1, durations_of item.2)) <$> route_stop_times)
  | None => None
  end.

End TripPlanner.

(** ** [old_scripts/gtfs_trip_planner.py]: [findRoutesRaptor] of the page *)

Module Raptor.
Import Prim Loader.

(** The object [DATA], as far as [findRoutesRaptor] reads it. A JavaScript
    object is read by key only: a [gmap]. *)
Record data := {
  stopBaseNames : gmap string string;
  locationStops : gmap string (list string);
  locationRoutes : gmap string (list string);
  routeStops : gmap string (list string);
  stopRoutes : gmap string (list string);
  routeTravelTimes : gmap string (list Z)
}.

Inductive itinerary_type := direct | transfer.

Record segment := {
  routeId : string;
  startIdx : Z;
  endIdx : Z
}.

Record itinerary := {
  type : itinerary_type;
  routes : list string;
  segments : list segment;
  transfers : Z;
  duration : Z;
  stopCount : option Z;
  originStopId : option string;
  destStopId : option string;
  transferLoc : option string;
  transferStopId : option string
}.

(** [new Set(list)], in the order in which [for ... of] visits it. *)
Definition new_Set (l : list string) : list string :=
  drop_duplicates (fun x => x) l.

(** [x || []] and [x || 3] *)
Definition or_empty {A} (x : option (list A)) : list A := default [] x.

Definition or_3 (x : option Z) : Z :=
  match x with
  | Some v => if (v =? 0)%Z then 3%Z else v
  | None => 3%Z
  end.

(** [for (let i = from; i < to; i++) duration += travelTimes[i] || 3] *)
Definition leg_duration (travelTimes : list Z) (from to : Z) : Z :=
  foldl (fun duration i => (duration + or_3 (travelTimes !! Z.to_nat i))%Z)
        0%Z (seqZ from (to - from)).

(** The four variables of the scan of a direct route. *)
Record scan := {
  originIdx : Z;
  scanOriginStopId : option string;
  destIdx : Z;
  scanDestStopId : option string
}.

Definition scan_init : scan :=
  {| originIdx := -1; scanOriginStopId := None;
     destIdx := -1; scanDestStopId := None |}.

(** The body of [for (let i = 0; i < stops.length; i++)]. *)
Definition scan_step (originStops destStops : gset string)
    (st : scan) (i : Z) (sid : string) : scan :=
  let st :=
    if bool_decide (sid ∈ originStops) && (originIdx st =? -1)%Z
    then {| originIdx := i; scanOriginStopId := Some sid;
            destIdx := destIdx st; scanDestStopId := scanDestStopId st |}
    else st in
  if bool_decide (sid ∈ destStops) && (originIdx st <? i)%Z && (0 <=? originIdx st)%Z
  then {| originIdx := originIdx st; scanOriginStopId := scanOriginStopId st;
          destIdx := i; scanDestStopId := Some sid |}
  else st.

Fixpoint scan_from (originStops destStops : gset string)
    (st : scan) (i : Z) (stops : list string) : scan :=
  match stops with
  | [] => st
  | sid :: stops' =>
      scan_from originStops destStops
        (scan_step originStops destStops st i sid) (i + 1)%Z stops'
  end.

(** One turn of [for (const routeId of directRoutes)]: the itinerary
    pushed, if any. [None] stands for the [TypeError] of [stops.length]
    when [DATA.routeStops] has no such route. *)
Definition direct_itinerary (DATA : data) (originStops destStops : gset string)
    (route : string) : option (option itinerary) :=
  stops ← routeStops DATA !! route;
  let st := scan_from originStops destStops scan_init 0 stops in
  Some
    (if (0 <=? originIdx st)%Z && (originIdx st <? destIdx st)%Z then
       let travelTimes := or_empty (routeTravelTimes DATA !! route) in
       Some {| type := direct;
               routes := [route];
               segments := [ {| routeId := route; startIdx := originIdx st;
                                endIdx := destIdx st |} ];
               transfers := 0;
               duration := leg_duration travelTimes (originIdx st) (destIdx st);
               stopCount := Some (destIdx st - originIdx st + 1)%Z;
               originStopId := scanOriginStopId st;
               destStopId := scanDestStopId st;
               transferLoc := None;
               transferStopId := None |}
     else None).

(** [stops.indexOf(sid)], [None] for -1. *)
Definition indexOf (stops : list string) (sid : string) : option nat :=
  fst <$> list_find (fun s => s = sid) stops.

(** The body of [for (const route2 of transferRoutes)]. *)
Definition transfer_itinerary (DATA : data) (destStops : gset string)
    (destRoutes : list string) (route1 : string) (originIdx1 : nat)
    (originStopId1 : string) (i : nat) (transferStop : string)
    (route2 : string) : list itinerary :=
  if bool_decide (route2 = route1) then []
  else if negb (bool_decide (route2 ∈ destRoutes)) then []
  else
    let stops2 := or_empty (routeStops DATA !! route2) in
    match indexOf stops2 transferStop with
    | None => []
    | Some transferIdx2 =>
        match list_find (fun s => s ∈ destStops) (drop (S transferIdx2) stops2) with
        | None => []
        | Some (k, destStopId2) =>
            let destIdx2 := (S transferIdx2 + k)%nat in
            let times1 := or_empty (routeTravelTimes DATA !! route1) in
            let times2 := or_empty (routeTravelTimes DATA !! route2) in
            let dur1 := leg_duration times1 (Z.of_nat originIdx1) (Z.of_nat i) in
            let dur2 := leg_duration times2 (Z.of_nat transferIdx2) (Z.of_nat destIdx2) in
            [ {| type := transfer;
                 routes := [route1; route2];
                 segments :=
                   [ {| routeId := route1; startIdx := Z.of_nat originIdx1;
                        endIdx := Z.of_nat i |};
                     {| routeId := route2; startIdx := Z.of_nat transferIdx2;
                        endIdx := Z.of_nat destIdx2 |} ];
                 transfers := 1;
                 duration := (dur1 + 5 + dur2)%Z;
                 stopCount := None;
                 originStopId := Some originStopId1;
                 destStopId := Some destStopId2;
                 transferLoc := stopBaseNames DATA !! transferStop;
                 transferStopId := Some transferStop |} ]
        end
    end.

(** One turn of [for (const route1 of originRoutes)]. *)
Definition transfer_itineraries (DATA : data) (originStops destStops : gset string)
    (destRoutes : list string) (route1 : string) : list itinerary :=
  let stops1 := or_empty (routeStops DATA !! route1) in
  match list_find (fun s => s ∈ originStops) stops1 with
  | None => []                                          (* [continue] *)
  | Some (originIdx1, originStopId1) =>
      let last := Nat.min (length stops1) (originIdx1 + 20) in
      seq (S originIdx1) (last - S originIdx1) ≫= (fun i =>
        match stops1 !! i with
        | None => []
        | Some transferStop =>
            or_empty (stopRoutes DATA !! transferStop)
              ≫= transfer_itinerary DATA destStops destRoutes route1
                    originIdx1 originStopId1 i transferStop
        end)
  end.

(** [(a, b) => a.duration - b.duration || a.transfers - b.transfers] *)
Definition compare_itineraries (a b : itinerary) : Z :=
  let d := (duration a - duration b)%Z in
  if (d =? 0)%Z then (transfers a - transfers b)%Z else d.

Definition by_duration (a b : itinerary) : bool :=
  (compare_itineraries a b <=? 0)%Z.

(** [r.routes.join('-')] *)
Definition route_key (r : itinerary) : string := String.concat "-" (routes r).

(** The loop that fills [unique], with its [break] at five entries. *)
Fixpoint dedupe (seen : gset string) (unique_length : nat)
    (results : list itinerary) : list itinerary :=
  match results with
  | [] => []
  | r :: results' =>
      let key := route_key r in
      if bool_decide (key ∈ seen) then dedupe seen unique_length results'
      else if (5 <=? S unique_length)%nat then [r]
      else r :: dedupe ({[key]} ∪ seen) (S unique_length) results'
  end.

(** The end of [findRoutesRaptor], from the comment [Sort and dedupe]. *)
Definition sort_and_dedupe (results : list itinerary) : list itinerary :=
  dedupe ∅ 0 (stable_sort by_duration results).

(** [findRoutesRaptor(originLoc, destLoc)]; [None] is the [TypeError]
    of [direct_itinerary]. *)
Definition findRoutesRaptor (DATA : data) (originLoc destLoc : string)
    : option (list itinerary) :=
  let originList := or_empty (locationStops DATA !! originLoc) in
  let destList := or_empty (locationStops DATA !! destLoc) in
  let originStops : gset string := list_to_set originList in
  let destStops : gset string := list_to_set destList in
  if bool_decide (originList = []) || bool_decide (destList = []) then Some []
  else
    let originRoutes := new_Set (or_empty (locationRoutes DATA !! originLoc)) in
    let destRoutes := new_Set (or_empty (locationRoutes DATA !! destLoc)) in
    let directRoutes := filter (fun r => r ∈ destRoutes) originRoutes in
    found ← mapM (direct_itinerary DATA originStops destStops) directRoutes;
    let results := omap (fun x => x) found in
    let results :=
      if (length results <? 3)%nat
      then results ++ (originRoutes
                         ≫= transfer_itineraries DATA originStops destStops destRoutes)
      else results in
    Some (sort_and_dedupe results).

End Raptor.

(** ** [src/utils/geo.py]: coordinate helpers *)

Module GeoUtil.

(** [coords_to_geojson(latlon_points)] *)
Definition coords_to_geojson (latlon_points : list (Q * Q)) : list (Q * Q) :=
  (fun p : Q * Q => (p.2, p.1)) <$> latlon_points.

(** A Python [float] as [min] and [max] read it: a number of the
    extended real line, or NaN, with which every comparison is false. *)
Inductive pyfloat := nan | neg_inf | finite (q : Q) | pos_inf.

(** [a < b] *)
Definition lt (a b : pyfloat) : bool :=
  match a, b with
  | nan, _ | _, nan => false
  | neg_inf, neg_inf => false
  | neg_inf, _ => true
  | finite x, finite y => if Qlt_le_dec x y then true else false
  | finite _, pos_inf => true
  | _, _ => false
  end.

(** [a <= b] *)
Definition le (a b : pyfloat) : bool :=
  match a, b with
  | nan, _ | _, nan => false
  | neg_inf, _ => true
  | finite x, finite y => if Qlt_le_dec y x then false else true
  | finite _, pos_inf => true
  | pos_inf, pos_inf => true
  | _, _ => false
  end.

(** [min(values)] and [max(values)] on a list given by its first element
    and the rest: a later element replaces the current one when it is
    strictly smaller, or strictly greater. *)
Definition py_min (first : pyfloat) (rest : list pyfloat) : pyfloat :=
  foldl (fun current item => if lt item current then item else current)
        first rest.

Definition py_max (first : pyfloat) (rest : list pyfloat) : pyfloat :=
  foldl (fun current item => if lt current item then item else current)
        first rest.

(** [get_bounds(coords)], on pairs of longitude and latitude. *)
Definition get_bounds (coords : list (pyfloat * pyfloat))
    : (pyfloat * pyfloat) * (pyfloat * pyfloat) :=
  match coords with
  | [] => ((finite 0, finite 0), (finite 0, finite 0))
  | c :: cs =>
      let lons := fst <$> cs in
      let lats := snd <$> cs in
      ((py_min c.1 lons, py_min c.2 lats), (py_max c.1 lons, py_max c.2 lats))
  end.

End GeoUtil.

(** ** [src/data/gtfs_loader.py]: the queries *)

Module LoaderQueries.
Import Prim Feed Loader StopJoin.

(** [row.get(key, default)] on a row: the cell when the column exists,
    missing or not, else the default. *)
Definition get_or (c default : cell) : cell :=
  match c with
  | Absent => default
  | _ => c
  end.

(** [get_route_name(route_id)]: the first row of the route decides. *)
Definition get_route_name (routes : list route_row) (route_id : string) : string :=
  match filter (fun row => r_route_id row = route_id) routes with
  | [] => route_id
  | row :: _ =>
      str (get_or (route_short_name row)
                  (get_or (route_long_name row) (Str route_id)))
  end.

End LoaderQueries.

(** ** What the two maps have in common *)

Module Compare.

(** The parts that a feature of the interactive map and a feature of the
    network map both have: route name, search label, stop count and
    coordinates. *)
Definition summary : Type := string * string * nat * list (Q * Q).

Definition interactive_summary (f : InteractiveMap.feature) : summary :=
  (InteractiveMap.route_name f, InteractiveMap.search_text f,
   InteractiveMap.stops_count f, InteractiveMap.coordinates f).

Definition network_summary (f : NetworkMap.feature) : summary :=
  (NetworkMap.route_name f, NetworkMap.search_key f,
   NetworkMap.stops f, NetworkMap.coordinates f).

Definition by_label (a b : summary) : bool := String.leb a.1.1.2 b.1.1.2.

(** The geometry of the interactive map without its stop markers. *)
Definition strip_geometry (g : InteractiveMap.geometry) : NetworkMap.geometry :=
  {| NetworkMap.coords := InteractiveMap.coords g;
     NetworkMap.stop_ids := InteractiveMap.stop_ids g;
     NetworkMap.start := InteractiveMap.start g;
     NetworkMap.end_ := InteractiveMap.end_ g;
     NetworkMap.count := InteractiveMap.count g |}.

Definition strip_directions (directions : list (string * InteractiveMap.geometry))
    : list (string * NetworkMap.geometry) :=
  prod_map id strip_geometry <$> directions.

Definition strip_route_directions
    (route_directions : list (string * list (string * InteractiveMap.geometry)))
    : list (string * list (string * NetworkMap.geometry)) :=
  prod_map id strip_directions <$> route_directions.

End Compare.

(** ** What an itinerary of the planner says *)

Module Journey.
Import Raptor.

(** [rides DATA s board alight]: the segment [s] is a ride on its route,
    from the stop [board] to the stop [alight] further down the
    sequence of the route. *)
Definition rides (DATA : data) (s : segment) (board alight : string) : Prop :=
  exists (stops : list string) (a b : nat),
    routeStops DATA !! routeId s = Some stops
    /\ startIdx s = Z.of_nat a /\ endIdx s = Z.of_nat b /\ (a < b)%nat
    /\ stops !! a = Some board /\ stops !! b = Some alight.

(** [journey DATA originStops destStops r]: the itinerary [r] goes from a
    stop of the origin to a stop of the destination, by one ride, or by
    two rides on different routes that meet at one stop, the first ride
    less than twenty stops long. *)
Definition journey (DATA : data) (originStops destStops : gset string)
    (r : itinerary) : Prop :=
  exists board alight,
    board ∈ originStops /\ alight ∈ destStops
    /\ originStopId r = Some board /\ destStopId r = Some alight
    /\ routes r = routeId <$> segments r
    /\ transfers r = (Z.of_nat (length (segments r)) - 1)%Z
    /\ match segments r with
       | [s] =>
           type r = direct /\ transferStopId r = None
           /\ rides DATA s board alight
       | [s1; s2] =>
           type r = transfer /\ routeId s1 <> routeId s2
           /\ exists change,
               transferStopId r = Some change
               /\ rides DATA s1 board change /\ rides DATA s2 change alight
               /\ (endIdx s1 - startIdx s1 < 20)%Z
       | _ => False
       end.

(** The number of stop-to-stop hops of an itinerary. *)
Definition hops (r : itinerary) : Z :=
  foldr (fun s n => (endIdx s - startIdx s + n)%Z) 0%Z (segments r).

End Journey.

(** ** [old_scripts/gtfs_trip_planner.py]: [showRoute] of the page *)

Module Page.
Import Raptor.

(** [l.slice(start, end)]: a negative bound counts from the end of the
    array, and both bounds are cut to its length. *)
Definition slice {A : Type} (l : list A) (start end_ : Z) : list A :=
  let len := Z.of_nat (length l) in
  let k := if (start <? 0)%Z then Z.max (len + start) 0 else Z.min start len in
  let final := if (end_ <? 0)%Z then Z.max (len + end_) 0 else Z.min end_ len in
  take (Z.to_nat (final - k)) (drop (Z.to_nat k) l).

(** [segmentStops], the stops drawn for a segment. [None] stands for the
    [TypeError] of [allStops.slice] on a route without a stop sequence. *)
Definition segment_stops (DATA : data) (seg : segment) : option (list string) :=
  allStops ← routeStops DATA !! routeId seg;
  Some (slice allStops (startIdx seg) (endIdx seg + 1)).

End Page.

(** ** [src/utils/geo.py]: the colour of a route *)

Module GeoColor.

Definition colors : list string :=
  [ "#e41a1c"; "#377eb8"; "#4daf4a"; "#984ea3"; "#ff7f00";
    "#ffff33"; "#a65628"; "#f781bf"; "#999999"; "#66c2a5";
    "#fc8d62"; "#8da0cb"; "#e78ac3"; "#a6d854"; "#ffd92f" ].

(** [generate_color_for_route(route_name)], the name given as the
    sequence of the code points of its characters, which is what [ord]
    reads. [None] would be the [IndexError] of [colors[...]]. *)
Definition generate_color_for_route (route_name : list N) : option string :=
  let hash_val := foldl N.add 0%N route_name in
  colors !! N.to_nat (hash_val mod N.of_nat (length colors)).

End GeoColor.

(** ** Property names that every JavaScript object inherits *)

Module ObjectKeys.
Import Raptor.

(** The property names of [Object.prototype]. The maps of [DATA] are
    written into the page as object literals: under one of these names a
    lookup that finds no entry of the data answers with an inherited
    function or object, not with [undefined], and an entry with the key
    [__proto__] sets the prototype of the literal instead of adding a
    key. [Raptor.data] reads a map by its own keys only. *)
Definition Object_prototype : list string :=
  [ "constructor"; "__defineGetter__"; "__defineSetter__"; "hasOwnProperty";
    "__lookupGetter__"; "__lookupSetter__"; "isPrototypeOf";
    "propertyIsEnumerable"; "toString"; "valueOf"; "__proto__";
    "toLocaleString" ].

Definition plain (key : string) : Prop := key ∉ Object_prototype.

(** [plain_data DATA]: no map of [DATA] has the key [__proto__], and
    every route id and stop id that the search looks up, which it takes
    from the lists of [locationRoutes], [routeStops] and [stopRoutes], is
    plain. On such data, and for plain place names, every lookup of
    [findRoutesRaptor] is a lookup of own keys. *)
Definition plain_data (DATA : data) : Prop :=
  stopBaseNames DATA !! "__proto__" = None
  /\ locationStops DATA !! "__proto__" = None
  /\ locationRoutes DATA !! "__proto__" = None
  /\ routeStops DATA !! "__proto__" = None
  /\ stopRoutes DATA !! "__proto__" = None
  /\ routeTravelTimes DATA !! "__proto__" = None
  /\ map_Forall (fun _ routes => Forall plain routes) (locationRoutes DATA)
  /\ map_Forall (fun _ stops => Forall plain stops) (routeStops DATA)
  /\ map_Forall (fun _ routes => Forall plain routes) (stopRoutes DATA).

End ObjectKeys.

(** ** Predicates of the statements *)

Module Spec.
Import Prim.


(** [scan_result originStops destStops stops st]: the state [st] holds
    -1 twice when no stop of [stops] is at the origin; otherwise the index
    of the first stop at the origin and, after it, the index of the last
    stop at the destination, or -1 when no such stop follows. *)
Definition scan_result (originStops destStops : gset string)
    (stops : list string) (st : Raptor.scan) : Prop :=
  (Raptor.originIdx st = (-1)%Z /\ Raptor.destIdx st = (-1)%Z
   /\ forall j s, stops !! j = Some s -> s ∉ originStops)
  \/ exists o so,
      Raptor.originIdx st = Z.of_nat o
      /\ Raptor.scanOriginStopId st = Some so
      /\ stops !! o = Some so /\ so ∈ originStops
      /\ (forall j s, (j < o)%nat -> stops !! j = Some s -> s ∉ originStops)
      /\ ((Raptor.destIdx st = (-1)%Z
           /\ forall j s, (o < j)%nat -> stops !! j = Some s -> s ∉ destStops)
          \/ exists d sd,
              Raptor.destIdx st = Z.of_nat d
              /\ Raptor.scanDestStopId st = Some sd
              /\ (o < d)%nat
              /\ stops !! d = Some sd /\ sd ∈ destStops
              /\ forall j s, (d < j)%nat -> stops !! j = Some s -> s ∉ destStops).

(** [sequence_in_int64 st]: the sequence number of the visit, when it
    has one, is a 64-bit signed integer, which [.astype(int)] leaves as
    it is. *)
Definition sequence_in_int64 (st : Feed.stop_time_row) : Prop :=
  match Feed.stop_sequence st with
  | Some q => (- 2 ^ 63 <= q < 2 ^ 63)%Z
  | None => True
  end.


End Spec.

(** ** Sample feeds *)

Module Samples.
Import Feed.

Definition visit (tid sid : string) (seq : Z) : stop_time_row :=
  {| st_trip_id := tid; st_stop_id := Some sid; stop_sequence := Some seq;
     arrival_time := None; departure_time := None |}.

(** Two trips of route "R" with two stop visits each, the direction of
    the first one missing, and a shorter trip in the other direction. *)
Definition tie_trips : list trip_row :=
  [ {| trip_id := "T2"; route_id := "R"; direction_id := None |};
    {| trip_id := "T1"; route_id := "R"; direction_id := Some "0" |};
    {| trip_id := "T3"; route_id := "R"; direction_id := Some "1" |} ].

Definition tie_stop_times : list stop_time_row :=
  [ visit "T2" "s1" 1; visit "T2" "s2" 2;
    visit "T1" "s3" 1; visit "T1" "s4" 2;
    visit "T3" "s4" 1 ].

(** The two directions of route "10A" share three of five stops. *)
Definition overlapping_directions : list (string * InteractiveMap.geometry) :=
  [ ("0", {| InteractiveMap.coords := []; InteractiveMap.stop_ids := {["S1"; "S2"; "S3"; "S4"]};
             InteractiveMap.stop_list := []; InteractiveMap.start := Some "S1";
             InteractiveMap.end_ := Some "S4"; InteractiveMap.count := 4 |});
    ("1", {| InteractiveMap.coords := []; InteractiveMap.stop_ids := {["S2"; "S3"; "S4"; "S5"]};
             InteractiveMap.stop_list := []; InteractiveMap.start := Some "S5";
             InteractiveMap.end_ := Some "S2"; InteractiveMap.count := 4 |}) ].

(** The two directions of route "5K" share no stop. *)
Definition disjoint_directions : list (string * NetworkMap.geometry) :=
  [ ("0", {| NetworkMap.coords := []; NetworkMap.stop_ids := {["A"; "B"; "C"]};
             NetworkMap.start := Some "A"; NetworkMap.end_ := Some "C";
             NetworkMap.count := 3 |});
    ("1", {| NetworkMap.coords := []; NetworkMap.stop_ids := {["D"; "E"; "F"]};
             NetworkMap.start := Some "F"; NetworkMap.end_ := Some "D";
             NetworkMap.count := 3 |}) ].

Definition stop_at (sid : string) (lat lon : Q) : stop_row :=
  {| stop_id := sid; stop_name := Some sid;
     stop_lat := Some lat; stop_lon := Some lon |}.

(** Route "5K": one trip per direction, over disjoint stops; the stop
    "F" has no parseable longitude. *)
Definition split_stops : list stop_row :=
  [ stop_at "A" (17 # 1) (78 # 1); stop_at "B" (17 # 1) (79 # 1);
    stop_at "C" (17 # 1) (80 # 1); stop_at "D" (18 # 1) (80 # 1);
    stop_at "E" (18 # 1) (79 # 1);
    {| stop_id := "F"; stop_name := Some "F";
       stop_lat := Some (18 # 1); stop_lon := None |} ].

Definition split_trips : list trip_row :=
  [ {| trip_id := "out"; route_id := "5K"; direction_id := Some "0" |};
    {| trip_id := "in"; route_id := "5K"; direction_id := Some "1" |} ].

Definition split_stop_times : list stop_time_row :=
  [ visit "out" "A" 1; visit "out" "B" 2; visit "out" "C" 3;
    visit "in" "D" 1; visit "in" "E" 2; visit "in" "F" 3 ].

Definition split_routes : list route_row :=
  [ {| r_route_id := "5K"; route_short_name := Str "5K"; route_long_name := NaN |} ].

(** Route "9X": one trip, whose two visits are at a stop without
    longitude and at a stop that the stops table does not have. *)
Definition unresolved_stops : list stop_row :=
  [ {| stop_id := "F"; stop_name := Some "F";
       stop_lat := Some (18 # 1); stop_lon := None |} ].

Definition unresolved_trips : list trip_row :=
  [ {| trip_id := "t"; route_id := "9X"; direction_id := None |} ].

Definition unresolved_stop_times : list stop_time_row :=
  [ visit "t" "F" 1; visit "t" "G" 2 ].

(** Route "12" leaves place "X" at its first stop and then serves two
    stops of place "Y". *)
Definition loop_data : Raptor.data :=
  {| Raptor.stopBaseNames := {[ "o" := "X"; "d1" := "Y"; "d2" := "Y" ]};
     Raptor.locationStops := {[ "X" := ["o"]; "Y" := ["d1"; "d2"] ]};
     Raptor.locationRoutes := {[ "X" := ["12"]; "Y" := ["12"] ]};
     Raptor.routeStops := {[ "12" := ["o"; "d1"; "d2"] ]};
     Raptor.stopRoutes := {[ "o" := ["12"]; "d1" := ["12"]; "d2" := ["12"] ]};
     Raptor.routeTravelTimes := {[ "12" := [4; 7]%Z ]} |}.

(** Routes "A" and "B" both run from place "X" through "M" to "Y". *)
Definition twin_data : Raptor.data :=
  {| Raptor.stopBaseNames := {[ "x" := "X"; "m" := "M"; "y" := "Y" ]};
     Raptor.locationStops := {[ "X" := ["x"]; "M" := ["m"]; "Y" := ["y"] ]};
     Raptor.locationRoutes :=
       {[ "X" := ["A"; "B"]; "M" := ["A"; "B"]; "Y" := ["A"; "B"] ]};
     Raptor.routeStops := {[ "A" := ["x"; "m"; "y"]; "B" := ["x"; "m"; "y"] ]};
     Raptor.stopRoutes :=
       {[ "x" := ["A"; "B"]; "m" := ["A"; "B"]; "y" := ["A"; "B"] ]};
     Raptor.routeTravelTimes := {[ "A" := [3; 3]%Z; "B" := [3; 4]%Z ]} |}.

(** Three candidates, two of them with the routes "A" then "B". *)
Definition candidate (routes : list string) (duration transfers : Z)
    : Raptor.itinerary :=
  {| Raptor.type := if (transfers =? 0)%Z then Raptor.direct else Raptor.transfer;
     Raptor.routes := routes; Raptor.segments := [];
     Raptor.transfers := transfers; Raptor.duration := duration;
     Raptor.stopCount := None; Raptor.originStopId := None;
     Raptor.destStopId := None; Raptor.transferLoc := None;
     Raptor.transferStopId := None |}.

Definition candidates : list Raptor.itinerary :=
  [ candidate ["A"; "B"] 20 1; candidate ["C"] 20 0; candidate ["A"; "B"] 15 1 ].

(** The feature of the interactive map for the inbound trip of route
    "5K": its last visit, at stop "F", has no coordinate. *)
Definition split_inbound_feature : InteractiveMap.feature :=
  {| InteractiveMap.id := "5K_1";
     InteractiveMap.route_name := "5K";
     InteractiveMap.search_text := "5K (Inbound)";
     InteractiveMap.desc := "D → F";
     InteractiveMap.stops_count := 2;
     InteractiveMap.f_stop_list :=
       [ {| InteractiveMap.sd_name := Some "D"; InteractiveMap.sd_lat := 18 # 1;
            InteractiveMap.sd_lon := 80 # 1 |};
         {| InteractiveMap.sd_name := Some "E"; InteractiveMap.sd_lat := 18 # 1;
            InteractiveMap.sd_lon := 79 # 1 |} ];
     InteractiveMap.type := InteractiveMap.one_way;
     InteractiveMap.coordinates := [ (80 # 1, 18 # 1); (79 # 1, 18 # 1) ]%Q |}.


(** Route "9" is listed at the places "X" and "Y", and has no stop
    sequence. *)
Definition gap_data : Raptor.data :=
  {| Raptor.stopBaseNames := {[ "x" := "X"; "y" := "Y" ]};
     Raptor.locationStops := {[ "X" := ["x"]; "Y" := ["y"] ]};
     Raptor.locationRoutes := {[ "X" := ["9"]; "Y" := ["9"] ]};
     Raptor.routeStops := ∅;
     Raptor.stopRoutes := {[ "x" := ["9"]; "y" := ["9"] ]};
     Raptor.routeTravelTimes := ∅ |}.

(** The trip id "T" is listed under the routes "R1" and "R2". *)
Definition shared_trips : list trip_row :=
  [ {| trip_id := "T"; route_id := "R1"; direction_id := Some "0" |};
    {| trip_id := "T"; route_id := "R2"; direction_id := Some "0" |} ].

Definition shared_stop_times : list stop_time_row :=
  [ visit "T" "a" 1; visit "T" "b" 2 ].

End Samples.

(** * Verification *)

(** ** Facts on the primitives *)

Module PrimFacts.
Import Prim.

Section StableSortFacts.
Context {A : Type} (le : A -> A -> bool).

Lemma insert_sorted_perm x l : insert_sorted le x l ≡ₚ x :: l.
Proof.
  induction l as [|y l IH]; simpl; [reflexivity|].
  destruct (le x y); [reflexivity|].
  rewrite IH. apply Permutation_swap.
Qed.

Lemma stable_sort_perm l : stable_sort le l ≡ₚ l.
Proof.
  induction l as [|x l IH]; simpl; [reflexivity|].
  rewrite insert_sorted_perm, IH. reflexivity.
Qed.

Lemma elem_of_stable_sort x l : x ∈ stable_sort le l <-> x ∈ l.
Proof. rewrite (stable_sort_perm l). reflexivity. Qed.

Lemma length_stable_sort l : length (stable_sort le l) = length l.
Proof. apply Permutation_length, stable_sort_perm. Qed.

Hypothesis le_total : forall a b, le a b = true \/ le b a = true.
Hypothesis le_trans : forall a b c, le a b = true -> le b c = true -> le a c = true.

Lemma insert_sorted_sorted x l :
  StronglySorted (fun a b => le a b = true) l ->
  StronglySorted (fun a b => le a b = true) (insert_sorted le x l).
Proof.
  induction 1 as [|y l Hs IH Hy]; simpl.
  - repeat constructor.
  - destruct (le x y) eqn:E.
    + constructor; [constructor; assumption|].
      constructor; [exact E|].
      eapply Forall_impl; [exact Hy|]. intros z Hz. eapply le_trans; eassumption.
    + constructor; [exact IH|].
      rewrite (insert_sorted_perm x l). constructor; [|exact Hy].
      destruct (le_total x y) as [H|H]; [congruence|exact H].
Qed.

Lemma stable_sort_sorted l :
  StronglySorted (fun a b => le a b = true) (stable_sort le l).
Proof.
  induction l as [|x l IH]; simpl; [constructor|].
  apply insert_sorted_sorted, IH.
Qed.
End StableSortFacts.

Section DictFacts.
Context {K V : Type} `{EqDecision K}.

Lemma dict_get_graph (f : K -> V) (k : K) (l : list K) :
  dict_get k ((fun k' => (k', f k')) <$> l)
  = if decide (k ∈ l) then Some (f k) else None.
Proof.
  induction l as [|k' l IH]; csimpl.
  - destruct (decide (k ∈ [])) as [Hin|]; [|reflexivity].
    apply elem_of_nil in Hin. contradiction.
  - destruct (decide (k = k')) as [->|Hne].
    + rewrite decide_True by (apply elem_of_cons; auto). reflexivity.
    + rewrite IH. destruct (decide (k ∈ l)) as [Hin|Hin].
      * rewrite decide_True; [reflexivity|]. apply elem_of_cons; auto.
      * rewrite decide_False; [reflexivity|].
        rewrite elem_of_cons. intros [?|?]; contradiction.
Qed.

Lemma dict_get_set (k k' : K) (v : V) (d : list (K * V)) :
  dict_get k (dict_set k' v d)
  = if decide (k = k') then Some v else dict_get k d.
Proof.
  induction d as [|[k0 v0] d IH]; simpl.
  - destruct (decide (k = k')); reflexivity.
  - destruct (decide (k' = k0)) as [->|Hne]; simpl.
    + destruct (decide (k = k0)); reflexivity.
    + destruct (decide (k = k0)) as [->|Hne0].
      * rewrite decide_False by congruence. reflexivity.
      * exact IH.
Qed.

Lemma dict_set_not_nil (k : K) (v : V) (d : list (K * V)) : dict_set k v d <> [].
Proof.
  destruct d as [|[k0 v0] d]; simpl; [discriminate|].
  destruct (decide (k = k0)); discriminate.
Qed.

Lemma dict_get_Some_elem (k : K) (v : V) (d : list (K * V)) :
  dict_get k d = Some v -> (k, v) ∈ d.
Proof.
  induction d as [|[k0 v0] d IH]; simpl; [discriminate|].
  destruct (decide (k = k0)) as [->|Hne].
  - intros [= ->]. apply elem_of_cons. left. reflexivity.
  - intros H. apply elem_of_cons. right. apply IH, H.
Qed.

Lemma dict_get_None (k : K) (d : list (K * V)) :
  dict_get k d = None <-> forall v, (k, v) ∉ d.
Proof.
  induction d as [|[k0 v0] d IH]; simpl.
  - split; [|reflexivity]. intros _ v. apply not_elem_of_nil.
  - destruct (decide (k = k0)) as [->|Hne].
    + split; [discriminate|]. intros H. exfalso.
      apply (H v0). apply elem_of_cons. left. reflexivity.
    + rewrite IH. split; intros H v.
      * rewrite elem_of_cons. intros [[= ? ?]|Hin]; [contradiction|].
        exact (H v Hin).
      * intros Hin. apply (H v). apply elem_of_cons. right. exact Hin.
Qed.
End DictFacts.

End PrimFacts.

(** ** Properties of [calculate_route_overlap] *)

Module GeoFacts.
Import Geo.

(** C7. The Jaccard similarity is symmetric in its two arguments, it is
    [0] as soon as one of the two sets is empty, and it is [1] on two
    equal sets that are not empty. *)
Theorem calculate_route_overlap_jaccard (A B : gset string) :
  calculate_route_overlap A B = calculate_route_overlap B A
  /\ calculate_route_overlap ∅ B = 0%Q
  /\ calculate_route_overlap A ∅ = 0%Q
  /\ (A <> ∅ -> (calculate_route_overlap A A == 1)%Q).
Proof.
  unfold calculate_route_overlap. split; [|split; [|split]].
  - assert (Hi : B ∩ A = A ∩ B).
    { apply set_eq. intros x. rewrite !elem_of_intersection. tauto. }
    assert (Hu : B ∪ A = A ∪ B).
    { apply set_eq. intros x. rewrite !elem_of_union. tauto. }
    rewrite Hi, Hu, (orb_comm (bool_decide (A = ∅))). reflexivity.
  - rewrite (bool_decide_eq_true_2 (∅ = ∅)) by reflexivity. reflexivity.
  - rewrite (bool_decide_eq_true_2 (∅ = ∅)) by reflexivity.
    rewrite orb_true_r. reflexivity.
  - intros HA. rewrite (bool_decide_eq_false_2 (A = ∅)) by exact HA. simpl.
    assert (Hi : A ∩ A = A).
    { apply set_eq. intros x. rewrite elem_of_intersection. tauto. }
    assert (Hu : A ∪ A = A).
    { apply set_eq. intros x. rewrite elem_of_union. tauto. }
    rewrite Hi, Hu.
    assert (Hpos : (0 < size A)%nat).
    { destruct (size A) eqn:E; [|lia]. apply size_empty_inv in E.
      apply leibniz_equiv in E. contradiction. }
    rewrite bool_decide_eq_true_2 by exact Hpos.
    apply Qmult_inv_r. unfold Qeq, inject_Z. simpl. lia.
Qed.

Lemma calculate_route_overlap_jaccard_witness :
  (calculate_route_overlap {["S1"; "S2"]} {["S1"; "S2"]} == 1)%Q.
Proof.
  apply (calculate_route_overlap_jaccard {["S1"; "S2"]} {["S1"; "S2"]}).
  vm_compute. discriminate.
Defined.

End GeoFacts.

(** ** Properties of the representative trips *)

Module LoaderFacts.
Import Prim PrimFacts Feed Loader.

Section DropDuplicatesFacts.
Context {A K : Type} `{EqDecision K} (key : A -> K).

Lemma drop_duplicates_from_first seen l r :
  r ∈ drop_duplicates_from key seen l ->
  exists l1 l2, l = l1 ++ r :: l2 /\ (key r ∉ seen) /\ (key r ∉ (key <$> l1)).
Proof.
  revert seen. induction l as [|x l IH]; simpl; intros seen Hr.
  - apply elem_of_nil in Hr. contradiction.
  - destruct (bool_decide (key x ∈ seen)) eqn:E.
    + apply bool_decide_eq_true in E.
      destruct (IH _ Hr) as (l1 & l2 & -> & Hs & Hl1).
      exists (x :: l1), l2. split; [reflexivity|]. split; [exact Hs|].
      rewrite fmap_cons, elem_of_cons. intros [Heq|Hin]; [|contradiction].
      rewrite Heq in Hs. contradiction.
    + apply bool_decide_eq_false in E.
      apply elem_of_cons in Hr as [->|Hr].
      * exists [], l. split; [reflexivity|]. split; [exact E|].
        simpl. apply not_elem_of_nil.
      * destruct (IH _ Hr) as (l1 & l2 & -> & Hs & Hl1).
        exists (x :: l1), l2. split; [reflexivity|].
        rewrite elem_of_cons in Hs. split; [tauto|].
        rewrite fmap_cons, elem_of_cons. intros [Heq|Hin]; [|contradiction].
        apply Hs. left. exact Heq.
Qed.

Lemma drop_duplicates_from_NoDup seen l :
  NoDup (key <$> drop_duplicates_from key seen l).
Proof.
  revert seen. induction l as [|x l IH]; simpl; intros seen.
  - constructor.
  - destruct (bool_decide (key x ∈ seen)) eqn:E; [apply IH|].
    rewrite fmap_cons. apply NoDup_cons. split; [|apply IH].
    intros Hin. apply list_elem_of_fmap in Hin as (r & Hk & Hr).
    apply drop_duplicates_from_first in Hr as (_ & _ & _ & Hs & _).
    apply Hs. rewrite <- Hk. apply elem_of_cons. left. reflexivity.
Qed.

Lemma drop_duplicates_from_elem seen l r :
  r ∈ drop_duplicates_from key seen l -> r ∈ l.
Proof.
  intros Hr. apply drop_duplicates_from_first in Hr as (l1 & l2 & -> & _).
  apply elem_of_app. right. apply elem_of_cons. left. reflexivity.
Qed.
End DropDuplicatesFacts.

Lemma drop_duplicates_from_covers {A K : Type} `{EqDecision K} (key : A -> K)
    (seen : list K) (l : list A) (x : A) :
  x ∈ l -> key x ∉ seen ->
  exists r, r ∈ drop_duplicates_from key seen l /\ key r = key x.
Proof.
  revert seen. induction l as [|y l IH]; intros seen Hin Hfresh.
  - apply elem_of_nil in Hin. contradiction.
  - simpl. destruct (bool_decide (key y ∈ seen)) eqn:E.
    + apply bool_decide_eq_true in E.
      apply elem_of_cons in Hin as [->|Hin]; [contradiction|].
      apply IH; assumption.
    + destruct (decide (key x = key y)) as [Heq|Hne].
      * exists y. split; [apply elem_of_cons; auto|auto].
      * apply elem_of_cons in Hin as [->|Hin]; [contradiction|].
        destruct (IH (key y :: seen) Hin) as (r & Hr & Hk).
        { rewrite elem_of_cons. tauto. }
        exists r. split; [apply elem_of_cons; auto|exact Hk].
Qed.

Lemma drop_duplicates_from_sublist {A K : Type} `{EqDecision K} (key : A -> K)
    (seen : list K) (l : list A) :
  drop_duplicates_from key seen l `sublist_of` l.
Proof.
  revert seen. induction l as [|y l IH]; intros seen; simpl.
  - constructor.
  - destruct (bool_decide (key y ∈ seen)).
    + apply sublist_cons, IH.
    + apply sublist_skip, IH.
Qed.

Lemma by_stop_count_desc_total a b :
  by_stop_count_desc a b = true \/ by_stop_count_desc b a = true.
Proof. unfold by_stop_count_desc. rewrite !Nat.leb_le. lia. Qed.

Lemma by_stop_count_desc_trans a b c :
  by_stop_count_desc a b = true -> by_stop_count_desc b c = true ->
  by_stop_count_desc a c = true.
Proof. unfold by_stop_count_desc. rewrite !Nat.leb_le. lia. Qed.

Lemma visit_count_pos stop_times tid :
  tid ∈ (st_trip_id <$> stop_times) <-> (0 < visit_count stop_times tid)%nat.
Proof.
  unfold visit_count. induction stop_times as [|st l IH]; simpl.
  - rewrite elem_of_nil. simpl. lia.
  - rewrite elem_of_cons, filter_cons.
    destruct (decide (st_trip_id st = tid)) as [<-|Hne]; simpl.
    + split; [lia|auto].
    + rewrite <- IH. split; [intros [?|?]; [congruence|assumption]|auto].
  Qed.

Lemma trip_counts_get stop_times tid :
  dict_get tid (trip_counts stop_times)
  = if decide (0 < visit_count stop_times tid)%nat
    then Some (visit_count stop_times tid) else None.
Proof.
  unfold trip_counts. rewrite dict_get_graph.
  destruct (decide (0 < visit_count stop_times tid)%nat) as [Hp|Hp].
  - rewrite decide_True; [reflexivity|].
    apply elem_of_stable_sort, elem_of_remove_dups, visit_count_pos, Hp.
  - rewrite decide_False; [reflexivity|].
    rewrite elem_of_stable_sort, elem_of_remove_dups, visit_count_pos. exact Hp.
Qed.

Lemma elem_of_trips_enriched trips stop_times r :
  r ∈ trips_enriched trips stop_times <->
  exists t, t ∈ trips /\ (0 < visit_count stop_times (trip_id t))%nat
    /\ r = {| rt_trip_id := trip_id t; rt_route_id := route_id t;
              rt_direction_id := default "0" (direction_id t);
              stop_count := visit_count stop_times (trip_id t) |}.
Proof.
  unfold trips_enriched. rewrite list_elem_of_omap. split.
  - intros (t & Ht & Hr). exists t. split; [exact Ht|].
    rewrite trip_counts_get in Hr.
    destruct (decide (0 < visit_count stop_times (trip_id t))%nat); simpl in Hr;
      [|discriminate].
    split; [assumption|]. congruence.
  - intros (t & Ht & Hp & ->). exists t. split; [exact Ht|].
    rewrite trip_counts_get, decide_True by exact Hp. reflexivity.
Qed.

(** C5. The representative trips hold at most one row per pair of route
    and direction (a missing direction counting as "0"); every row is a
    trip of the table with its own number of stop visits, and no trip of
    the same route and direction has more stop visits. *)
Theorem get_representative_trips_longest
    (trips : list trip_row) (stop_times : list stop_time_row) :
  NoDup (route_direction <$> get_representative_trips trips stop_times)
  /\ forall r, r ∈ get_representative_trips trips stop_times ->
       stop_count r = visit_count stop_times (rt_trip_id r)
       /\ (exists t, t ∈ trips /\ trip_id t = rt_trip_id r
                     /\ route_id t = rt_route_id r
                     /\ default "0" (direction_id t) = rt_direction_id r)
       /\ forall t, t ∈ trips ->
            route_id t = rt_route_id r ->
            default "0" (direction_id t) = rt_direction_id r ->
            (visit_count stop_times (trip_id t) <= stop_count r)%nat.
Proof.
  unfold get_representative_trips, drop_duplicates. split.
  - apply drop_duplicates_from_NoDup.
  - intros r Hr.
    pose proof (drop_duplicates_from_elem _ _ _ _ Hr) as Hin.
    apply elem_of_stable_sort, elem_of_trips_enriched in Hin as (t0 & Ht0 & Hp0 & Er).
    split; [rewrite Er; reflexivity|].
    split; [exists t0; rewrite Er; auto|].
    intros t Ht Hroute Hdir.
    destruct (decide (0 < visit_count stop_times (trip_id t))%nat) as [Hp|Hp]; [|lia].
    set (e := {| rt_trip_id := trip_id t; rt_route_id := route_id t;
                 rt_direction_id := default "0" (direction_id t);
                 stop_count := visit_count stop_times (trip_id t) |}).
    assert (He : e ∈ stable_sort by_stop_count_desc (trips_enriched trips stop_times)).
    { apply elem_of_stable_sort, elem_of_trips_enriched. exists t. auto. }
    assert (Hkey : route_direction e = route_direction r).
    { unfold route_direction. simpl. congruence. }
    pose proof (stable_sort_sorted by_stop_count_desc by_stop_count_desc_total
                  by_stop_count_desc_trans (trips_enriched trips stop_times)) as Hsorted.
    apply drop_duplicates_from_first in Hr as (l1 & l2 & Hsplit & _ & Hl1).
    rewrite Hsplit in He, Hsorted.
    apply elem_of_app in He as [He|He].
    { exfalso. apply Hl1. rewrite <- Hkey. apply list_elem_of_fmap_2. exact He. }
    apply elem_of_cons in He as [He|He].
    { rewrite <- He. simpl. lia. }
    apply StronglySorted_app_1_r in Hsorted.
    apply StronglySorted_inv in Hsorted as [_ Hall].
    rewrite Forall_forall in Hall. specialize (Hall e He).
    unfold by_stop_count_desc in Hall. apply Nat.leb_le in Hall. exact Hall.
Qed.

Lemma get_representative_trips_longest_witness :
  let r := {| rt_trip_id := "T2"; rt_route_id := "R";
              rt_direction_id := "0"; stop_count := 2 |} in
  r ∈ get_representative_trips Samples.tie_trips Samples.tie_stop_times
  /\ (visit_count Samples.tie_stop_times "T1" <= stop_count r)%nat.
Proof.
  intros r.
  assert (Hr : r ∈ get_representative_trips Samples.tie_trips Samples.tie_stop_times).
  { vm_compute. apply elem_of_cons. left. reflexivity. }
  split; [exact Hr|].
  destruct (get_representative_trips_longest Samples.tie_trips Samples.tie_stop_times)
    as [_ Hall].
  destruct (Hall r Hr) as (_ & _ & Hmax).
  apply (Hmax {| trip_id := "T1"; route_id := "R"; direction_id := Some "0" |}).
  - vm_compute. apply elem_of_cons. right. apply elem_of_cons. left. reflexivity.
  - reflexivity.
  - reflexivity.
Defined.

End LoaderFacts.

(** ** Properties of the merge decision *)

Module MergeFacts.
Import Prim PrimFacts Feed Loader Geo Config StopJoin.

Lemma interactive_route_features_length names rid
    (directions : list (string * InteractiveMap.geometry)) :
  length (InteractiveMap.route_features names (rid, directions))
  = match InteractiveMap.merged_feature rid
            (default rid (dict_get rid names)) directions with
    | Some _ => 1%nat
    | None => length directions
    end.
Proof.
  unfold InteractiveMap.route_features.
  destruct (InteractiveMap.merged_feature _ _ _); [reflexivity|].
  apply length_fmap.
Qed.

Lemma network_route_features_length names rid
    (directions : list (string * NetworkMap.geometry)) :
  length (NetworkMap.route_features names (rid, directions))
  = match NetworkMap.merged_feature
            (default rid (dict_get rid names)) directions with
    | Some _ => 1%nat
    | None => length directions
    end.
Proof.
  unfold NetworkMap.route_features.
  destruct (NetworkMap.merged_feature _ _); [reflexivity|].
  apply length_fmap.
Qed.

(** C1. In both generators, a route that has a geometry for direction
    "0" and one for direction "1" emits exactly one feature when the
    Jaccard similarity of the two sets of stop ids is strictly above the
    threshold 3/10, and otherwise exactly one feature per direction
    present. *)
Theorem merge_or_split_feature_count :
  (forall names rid (directions : list (string * InteractiveMap.geometry)) d0 d1,
      dict_get "0" directions = Some d0 ->
      dict_get "1" directions = Some d1 ->
      let jaccard := calculate_route_overlap (InteractiveMap.stop_ids d0)
                                             (InteractiveMap.stop_ids d1) in
      ((MERGE_THRESHOLD < jaccard)%Q ->
         length (InteractiveMap.route_features names (rid, directions)) = 1%nat)
      /\ (~ (MERGE_THRESHOLD < jaccard)%Q ->
           length (InteractiveMap.route_features names (rid, directions))
           = length directions))
  /\ (forall names rid (directions : list (string * NetworkMap.geometry)) d0 d1,
        dict_get "0" directions = Some d0 ->
        dict_get "1" directions = Some d1 ->
        let jaccard := calculate_route_overlap (NetworkMap.stop_ids d0)
                                               (NetworkMap.stop_ids d1) in
        ((MERGE_THRESHOLD < jaccard)%Q ->
           length (NetworkMap.route_features names (rid, directions)) = 1%nat)
        /\ (~ (MERGE_THRESHOLD < jaccard)%Q ->
             length (NetworkMap.route_features names (rid, directions))
             = length directions)).
Proof.
  split; intros names rid directions d0 d1 H0 H1 jaccard.
  - rewrite interactive_route_features_length.
    unfold InteractiveMap.merged_feature. rewrite H0, H1. fold jaccard.
    destruct (Qlt_le_dec MERGE_THRESHOLD jaccard) as [Hlt|Hle].
    + split; [reflexivity|]. intros Hn. contradiction.
    + split; [|reflexivity]. intros Hlt. exfalso.
      apply (Qlt_not_le _ _ Hlt). exact Hle.
  - rewrite network_route_features_length.
    unfold NetworkMap.merged_feature. rewrite H0, H1. fold jaccard.
    destruct (Qlt_le_dec MERGE_THRESHOLD jaccard) as [Hlt|Hle].
    + split; [reflexivity|]. intros Hn. contradiction.
    + split; [|reflexivity]. intros Hlt. exfalso.
      apply (Qlt_not_le _ _ Hlt). exact Hle.
Qed.

Lemma merge_or_split_feature_count_witness :
  length (InteractiveMap.route_features [] ("10A", Samples.overlapping_directions)) = 1%nat
  /\ length (NetworkMap.route_features [] ("5K", Samples.disjoint_directions)) = 2%nat.
Proof.
  destruct merge_or_split_feature_count as [Hi Hn]. split.
  - refine (proj1 (Hi [] "10A" Samples.overlapping_directions _ _ eq_refl eq_refl) _).
    vm_compute. reflexivity.
  - refine (proj2 (Hn [] "5K" Samples.disjoint_directions _ _ eq_refl eq_refl) _).
    vm_compute. discriminate.
Defined.

(** Without both directions "0" and "1" nothing is merged: one feature
    per direction present. *)
Lemma single_direction_feature_count names rid
    (directions : list (string * InteractiveMap.geometry)) :
  dict_get "0" directions = None \/ dict_get "1" directions = None ->
  length (InteractiveMap.route_features names (rid, directions)) = length directions.
Proof.
  intros H. rewrite interactive_route_features_length.
  unfold InteractiveMap.merged_feature.
  destruct H as [-> | ->]; [reflexivity|].
  destruct (dict_get "0" directions); reflexivity.
Qed.

(** The features of the interactive map are those of the routes, one
    route after the other, reordered. *)
Lemma _create_geojson_features_perm geometries routes :
  InteractiveMap._create_geojson_features geometries routes
  ≡ₚ InteractiveMap.route_directions_of geometries
       ≫= InteractiveMap.route_features (route_names_of routes).
Proof. apply stable_sort_perm. Qed.

End MergeFacts.

(** ** The order of the features *)

Module OrderFacts.
Import Prim PrimFacts Feed Loader StopJoin.

Lemma string_leb_iff (a b : string) :
  String.leb a b = true <-> a = b \/ String_as_OT.lt a b.
Proof.
  unfold String.leb. destruct (String.compare a b) eqn:E.
  - apply String_as_OT.cmp_eq in E. tauto.
  - apply String_as_OT.cmp_lt in E. tauto.
  - split; [discriminate|]. intros [->|Hlt].
    + assert (String.compare b b = Eq) by (apply String_as_OT.cmp_eq; reflexivity).
      congruence.
    + apply String_as_OT.cmp_lt in Hlt. unfold String_as_OT.cmp in Hlt. congruence.
Qed.

Lemma string_leb_trans (a b c : string) :
  String.leb a b = true -> String.leb b c = true -> String.leb a c = true.
Proof.
  rewrite !string_leb_iff. intros [->|Hab] [->|Hbc]; auto.
  right. eapply String_as_OT.lt_trans; eassumption.
Qed.


(** The interactive map returns its features in ascending order of their
    search label, byte by byte. *)
Lemma _create_geojson_features_sorted geometries routes :
  StronglySorted
    (fun a b => String.leb (InteractiveMap.search_text a)
                           (InteractiveMap.search_text b) = true)
    (InteractiveMap._create_geojson_features geometries routes).
Proof.
  unfold InteractiveMap._create_geojson_features.
  apply (stable_sort_sorted InteractiveMap.by_search_text).
  - intros a b. apply String.leb_total.
  - intros a b c. apply string_leb_trans.
Qed.

(** C9. The network map returns its features in the order of its loop:
    on route "5K" with two disjoint directions the label "5K (Outbound)"
    comes before "5K (Inbound)", against the ascending order in which
    the interactive map returns the same two labels. *)
Theorem network_features_not_sorted :
  option_map (map NetworkMap.search_key)
    (NetworkMap._build_features Samples.split_stops Samples.split_stop_times
       Samples.split_trips Samples.split_routes)
  = Some ["5K (Outbound)"; "5K (Inbound)"]
  /\ String.leb "5K (Outbound)" "5K (Inbound)" = false
  /\ map InteractiveMap.search_text
       (InteractiveMap.generate_features Samples.split_stops
          Samples.split_stop_times Samples.split_trips Samples.split_routes)
     = ["5K (Inbound)"; "5K (Outbound)"].
Proof. repeat split; vm_compute; reflexivity. Qed.

End OrderFacts.

(** ** Geometries without coordinates *)

Module GeometryFacts.
Import Prim PrimFacts Feed Loader LoaderFacts StopJoin InteractiveMap.

Lemma merge_stops_trip stops tid sid seq g :
  g ∈ merge_stops stops tid sid seq -> g_trip_id g = tid.
Proof.
  unfold merge_stops. destruct sid as [s|].
  - destruct (filter _ stops) as [|sr matches].
    + intros ->%list_elem_of_singleton. reflexivity.
    + intros (sr' & -> & _)%list_elem_of_fmap. reflexivity.
  - intros ->%list_elem_of_singleton. reflexivity.
Qed.

Lemma merge_stops_not_nil stops tid sid seq : merge_stops stops tid sid seq <> [].
Proof.
  unfold merge_stops. destruct sid as [s|]; [|discriminate].
  destruct (filter _ stops); discriminate.
Qed.

Lemma trip_stops_of_elem st_geo tid g :
  g ∈ trip_stops_of st_geo tid <-> g ∈ st_geo /\ g_trip_id g = tid.
Proof.
  unfold trip_stops_of. rewrite elem_of_stable_sort, list_elem_of_filter. tauto.
Qed.

Lemma trip_stops_of_not_nil st_geo tid :
  trip_stops_of st_geo tid <> [] <-> exists g, g ∈ st_geo /\ g_trip_id g = tid.
Proof.
  split.
  - destruct (trip_stops_of st_geo tid) as [|g l] eqn:E; [congruence|].
    intros _. exists g. apply trip_stops_of_elem. rewrite E.
    apply elem_of_cons. left. reflexivity.
  - intros (g & Hg). apply trip_stops_of_elem in Hg.
    eapply elem_of_not_nil, Hg.
Qed.

(** The joined table has a row of a trip exactly when the trip is a
    representative trip with a stop visit. *)
Lemma st_geo_of_trip stops stop_times rep_trips tid :
  (exists g, g ∈ st_geo_of stops stop_times rep_trips /\ g_trip_id g = tid)
  <-> tid ∈ (rt_trip_id <$> rep_trips) /\ (0 < visit_count stop_times tid)%nat.
Proof.
  unfold st_geo_of. split.
  - intros (g & Hg & <-).
    apply list_elem_of_bind in Hg as (st & Hg & Hst).
    apply list_elem_of_filter in Hst as [Hin Hst].
    apply merge_stops_trip in Hg. rewrite Hg. split; [exact Hin|].
    apply visit_count_pos. apply list_elem_of_fmap_2. exact Hst.
  - intros [Hin Hpos].
    apply visit_count_pos, list_elem_of_fmap in Hpos as (st & -> & Hst).
    destruct (merge_stops stops (st_trip_id st) (st_stop_id st)
                (astype_int (default 0%Z (stop_sequence st)))) as [|g l] eqn:E.
    { exfalso. eapply merge_stops_not_nil, E. }
    assert (Hg : g ∈ merge_stops stops (st_trip_id st) (st_stop_id st)
                       (astype_int (default 0%Z (stop_sequence st)))).
    { rewrite E. apply elem_of_cons. left. reflexivity. }
    exists g. split; [|eapply merge_stops_trip, Hg].
    apply list_elem_of_bind. exists st. split; [exact Hg|].
    apply list_elem_of_filter. split; assumption.
Qed.

Lemma coords_of_unresolved trip_stops :
  Forall (fun g => g_stop_lat g = None \/ g_stop_lon g = None) trip_stops ->
  coords_of trip_stops = [].
Proof.
  unfold coords_of. induction 1 as [|g l Hg _ IH]; [reflexivity|]. csimpl.
  rewrite IH. destruct Hg as [Hg|Hg]; rewrite Hg; [|reflexivity].
  destruct (g_stop_lon g); reflexivity.
Qed.

Lemma stop_list_of_unresolved trip_stops :
  Forall (fun g => g_stop_lat g = None \/ g_stop_lon g = None) trip_stops ->
  stop_list_of trip_stops = [].
Proof.
  unfold stop_list_of. induction 1 as [|g l Hg _ IH]; [reflexivity|]. csimpl.
  rewrite IH. destruct Hg as [Hg|Hg]; rewrite Hg; [reflexivity|].
  destruct (g_stop_lat g); reflexivity.
Qed.

(** Visits without a coordinate leave nothing in the geometry. *)
Lemma geometry_of_unresolved trip_stops :
  Forall (fun g => g_stop_lat g = None \/ g_stop_lon g = None) trip_stops ->
  coords (geometry_of trip_stops) = []
  /\ stop_list (geometry_of trip_stops) = []
  /\ count (geometry_of trip_stops) = 0%nat.
Proof.
  intros Hall. unfold geometry_of. simpl.
  rewrite (coords_of_unresolved _ Hall), (stop_list_of_unresolved _ Hall). auto.
Qed.

Lemma add_geometry_get st_geo acc r k :
  dict_get k (add_geometry st_geo acc r)
  = if decide (k = route_direction r /\ trip_stops_of st_geo (rt_trip_id r) <> [])
    then Some (geometry_of (trip_stops_of st_geo (rt_trip_id r)))
    else dict_get k acc.
Proof.
  unfold add_geometry, route_direction.
  destruct (trip_stops_of st_geo (rt_trip_id r)) as [|g l] eqn:E.
  - rewrite decide_False; [reflexivity|]. intros [_ H]. congruence.
  - rewrite dict_get_set.
    destruct (decide (k = (rt_route_id r, rt_direction_id r))) as [->|Hne].
    + rewrite decide_True; [reflexivity|]. split; [reflexivity|discriminate].
    + rewrite decide_False; [reflexivity|]. intros [H _]. contradiction.
Qed.

(** Rows that are skipped, or that have another key, leave a key alone. *)
Lemma foldl_add_geometry_skip st_geo rows acc k :
  (forall r, r ∈ rows -> route_direction r = k ->
             trip_stops_of st_geo (rt_trip_id r) = []) ->
  dict_get k (foldl (add_geometry st_geo) acc rows) = dict_get k acc.
Proof.
  revert acc. induction rows as [|r rows IH]; intros acc Hskip; [reflexivity|].
  simpl. rewrite IH.
  - rewrite add_geometry_get. rewrite decide_False; [reflexivity|].
    intros [-> Hne]. apply Hne. apply Hskip; [|reflexivity].
    apply elem_of_cons. left. reflexivity.
  - intros r' Hr'. apply Hskip. apply elem_of_cons. right. exact Hr'.
Qed.

Lemma foldl_add_geometry_get st_geo rows acc row :
  NoDup (route_direction <$> rows) ->
  row ∈ rows ->
  trip_stops_of st_geo (rt_trip_id row) <> [] ->
  dict_get (route_direction row) (foldl (add_geometry st_geo) acc rows)
  = Some (geometry_of (trip_stops_of st_geo (rt_trip_id row))).
Proof.
  revert acc. induction rows as [|r rows IH]; intros acc Hnd Hin Hne.
  - apply elem_of_nil in Hin. contradiction.
  - rewrite fmap_cons in Hnd. apply NoDup_cons in Hnd as [Hfresh Hnd].
    simpl. apply elem_of_cons in Hin as [->|Hin].
    + rewrite foldl_add_geometry_skip.
      * rewrite add_geometry_get, decide_True; [reflexivity|]. split; [reflexivity|exact Hne].
      * intros r' Hr' Hk. exfalso. apply Hfresh. rewrite <- Hk.
        apply list_elem_of_fmap_2. exact Hr'.
    + apply IH; assumption.
Qed.

Lemma route_directions_of_snoc geometries rid dir data :
  route_directions_of (geometries ++ [((rid, dir), data)])
  = dict_set rid
      (dict_set dir data
         (default [] (dict_get rid (route_directions_of geometries))))
      (route_directions_of geometries).
Proof. unfold route_directions_of. rewrite foldl_snoc. reflexivity. Qed.

(** A route has an entry in [route_directions] exactly when a geometry
    is stored for one of its directions, and the entry is not empty. *)
Lemma route_directions_of_get geometries rid :
  match dict_get rid (route_directions_of geometries) with
  | Some directions =>
      directions <> [] /\ exists dir data, ((rid, dir), data) ∈ geometries
  | None => forall dir data, ((rid, dir), data) ∉ geometries
  end.
Proof.
  induction geometries as [|[[rid' dir'] data'] geometries IH] using rev_ind.
  - simpl. intros dir data. apply not_elem_of_nil.
  - rewrite route_directions_of_snoc, dict_get_set.
    destruct (decide (rid = rid')) as [<-|Hne].
    + split; [apply dict_set_not_nil|]. exists dir', data'.
      apply elem_of_app. right. apply elem_of_cons. left. reflexivity.
    + destruct (dict_get rid (route_directions_of geometries)) as [directions|].
      * destruct IH as [Hnn (dir & data & Hin)]. split; [exact Hnn|].
        exists dir, data. apply elem_of_app. left. exact Hin.
      * intros dir data. rewrite elem_of_app, elem_of_cons, elem_of_nil.
        intros [Hin|[[= ? ? ?]|[]]]; [|congruence]. exact (IH dir data Hin).
Qed.

Lemma route_features_not_nil names rid (directions : list (string * geometry)) :
  directions <> [] -> route_features names (rid, directions) <> [].
Proof.
  intros Hnn. unfold route_features.
  destruct (merged_feature _ _ _); [discriminate|].
  destruct directions; [contradiction|discriminate].
Qed.

(** The test [if trip_stops.empty: continue] reads the joined rows
    before [dropna]. A representative trip with stop visits, all without
    a parseable coordinate, passes it: its geometry, with no coordinate,
    no stop detail and the count 0, is stored, and the route emits its
    features, every one of which reaches the result. Only a route whose
    representative trips have no stop visit at all gets no turn of the
    feature loop. *)
Lemma unresolved_geometry_kept
    (stops : list stop_row) (stop_times : list stop_time_row)
    (rep_trips : list rep_trip_row) (routes : list route_row) :
  let st_geo := st_geo_of stops stop_times rep_trips in
  let geometries := _build_route_geometries stops stop_times rep_trips in
  (forall row,
      NoDup (route_direction <$> rep_trips) ->
      row ∈ rep_trips ->
      (0 < visit_count stop_times (rt_trip_id row))%nat ->
      Forall (fun g => g_stop_lat g = None \/ g_stop_lon g = None)
             (trip_stops_of st_geo (rt_trip_id row)) ->
      (exists g, dict_get (route_direction row) geometries = Some g
                 /\ coords g = [] /\ stop_list g = [] /\ count g = 0%nat)
      /\ exists directions,
           dict_get (rt_route_id row) (route_directions_of geometries)
           = Some directions
           /\ route_features (route_names_of routes) (rt_route_id row, directions) <> []
           /\ forall f,
                f ∈ route_features (route_names_of routes) (rt_route_id row, directions) ->
                f ∈ _create_geojson_features geometries routes)
  /\ (forall rid,
        (forall row, row ∈ rep_trips -> rt_route_id row = rid ->
                     visit_count stop_times (rt_trip_id row) = 0%nat) ->
        dict_get rid (route_directions_of geometries) = None).
Proof.
  intros st_geo geometries. split.
  - intros row Hnd Hrow Hpos Hall.
    assert (Hne : trip_stops_of st_geo (rt_trip_id row) <> []).
    { apply trip_stops_of_not_nil, st_geo_of_trip. split; [|exact Hpos].
      apply list_elem_of_fmap_2. exact Hrow. }
    assert (Hget : dict_get (route_direction row) geometries
                   = Some (geometry_of (trip_stops_of st_geo (rt_trip_id row)))).
    { apply foldl_add_geometry_get; assumption. }
    split.
    { eexists. split; [exact Hget|]. apply geometry_of_unresolved, Hall. }
    pose proof (route_directions_of_get geometries (rt_route_id row)) as Hrd.
    destruct (dict_get (rt_route_id row) (route_directions_of geometries))
      as [directions|] eqn:E.
    + destruct Hrd as [Hnn _]. exists directions. split; [reflexivity|].
      split; [apply route_features_not_nil, Hnn|].
      intros f Hf. unfold _create_geojson_features.
      apply elem_of_stable_sort, list_elem_of_bind.
      exists (rt_route_id row, directions). split; [exact Hf|].
      apply dict_get_Some_elem, E.
    + exfalso. apply dict_get_Some_elem in Hget.
      exact (Hrd _ _ Hget).
  - intros rid Hnone.
    pose proof (route_directions_of_get geometries rid) as Hrd.
    destruct (dict_get rid (route_directions_of geometries)) as [directions|];
      [|reflexivity].
    exfalso. destruct Hrd as [_ (dir & data & Hin)].
    assert (Hget : dict_get (rid, dir) geometries = None).
    { unfold geometries, _build_route_geometries.
      rewrite foldl_add_geometry_skip; [reflexivity|].
      intros r Hr Hk.
      destruct (trip_stops_of (st_geo_of stops stop_times rep_trips) (rt_trip_id r))
        as [|g l] eqn:E; [reflexivity|]. exfalso.
      assert (Hne : trip_stops_of (st_geo_of stops stop_times rep_trips)
                      (rt_trip_id r) <> []) by (rewrite E; discriminate).
      apply trip_stops_of_not_nil, st_geo_of_trip in Hne as [_ Hpos].
      rewrite (Hnone r Hr) in Hpos; [lia|].
      unfold route_direction in Hk. congruence. }
    rewrite dict_get_None in Hget. exact (Hget data Hin).
Qed.

(** C8. On route "9X" the one representative trip has two stop visits,
    none with a parseable coordinate. The joined rows of the trip are not
    empty, so that the test [if trip_stops.empty: continue] lets the trip
    through, and their coordinate list is empty. The route is not
    left out: the interactive map emits the feature "9X_0" with the stop
    count 0, no stop marker and an empty coordinate list, and the
    network map emits the same route with an empty coordinate list. *)
Theorem unresolved_route_emits_feature :
  let rep_trips :=
    get_representative_trips Samples.unresolved_trips Samples.unresolved_stop_times in
  let st_geo :=
    st_geo_of Samples.unresolved_stops Samples.unresolved_stop_times rep_trips in
  let features :=
    generate_features Samples.unresolved_stops Samples.unresolved_stop_times
      Samples.unresolved_trips [] in
  map rt_trip_id rep_trips = ["t"]
  /\ Forall (fun g => g_stop_lat g = None \/ g_stop_lon g = None) st_geo
  /\ length (trip_stops_of st_geo "t") = 2%nat
  /\ coords_of (trip_stops_of st_geo "t") = []
  /\ map (fun f => (id f, stops_count f, f_stop_list f, coordinates f)) features
     = [("9X_0", 0%nat, [], [])]
  /\ option_map
       (map (fun f => (NetworkMap.search_key f, NetworkMap.stops f,
                       NetworkMap.coordinates f)))
       (NetworkMap._build_features Samples.unresolved_stops
          Samples.unresolved_stop_times Samples.unresolved_trips [])
     = Some [("9X (Outbound)", 0%nat, [])].
Proof.
  intros rep_trips st_geo features.
  split; [|split; [|split; [|split; [|split]]]]; try (vm_compute; reflexivity).
  vm_compute.
  repeat (apply List.Forall_cons; [first [left; reflexivity | right; reflexivity]|]).
  apply List.Forall_nil.
Qed.

End GeometryFacts.

(** ** Travel times of the trip planner *)

Module TravelTimeFacts.
Import Prim PrimFacts Feed Loader TripPlanner.

Lemma segment_minutes_range dep_here arr_next :
  (1 <= segment_minutes dep_here arr_next <= 30)%Z.
Proof.
  unfold segment_minutes.
  destruct (time_to_minutes dep_here) as [t1|]; [|lia].
  destruct (time_to_minutes arr_next) as [t2|]; [|lia].
  destruct (t2 - t1 <? 0)%Z; lia.
Qed.

Lemma durations_of_lookup times i here next :
  times !! i = Some here -> times !! S i = Some next ->
  durations_of times !! i = Some (segment_minutes (dep here) (arr next)).
Proof.
  revert i. induction times as [|a times IH]; intros i Hi Hn; [discriminate|].
  destruct times as [|b times]; [discriminate|].
  destruct i as [|i].
  - simpl in *. congruence.
  - change (durations_of (b :: times) !! i
            = Some (segment_minutes (dep here) (arr next))).
    apply IH; assumption.
Qed.

Lemma durations_of_range times :
  Forall (fun d => (1 <= d <= 30)%Z) (durations_of times).
Proof.
  induction times as [|a times IH]; [constructor|].
  destruct times as [|b times]; [constructor|].
  change (Forall (fun d => (1 <= d <= 30)%Z)
            (segment_minutes (dep a) (arr b) :: durations_of (b :: times))).
  constructor; [apply segment_minutes_range|exact IH].
Qed.

(** C4. Every travel time stored for a route lies between 1 and 30
    minutes; the value stored for a segment is computed from the
    departure at its first stop and the arrival at its second stop, and it
    is exactly 3 when one of the two times cannot be parsed or when the
    gap is negative. *)
Theorem travel_time_clamp :
  (forall trips stop_times route_travel_times rid durations d,
      route_travel_times_of trips stop_times = Some route_travel_times ->
      (rid, durations) ∈ route_travel_times -> d ∈ durations ->
      (1 <= d <= 30)%Z)
  /\ (forall times i here next,
        times !! i = Some here -> times !! S i = Some next ->
        durations_of times !! i = Some (segment_minutes (dep here) (arr next)))
  /\ (forall dep_here arr_next,
        time_to_minutes dep_here = None \/ time_to_minutes arr_next = None ->
        segment_minutes dep_here arr_next = 3%Z)
  /\ (forall dep_here arr_next t1 t2,
        time_to_minutes dep_here = Some t1 ->
        time_to_minutes arr_next = Some t2 ->
        (t2 - t1 < 0)%Z ->
        segment_minutes dep_here arr_next = 3%Z).
Proof.
  split; [|split; [|split]].
  - intros trips stop_times rtt rid durations d Hrtt Hin Hd.
    unfold route_travel_times_of in Hrtt.
    destruct (route_stop_times_of trips stop_times) as [rst|]; [|discriminate].
    injection Hrtt as <-.
    apply list_elem_of_fmap in Hin as ([rid' times] & [= -> ->] & _). simpl in Hd.
    pose proof (durations_of_range times) as Hall.
    rewrite Forall_forall in Hall. exact (Hall d Hd).
  - exact durations_of_lookup.
  - intros dep_here arr_next [H|H]; unfold segment_minutes; rewrite H;
      [reflexivity|]. destruct (time_to_minutes dep_here); reflexivity.
  - intros dep_here arr_next t1 t2 H1 H2 Hneg. unfold segment_minutes.
    rewrite H1, H2. apply Z.ltb_lt in Hneg. rewrite Hneg. reflexivity.
Qed.

Lemma travel_time_clamp_witness :
  segment_minutes (Some "10:05:00") (Some "09:55:00") = 3%Z
  /\ segment_minutes (Some "10:05:00") (Some "soon") = 3%Z
  /\ segment_minutes None (Some "09:55:00") = 3%Z.
Proof.
  destruct travel_time_clamp as (_ & _ & Hbad & Hneg). split; [|split].
  - apply (Hneg (Some "10:05:00") (Some "09:55:00") 605%Z 595%Z);
      [reflexivity|reflexivity|lia].
  - apply Hbad. right. reflexivity.
  - apply Hbad. left. reflexivity.
Defined.

Lemma split_not_nil (t : string) : split t <> [].
Proof.
  destruct t as [|c t]; simpl; [discriminate|].
  destruct (Ascii.eqb c ":"); [discriminate|]. destruct (split t); discriminate.
Qed.

Lemma split_whole_app (part rest : string) :
  split part = [part] ->
  split (part ++ String ":" rest)%string = part :: split rest.
Proof.
  induction part as [|c part IH]; simpl; [reflexivity|].
  destruct (Ascii.eqb c ":") eqn:E; [discriminate|].
  destruct (split part) as [|p ps] eqn:Ep.
  - exfalso. eapply split_not_nil, Ep.
  - intros [= -> ->]. rewrite IH by reflexivity. reflexivity.
Qed.

(** C10. Only the hours and the minutes of a clock time are read: for
    hours and minutes written without a colon, what follows the second
    colon does not change the result, which is [60 * hours + minutes]. A
    gap of 30 seconds inside one minute is computed as 0 minutes and
    stored as 1. *)
Theorem time_to_minutes_ignores_seconds :
  (forall hours minutes seconds,
      split hours = [hours] -> split minutes = [minutes] ->
      time_to_minutes (Some (hours ++ ":" ++ minutes ++ ":" ++ seconds)%string)
      = (h ← int hours; m ← int minutes; Some (h * 60 + m)%Z))
  /\ time_to_minutes (Some "10:00:30") = time_to_minutes (Some "10:00:00")
  /\ segment_minutes (Some "10:00:00") (Some "10:00:30") = 1%Z.
Proof.
  split; [|split; reflexivity].
  intros hours minutes seconds Hh Hm. unfold time_to_minutes.
  change (hours ++ ":" ++ minutes ++ ":" ++ seconds)%string
    with (hours ++ String ":" (minutes ++ String ":" seconds))%string.
  rewrite (split_whole_app hours _ Hh), (split_whole_app minutes _ Hm).
  reflexivity.
Qed.

Lemma time_to_minutes_ignores_seconds_witness :
  time_to_minutes (Some ("23" ++ ":" ++ "59" ++ ":" ++ "58")%string) = Some 1439%Z.
Proof.
  rewrite (proj1 time_to_minutes_ignores_seconds "23" "59" "58");
    reflexivity.
Defined.

End TravelTimeFacts.

(** ** The representative trip of the trip planner *)

Module SelectionFacts.
Import Prim PrimFacts Feed Loader LoaderFacts TripPlanner Spec.

Section KeepLonger.
Variable trip_to_route : list (string * string).



End KeepLonger.















(** A row that is alone with its route and direction is selected in
    whatever order the rows are sorted. *)
Lemma selected_when_alone (l : list rep_trip_row) (e : rep_trip_row) :
  e ∈ l ->
  (forall x, x ∈ l -> route_direction x = route_direction e -> x = e) ->
  e ∈ drop_duplicates route_direction l.
Proof.
  intros He Halone. unfold drop_duplicates.
  destruct (drop_duplicates_from_covers route_direction [] l e He)
    as (r & Hr & Hkey); [apply not_elem_of_nil|].
  rewrite <- (Halone r); [exact Hr| |exact Hkey].
  eapply drop_duplicates_from_elem, Hr.
Qed.

(** On the feed in which the trip id "T" is listed under "R1" and "R2",
    the trip is selected for "R1" in whatever order the two rows of the
    joined table are sorted. *)
Lemma shared_trip_selected_in_any_order (sorted : list rep_trip_row) :
  sorted ≡ₚ trips_enriched Samples.shared_trips Samples.shared_stop_times ->
  {| rt_trip_id := "T"; rt_route_id := "R1"; rt_direction_id := "0";
     stop_count := 2 |} ∈ drop_duplicates route_direction sorted.
Proof.
  intros Hperm. apply selected_when_alone.
  - rewrite Hperm. vm_compute. apply elem_of_cons. left. reflexivity.
  - intros x Hx Hkey. rewrite Hperm in Hx. vm_compute in Hx.
    apply elem_of_cons in Hx as [->|Hx]; [reflexivity|].
    apply elem_of_cons in Hx as [->|Hx]; [discriminate|].
    apply elem_of_nil in Hx. contradiction.
Qed.


End SelectionFacts.

(** ** The direct itineraries *)

Module DirectFacts.
Import Prim PrimFacts Raptor Spec.

Section Scan.
Variables originStops destStops : gset string.

Lemma scan_from_snoc st i stops sid :
  scan_from originStops destStops st i (stops ++ [sid])
  = scan_step originStops destStops
      (scan_from originStops destStops st i stops)
      (i + Z.of_nat (length stops)) sid.
Proof.
  revert st i. induction stops as [|s stops IH]; intros st i; simpl.
  - rewrite Z.add_0_r. reflexivity.
  - rewrite IH. f_equal. lia.
Qed.

(** What the two tests of the loop body do to the four variables. *)
Lemma scan_step_result stops st sid :
  scan_result originStops destStops stops st ->
  scan_result originStops destStops (stops ++ [sid])
    (scan_step originStops destStops st (Z.of_nat (length stops)) sid).
Proof.
  intros [(Ho & Hd & Hnone)|(o & so & Ho & Hso & Hlo & Hino & Hfirst & Hdest)];
    unfold scan_step.
  - rewrite Ho, Z.eqb_refl, andb_true_r.
    destruct (bool_decide (sid ∈ originStops)) eqn:Eo; simpl.
    + apply bool_decide_eq_true in Eo.
      rewrite (proj2 (Z.ltb_ge _ _)) by lia. rewrite andb_false_r. simpl.
      right. exists (length stops), sid. simpl.
      split; [reflexivity|]. split; [reflexivity|].
      split; [apply list_lookup_middle; reflexivity|]. split; [exact Eo|].
      split.
      * intros j s Hj Hs. rewrite lookup_app_l in Hs by exact Hj.
        exact (Hnone j s Hs).
      * left. split; [exact Hd|]. intros j s Hj Hs.
        apply lookup_lt_Some in Hs. rewrite length_app in Hs. simpl in Hs. lia.
    + apply bool_decide_eq_false in Eo. rewrite Ho. simpl.
      rewrite andb_false_r. left. split; [exact Ho|]. split; [exact Hd|].
      intros j s Hs. apply lookup_snoc_Some in Hs as [[_ Hs]|[_ <-]];
        [exact (Hnone j s Hs)|exact Eo].
  - assert (Hlt : (o < length stops)%nat) by (eapply lookup_lt_Some, Hlo).
    rewrite Ho. rewrite (proj2 (Z.eqb_neq _ _)) by lia.
    rewrite andb_false_r. rewrite Ho.
    rewrite (proj2 (Z.ltb_lt _ _)) by lia.
    rewrite (proj2 (Z.leb_le _ _)) by lia. rewrite !andb_true_r.
    assert (Hfirst' : forall j s, (j < o)%nat ->
              (stops ++ [sid]) !! j = Some s -> s ∉ originStops).
    { intros j s Hj Hs. rewrite lookup_app_l in Hs by lia.
      exact (Hfirst j s Hj Hs). }
    assert (Hlo' : (stops ++ [sid]) !! o = Some so).
    { rewrite lookup_app_l by exact Hlt. exact Hlo. }
    destruct (bool_decide (sid ∈ destStops)) eqn:Ed.
    + apply bool_decide_eq_true in Ed. right. exists o, so. simpl.
      split; [reflexivity|]. split; [exact Hso|]. split; [exact Hlo'|].
      split; [exact Hino|]. split; [exact Hfirst'|].
      right. exists (length stops), sid.
      split; [reflexivity|]. split; [reflexivity|]. split; [exact Hlt|].
      split; [apply list_lookup_middle; reflexivity|]. split; [exact Ed|].
      intros j s Hj Hs.
      apply lookup_lt_Some in Hs. rewrite length_app in Hs. simpl in Hs. lia.
    + apply bool_decide_eq_false in Ed. right. exists o, so.
      split; [exact Ho|]. split; [exact Hso|]. split; [exact Hlo'|].
      split; [exact Hino|]. split; [exact Hfirst'|].
      destruct Hdest as [(Hd & Hnone)|(d & sd & Hd & Hsd & Hod & Hld & Hind & Hlast)].
      * left. split; [exact Hd|]. intros j s Hj Hs.
        apply lookup_snoc_Some in Hs as [[_ Hs]|[_ <-]];
          [exact (Hnone j s Hj Hs)|exact Ed].
      * right. exists d, sd.
        split; [exact Hd|]. split; [exact Hsd|]. split; [exact Hod|].
        split; [rewrite lookup_app_l; [exact Hld|eapply lookup_lt_Some, Hld]|].
        split; [exact Hind|]. intros j s Hj Hs.
        apply lookup_snoc_Some in Hs as [[_ Hs]|[_ <-]];
          [exact (Hlast j s Hj Hs)|exact Ed].
Qed.

(** The scan of a whole route. *)
Lemma scan_from_result stops :
  scan_result originStops destStops stops
    (scan_from originStops destStops scan_init 0 stops).
Proof.
  induction stops as [|sid stops IH] using rev_ind.
  - left. split; [reflexivity|]. split; [reflexivity|].
    intros j s Hs. discriminate.
  - rewrite scan_from_snoc, Z.add_0_l. apply scan_step_result, IH.
Qed.
End Scan.

Lemma leg_duration_sum (travelTimes : list Z) (n a : nat) (acc : Z) :
  (a + n <= length travelTimes)%nat ->
  Forall (fun d => (1 <= d <= 30)%Z) travelTimes ->
  foldl (fun duration i => (duration + or_3 (travelTimes !! Z.to_nat i))%Z)
        acc (seqZ (Z.of_nat a) (Z.of_nat n))
  = (acc + foldr Z.add 0 (take n (drop a travelTimes)))%Z.
Proof.
  intros Hlen Hall. revert a acc Hlen.
  induction n as [|n IH]; intros a acc Hlen.
  - simpl. lia.
  - rewrite seqZ_cons by lia. simpl foldl.
    replace (Z.succ (Z.of_nat a)) with (Z.of_nat (S a)) by lia.
    replace (Z.pred (Z.of_nat (S n))) with (Z.of_nat n) by lia.
    rewrite IH by lia. rewrite Nat2Z.id.
    destruct (lookup_lt_is_Some_2 travelTimes a) as [v Hv]; [lia|].
    rewrite Hv. rewrite (drop_S _ _ _ Hv). simpl.
    rewrite Forall_forall in Hall.
    assert (Hrange : (1 <= v <= 30)%Z).
    { apply Hall. eapply list_elem_of_lookup_2, Hv. }
    rewrite (proj2 (Z.eqb_neq v 0)) by lia. lia.
Qed.

(** C2, as the code has it. The itinerary recorded for a route runs from
    the index of the first stop of the route at the origin place to the
    index of the last stop at the destination place after it; with the
    travel times of the index construction (one per segment, between 1
    and 30) its duration is the sum of the travel times between the two
    indices. *)
Theorem direct_itinerary_segment
    (DATA : data) (originStops destStops : gset string) (route : string)
    (stops : list string) (travelTimes : list Z) (it : itinerary) :
  routeStops DATA !! route = Some stops ->
  routeTravelTimes DATA !! route = Some travelTimes ->
  length travelTimes = (length stops - 1)%nat ->
  Forall (fun d => (1 <= d <= 30)%Z) travelTimes ->
  direct_itinerary DATA originStops destStops route = Some (Some it) ->
  exists o d so sd,
    segments it = [ {| routeId := route; startIdx := Z.of_nat o;
                       endIdx := Z.of_nat d |} ]
    /\ (o < d)%nat
    /\ stops !! o = Some so /\ so ∈ originStops
    /\ (forall j s, (j < o)%nat -> stops !! j = Some s -> s ∉ originStops)
    /\ stops !! d = Some sd /\ sd ∈ destStops
    /\ (forall j s, (d < j)%nat -> stops !! j = Some s -> s ∉ destStops)
    /\ duration it = foldr Z.add 0%Z (take (d - o) (drop o travelTimes))
    /\ transfers it = 0%Z
    /\ originStopId it = Some so /\ destStopId it = Some sd.
Proof.
  intros Hstops Htimes Hlen Hall. unfold direct_itinerary.
  rewrite Hstops, Htimes. simpl.
  pose proof (scan_from_result originStops destStops stops) as Hscan.
  set (st := scan_from originStops destStops scan_init 0 stops) in *.
  destruct ((0 <=? originIdx st)%Z && (originIdx st <? destIdx st)%Z) eqn:E;
    [|discriminate].
  apply andb_true_iff in E as [E1 E2].
  apply Z.leb_le in E1. apply Z.ltb_lt in E2.
  intros [= <-]. simpl.
  destruct Hscan as [(Ho & _)|(o & so & Ho & Hso & Hlo & Hino & Hfirst & Hdest)];
    [lia|].
  destruct Hdest as [(Hd & _)|(d & sd & Hd & Hsd & Hod & Hld & Hind & Hlast)];
    [lia|].
  exists o, d, so, sd. rewrite Ho, Hd.
  split; [reflexivity|]. split; [exact Hod|].
  split; [exact Hlo|]. split; [exact Hino|]. split; [exact Hfirst|].
  split; [exact Hld|]. split; [exact Hind|]. split; [exact Hlast|].
  split; [|split; [reflexivity|split; assumption]].
  unfold leg_duration.
  replace (Z.of_nat d - Z.of_nat o)%Z with (Z.of_nat (d - o)) by lia.
  rewrite leg_duration_sum; [lia| |exact Hall].
  apply lookup_lt_Some in Hld. lia.
Qed.

Lemma direct_itinerary_segment_witness :
  exists it,
    direct_itinerary Samples.loop_data {["o"]} {["d1"; "d2"]} "12" = Some (Some it)
    /\ exists (o d : nat) (sd : string),
        segments it = [ {| routeId := "12"; startIdx := Z.of_nat o;
                           endIdx := Z.of_nat d |} ]
        /\ (o < d)%nat
        /\ ["o"; "d1"; "d2"] !! d = Some sd
        /\ duration it = foldr Z.add 0%Z (take (d - o) (drop o [4; 7]%Z)).
Proof.
  eexists. split; [vm_compute; reflexivity|].
  destruct (direct_itinerary_segment Samples.loop_data {["o"]} {["d1"; "d2"]}
              "12" ["o"; "d1"; "d2"] [4; 7]%Z _ eq_refl eq_refl eq_refl
              ltac:(repeat (apply List.Forall_cons; [lia|]); apply List.Forall_nil)
              eq_refl)
    as (o & d & so & sd & Hseg & Hod & _ & _ & _ & Hld & _ & _ & Hdur & _).
  exists o, d, sd. split; [exact Hseg|]. split; [exact Hod|].
  split; [exact Hld|exact Hdur].
Defined.

(** A route with a stop at the origin followed by a stop at the
    destination always gets its itinerary. *)
Lemma direct_itinerary_found
    (DATA : data) (originStops destStops : gset string) (route : string)
    (stops : list string) (o d : nat) (so sd : string) :
  routeStops DATA !! route = Some stops ->
  stops !! o = Some so -> so ∈ originStops ->
  stops !! d = Some sd -> sd ∈ destStops -> (o < d)%nat ->
  exists it, direct_itinerary DATA originStops destStops route = Some (Some it).
Proof.
  intros Hstops Hlo Hino Hld Hind Hod. unfold direct_itinerary.
  rewrite Hstops. simpl.
  pose proof (scan_from_result originStops destStops stops) as Hscan.
  set (st := scan_from originStops destStops scan_init 0 stops) in *.
  destruct Hscan as [(_ & _ & Hnone)|(o' & so' & Ho & _ & _ & _ & Hfirst & Hdest)].
  { exfalso. exact (Hnone o so Hlo Hino). }
  assert (Hle : (o' <= o)%nat).
  { destruct (decide (o' <= o)%nat) as [|Hgt]; [assumption|exfalso].
    apply (Hfirst o so); [lia|exact Hlo|exact Hino]. }
  destruct Hdest as [(_ & Hnone)|(d' & sd' & Hd & _ & Hod' & _)].
  { exfalso. apply (Hnone d sd); [lia|exact Hld|exact Hind]. }
  rewrite Ho, Hd.
  rewrite (proj2 (Z.leb_le _ _)) by lia. rewrite (proj2 (Z.ltb_lt _ _)) by lia.
  simpl. eexists. reflexivity.
Qed.

(** On route "12" the stop "d1" of the destination place is the first
    one after the origin stop at index 0, and the itinerary recorded goes
    to index 2, over both segments. *)
Lemma direct_itinerary_to_last_destination :
  option_map (map (fun it => (segments it, duration it, destStopId it)))
    (findRoutesRaptor Samples.loop_data "X" "Y")
  = Some [ ([ {| routeId := "12"; startIdx := 0; endIdx := 2 |} ],
            11%Z, Some "d2") ]
  /\ Raptor.locationStops Samples.loop_data !! "Y" = Some ["d1"; "d2"]
  /\ Raptor.routeStops Samples.loop_data !! "12" = Some ["o"; "d1"; "d2"]
  /\ Raptor.routeTravelTimes Samples.loop_data !! "12" = Some [4; 7]%Z.
Proof. repeat split; vm_compute; reflexivity. Qed.

End DirectFacts.

(** ** The ranking of the itineraries *)

Module RankingFacts.
Import Prim PrimFacts Raptor.

Lemma by_duration_spec a b :
  by_duration a b = true
  <-> (duration a < duration b
       \/ (duration a = duration b /\ transfers a <= transfers b))%Z.
Proof.
  unfold by_duration, compare_itineraries. rewrite Z.leb_le.
  destruct (Z.eqb_spec (duration a - duration b) 0); lia.
Qed.

Lemma by_duration_total a b : by_duration a b = true \/ by_duration b a = true.
Proof. rewrite !by_duration_spec. lia. Qed.

Lemma by_duration_trans a b c :
  by_duration a b = true -> by_duration b c = true -> by_duration a c = true.
Proof. rewrite !by_duration_spec. lia. Qed.

Lemma StronglySorted_sublist {A} (R : A -> A -> Prop) (l1 l2 : list A) :
  l1 `sublist_of` l2 -> StronglySorted R l2 -> StronglySorted R l1.
Proof.
  induction 1 as [|x l1 l2 Hsub IH|x l1 l2 Hsub IH]; intros Hs.
  - constructor.
  - apply StronglySorted_inv in Hs as [Hs Hall]. constructor; [apply IH, Hs|].
    rewrite Forall_forall in *. intros y Hy. apply Hall.
    eapply elem_of_sublist; eassumption.
  - apply StronglySorted_inv in Hs as [Hs _]. apply IH, Hs.
Qed.

Lemma dedupe_sublist seen n results :
  dedupe seen n results `sublist_of` results.
Proof.
  revert seen n. induction results as [|r results IH]; intros seen n; cbn [dedupe].
  - constructor.
  - destruct (bool_decide (route_key r ∈ seen)); [apply sublist_cons, IH|].
    destruct (5 <=? S n)%nat.
    + apply sublist_skip, sublist_nil_l.
    + apply sublist_skip, IH.
Qed.

Lemma dedupe_length seen n results :
  (n < 5)%nat -> (length (dedupe seen n results) + n <= 5)%nat.
Proof.
  revert seen n. induction results as [|r results IH]; intros seen n Hn; cbn [dedupe].
  - simpl. lia.
  - destruct (bool_decide (route_key r ∈ seen)); [apply IH, Hn|].
    destruct (Nat.leb_spec 5 (S n)) as [Hfull|Hroom]; simpl; [lia|].
    specialize (IH ({[route_key r]} ∪ seen) (S n) Hroom). lia.
Qed.

Lemma dedupe_first seen n results r :
  r ∈ dedupe seen n results ->
  exists l1 l2, results = l1 ++ r :: l2
    /\ (route_key r ∉ seen) /\ (route_key r ∉ (route_key <$> l1)).
Proof.
  revert seen n. induction results as [|x results IH]; intros seen n; cbn [dedupe].
  - intros Hin. apply elem_of_nil in Hin. contradiction.
  - destruct (bool_decide (route_key x ∈ seen)) eqn:E.
    + apply bool_decide_eq_true in E. intros Hin.
      destruct (IH _ _ Hin) as (l1 & l2 & -> & Hs & Hl1).
      exists (x :: l1), l2. split; [reflexivity|]. split; [exact Hs|].
      rewrite fmap_cons, elem_of_cons. intros [Heq|Hin']; [|contradiction].
      rewrite Heq in Hs. contradiction.
    + apply bool_decide_eq_false in E.
      assert (Hhere : exists l1 l2, x :: results = l1 ++ x :: l2
                /\ (route_key x ∉ seen) /\ (route_key x ∉ (route_key <$> l1))).
      { exists [], results. split; [reflexivity|]. split; [exact E|].
        apply not_elem_of_nil. }
      destruct (5 <=? S n)%nat.
      * intros ->%list_elem_of_singleton. exact Hhere.
      * intros [->|Hin]%elem_of_cons; [exact Hhere|].
        destruct (IH _ _ Hin) as (l1 & l2 & -> & Hs & Hl1).
        exists (x :: l1), l2. split; [reflexivity|].
        rewrite elem_of_union, elem_of_singleton in Hs. split; [tauto|].
        rewrite fmap_cons, elem_of_cons. tauto.
Qed.

Lemma dedupe_NoDup seen n results :
  NoDup (route_key <$> dedupe seen n results).
Proof.
  revert seen n. induction results as [|x results IH]; intros seen n; cbn [dedupe].
  - constructor.
  - destruct (bool_decide (route_key x ∈ seen)); [apply IH|].
    destruct (5 <=? S n)%nat.
    + apply NoDup_singleton.
    + rewrite fmap_cons. apply NoDup_cons. split; [|apply IH].
      intros Hin. apply list_elem_of_fmap in Hin as (r & Hk & Hr).
      apply dedupe_first in Hr as (_ & _ & _ & Hs & _).
      apply Hs. rewrite <- Hk. apply elem_of_union. left.
      apply elem_of_singleton. reflexivity.
Qed.

(** Below five entries the loop has not stopped early: every key met is
    in [seen] or in the result. *)
Lemma dedupe_complete seen n results r :
  (length (dedupe seen n results) + n < 5)%nat ->
  r ∈ results ->
  route_key r ∈ seen \/ route_key r ∈ (route_key <$> dedupe seen n results).
Proof.
  revert seen n. induction results as [|x results IH]; intros seen n; cbn [dedupe].
  - intros _ Hin. apply elem_of_nil in Hin. contradiction.
  - destruct (bool_decide (route_key x ∈ seen)) eqn:E.
    + apply bool_decide_eq_true in E.
      intros Hlen [->|Hin]%elem_of_cons; [left; exact E|].
      exact (IH _ _ Hlen Hin).
    + destruct (Nat.leb_spec 5 (S n)) as [Hfull|Hroom]; simpl; [lia|].
      intros Hlen [->|Hin]%elem_of_cons.
      * right. apply elem_of_cons. left. reflexivity.
      * destruct (IH ({[route_key x]} ∪ seen) (S n)) as [Hs|Hs]; [lia|exact Hin| |].
        -- apply elem_of_union in Hs as [Hs|Hs]; [|left; exact Hs].
           apply elem_of_singleton in Hs. right. rewrite Hs.
           apply elem_of_cons. left. reflexivity.
        -- right. apply elem_of_cons. right. exact Hs.
Qed.

(** Which itineraries the loop reaches: the first itinerary of a key is
    kept exactly when fewer than five keys have been met before it. *)
Lemma dedupe_rank (seen : gset string) (n : nat) (l1 l2 : list itinerary)
    (r : itinerary) :
  n = size seen -> (n < 5)%nat ->
  route_key r ∉ seen -> route_key r ∉ (route_key <$> l1) ->
  r ∈ dedupe seen n (l1 ++ r :: l2)
  <-> (size (seen ∪ list_to_set (route_key <$> l1)) < 5)%nat.
Proof.
  revert seen n. induction l1 as [|x l1 IH]; intros seen n Hn Hlt Hseen Hl1.
  - simpl app. cbn [dedupe]. rewrite bool_decide_eq_false_2 by exact Hseen.
    rewrite fmap_nil, list_to_set_nil, (right_id_L ∅ (∪)), <- Hn.
    split; [intros _; exact Hlt|intros _].
    destruct (5 <=? S n)%nat; apply elem_of_cons; left; reflexivity.
  - rewrite fmap_cons, not_elem_of_cons in Hl1. destruct Hl1 as [Hx Hl1].
    rewrite fmap_cons, list_to_set_cons.
    change ((x :: l1) ++ r :: l2) with (x :: (l1 ++ r :: l2)). cbn [dedupe].
    destruct (decide (route_key x ∈ seen)) as [Hin|Hout].
    + rewrite bool_decide_eq_true_2 by exact Hin.
      rewrite (IH seen n Hn Hlt Hseen Hl1).
      replace (seen ∪ ({[route_key x]} ∪ list_to_set (route_key <$> l1)))
        with (seen ∪ list_to_set (route_key <$> l1)); [reflexivity|].
      apply set_eq. intros k.
      rewrite !elem_of_union, elem_of_singleton. split; [tauto|].
      intros [Hk|[->|Hk]]; auto.
    + rewrite bool_decide_eq_false_2 by exact Hout.
      assert (Hsize : size ({[route_key x]} ∪ seen) = S n).
      { rewrite size_union, size_singleton, Hn; [reflexivity|].
        apply disjoint_singleton_l. exact Hout. }
      assert (Hne : r <> x) by (intros ->; apply Hx; reflexivity).
      replace (seen ∪ ({[route_key x]} ∪ list_to_set (route_key <$> l1)))
        with (({[route_key x]} ∪ seen) ∪ list_to_set (route_key <$> l1)).
      2: { apply set_eq. intros k.
           rewrite !elem_of_union, elem_of_singleton. tauto. }
      destruct (Nat.leb_spec 5 (S n)) as [Hfull|Hroom].
      * split.
        -- intros ->%list_elem_of_singleton. contradiction.
        -- intros Hsmall. exfalso.
           pose proof (subseteq_size ({[route_key x]} ∪ seen)
                         (({[route_key x]} ∪ seen)
                            ∪ list_to_set (route_key <$> l1))
                         ltac:(apply union_subseteq_l)) as Hmono.
           lia.
      * rewrite elem_of_cons.
        rewrite <- (IH ({[route_key x]} ∪ seen) (S n)).
        -- split; [intros [Heq|Hin]; [contradiction|exact Hin]|auto].
        -- symmetry. exact Hsize.
        -- exact Hroom.
        -- rewrite elem_of_union, elem_of_singleton. intros [Heq|Hin]; auto.
        -- exact Hl1.
Qed.

(** C3, as the code has it. The result is in ascending order of
    duration, ties in ascending number of transfers; it holds at most
    five itineraries, all taken from the candidates, no two with the same
    key, the key being the route ids joined by "-" in the order of the
    legs; each one is the first of its key in the ranking, and below five
    entries every key of the candidates is present. The truncation keeps
    the first five keys of the ranking: the first itinerary of a key is
    in the result exactly when fewer than five different keys come
    before it in the ranking. *)
Theorem sort_and_dedupe_ranked (results : list itinerary) :
  let ranked := stable_sort by_duration results in
  let unique := sort_and_dedupe results in
  StronglySorted
    (fun a b => (duration a < duration b
                 \/ (duration a = duration b /\ transfers a <= transfers b))%Z)
    unique
  /\ NoDup (route_key <$> unique)
  /\ (length unique <= 5)%nat
  /\ ranked ≡ₚ results
  /\ unique `sublist_of` ranked
  /\ (forall r, r ∈ unique ->
        exists l1 l2, ranked = l1 ++ r :: l2 /\ (route_key r ∉ (route_key <$> l1)))
  /\ ((length unique < 5)%nat ->
      forall r, r ∈ results -> route_key r ∈ (route_key <$> unique))
  /\ (forall l1 r l2,
        ranked = l1 ++ r :: l2 ->
        route_key r ∉ (route_key <$> l1) ->
        r ∈ unique
        <-> (size (list_to_set (route_key <$> l1) : gset string) < 5)%nat).
Proof.
  intros ranked unique. unfold unique, sort_and_dedupe. fold ranked.
  split; [|split; [|split; [|split; [|split; [|split; [|split]]]]]].
  - eapply StronglySorted_sublist; [apply dedupe_sublist|].
    pose proof (stable_sort_sorted by_duration by_duration_total
                  by_duration_trans results) as Hs.
    fold ranked in Hs. clearbody ranked. clear unique.
    induction Hs as [|a l Hs IH Hall]; constructor; [exact IH|].
    eapply Forall_impl; [exact Hall|]. intros b Hb. apply by_duration_spec, Hb.
  - apply dedupe_NoDup.
  - pose proof (dedupe_length ∅ 0 ranked). lia.
  - apply stable_sort_perm.
  - apply dedupe_sublist.
  - intros r Hr. apply dedupe_first in Hr as (l1 & l2 & Eq & _ & Hl1).
    exists l1, l2. split; assumption.
  - intros Hlen r Hr.
    destruct (dedupe_complete ∅ 0 ranked r) as [Hs|Hs]; [lia| | |exact Hs].
    + apply elem_of_stable_sort, Hr.
    + apply elem_of_empty in Hs. contradiction.
  - intros l1 r l2 Hsplit Hl1. rewrite Hsplit.
    rewrite (dedupe_rank ∅ 0 l1 l2 r); [|rewrite size_empty; reflexivity|lia
                                        |apply not_elem_of_empty|exact Hl1].
    rewrite (left_id_L ∅ (∪)). reflexivity.
Qed.

Lemma sort_and_dedupe_ranked_witness :
  "A-B" ∈ (route_key <$> sort_and_dedupe Samples.candidates)
  /\ Samples.candidate ["C"] 20 0 ∈ sort_and_dedupe Samples.candidates
  /\ exists l1 l2,
       stable_sort by_duration Samples.candidates
       = l1 ++ Samples.candidate ["C"] 20 0 :: l2
       /\ ("C" ∉ (route_key <$> l1)).
Proof.
  destruct (sort_and_dedupe_ranked Samples.candidates)
    as (_ & _ & _ & _ & _ & Hfirst & Hall & Hrank).
  split; [|split].
  - apply (Hall ltac:(vm_compute; lia) (Samples.candidate ["A"; "B"] 20 1)).
    apply elem_of_cons. left. reflexivity.
  - apply (Hrank [Samples.candidate ["A"; "B"] 15 1]
             (Samples.candidate ["C"] 20 0) [Samples.candidate ["A"; "B"] 20 1]).
    + vm_compute. reflexivity.
    + vm_compute. intros Hin. apply elem_of_cons in Hin as [Heq|Hin];
        [discriminate|]. apply elem_of_nil in Hin. contradiction.
    + rewrite fmap_cons, fmap_nil, list_to_set_cons, list_to_set_nil,
        (right_id_L ∅ (∪)), size_singleton. lia.
  - apply (Hfirst (Samples.candidate ["C"] 20 0)).
    vm_compute. apply elem_of_cons. right. apply elem_of_cons. left. reflexivity.
Defined.

(** Between "X" and "Y" the result keeps the itinerary by route "B" then
    "A" and the one by "A" then "B": the same two routes, two keys. *)
Lemma both_orders_of_a_pair_kept :
  option_map (map (fun it => (routes it, route_key it, duration it, transfers it)))
    (findRoutesRaptor Samples.twin_data "X" "Y")
  = Some [ (["A"], "A", 6%Z, 0%Z);
           (["B"], "B", 7%Z, 0%Z);
           (["B"; "A"], "B-A", 11%Z, 1%Z);
           (["A"; "B"], "A-B", 12%Z, 1%Z) ].
Proof. vm_compute. reflexivity. Qed.

End RankingFacts.

(** ** Range and extremes of the Jaccard similarity *)

Module OverlapFacts.
Import Geo Config.

(** The quotient of two sizes against a fraction, in integers. *)
Lemma size_quotient_num_den (i u : nat) :
  (0 < u)%nat ->
  exists p : positive,
    Z.pos p = Z.of_nat u
    /\ (inject_Z (Z.of_nat i) / inject_Z (Z.of_nat u))%Q = (Z.of_nat i * 1 # 1 * p)%Q.
Proof.
  intros Hu. destruct u as [|n]; [lia|].
  exists (Pos.of_succ_nat n). split; [lia|]. reflexivity.
Qed.

Lemma overlap_of_non_empty (A B : gset string) :
  A <> ∅ -> B <> ∅ ->
  (0 < size (A ∪ B))%nat
  /\ calculate_route_overlap A B
     = (inject_Z (Z.of_nat (size (A ∩ B))) / inject_Z (Z.of_nat (size (A ∪ B))))%Q.
Proof.
  intros HA HB.
  assert (Hpos : (0 < size (A ∪ B))%nat).
  { destruct (size (A ∪ B)) eqn:E; [|lia]. exfalso. apply HA.
    apply size_empty_inv in E. apply leibniz_equiv in E.
    apply set_eq. intros x. split; [|intros Hx; apply elem_of_empty in Hx; contradiction].
    intros Hx. rewrite <- E. apply elem_of_union. left. exact Hx. }
  split; [exact Hpos|]. unfold calculate_route_overlap.
  rewrite (bool_decide_eq_false_2 (A = ∅)) by exact HA.
  rewrite (bool_decide_eq_false_2 (B = ∅)) by exact HB. simpl.
  rewrite bool_decide_eq_true_2 by exact Hpos. reflexivity.
Qed.

Lemma overlap_of_empty (A B : gset string) :
  A = ∅ \/ B = ∅ -> calculate_route_overlap A B = 0%Q.
Proof.
  unfold calculate_route_overlap. intros [->| ->].
  - rewrite (bool_decide_eq_true_2 (∅ = ∅)) by reflexivity. reflexivity.
  - rewrite (bool_decide_eq_true_2 (∅ = ∅)) by reflexivity.
    rewrite orb_true_r. reflexivity.
Qed.

Lemma intersection_size_le_union (A B : gset string) :
  (size (A ∩ B) <= size (A ∪ B))%nat.
Proof.
  apply subseteq_size. intros x Hx. apply elem_of_intersection in Hx as [Hx _].
  apply elem_of_union. left. exact Hx.
Qed.

(** X1. The similarity is a number between 0 and 1, as the docstring of
    [calculate_route_overlap] announces. *)
Theorem calculate_route_overlap_range (A B : gset string) :
  (0 <= calculate_route_overlap A B)%Q /\ (calculate_route_overlap A B <= 1)%Q.
Proof.
  destruct (decide (A = ∅)) as [HA|HA];
    [rewrite overlap_of_empty by auto; split; [apply Qle_refl|discriminate]|].
  destruct (decide (B = ∅)) as [HB|HB];
    [rewrite overlap_of_empty by auto; split; [apply Qle_refl|discriminate]|].
  destruct (overlap_of_non_empty A B HA HB) as [Hpos ->].
  pose proof (intersection_size_le_union A B) as Hle.
  destruct (size_quotient_num_den (size (A ∩ B)) _ Hpos) as (p & Hp & ->).
  unfold Qle. simpl. split; lia.
Qed.

(** X2. The similarity is 0 exactly when the two sets share no stop, and
    1 exactly when they are one non-empty set. *)
Theorem calculate_route_overlap_extremes (A B : gset string) :
  ((calculate_route_overlap A B == 0)%Q <-> A ∩ B = ∅)
  /\ ((calculate_route_overlap A B == 1)%Q <-> A = B /\ A <> ∅).
Proof.
  destruct (decide (A = ∅)) as [HA|HA].
  { rewrite overlap_of_empty by auto. subst A. split.
    - split; [|reflexivity]. intros _. apply set_eq. intros x.
      rewrite elem_of_intersection. split; [tauto|].
      intros Hx. apply elem_of_empty in Hx. contradiction.
    - split; [discriminate|]. intros [_ Hne]. contradiction. }
  destruct (decide (B = ∅)) as [HB|HB].
  { rewrite overlap_of_empty by auto. subst B. split.
    - split; [|reflexivity]. intros _. apply set_eq. intros x.
      rewrite elem_of_intersection. split; [tauto|].
      intros Hx. apply elem_of_empty in Hx. contradiction.
    - split; [discriminate|]. intros [Heq _]. contradiction. }
  destruct (overlap_of_non_empty A B HA HB) as [Hpos ->].
  pose proof (intersection_size_le_union A B) as Hle.
  destruct (size_quotient_num_den (size (A ∩ B)) _ Hpos) as (p & Hp & ->).
  unfold Qeq. simpl. split.
  - split.
    + intros H. assert (Hz : size (A ∩ B) = 0%nat) by lia.
      apply size_empty_inv in Hz. apply leibniz_equiv in Hz. exact Hz.
    + intros ->. rewrite size_empty. reflexivity.
  - split.
    + intros H. assert (Heq : size (A ∩ B) = size (A ∪ B)) by lia.
      assert (Hsets : A ∩ B = A ∪ B).
      { apply set_subseteq_size_eq; [|lia]. intros x Hx.
        apply elem_of_intersection in Hx as [Hx _]. apply elem_of_union. auto. }
      split; [|exact HA]. apply set_eq. intros x. split; intros Hx.
      * assert (Hu : x ∈ A ∪ B) by (apply elem_of_union; auto).
        rewrite <- Hsets in Hu. apply elem_of_intersection in Hu. tauto.
      * assert (Hu : x ∈ A ∪ B) by (apply elem_of_union; auto).
        rewrite <- Hsets in Hu. apply elem_of_intersection in Hu. tauto.
    + intros [<- _].
      assert (Hi : A ∩ A = A).
      { apply set_eq. intros x. rewrite elem_of_intersection. tauto. }
      assert (Hu : A ∪ A = A).
      { apply set_eq. intros x. rewrite elem_of_union. tauto. }
      rewrite Hi. rewrite Hu in Hp. lia.
Qed.

End OverlapFacts.

(** ** The merge decision in integers *)

Module ThresholdFacts.
Import Prim Geo Config OverlapFacts.

Lemma overlap_above_threshold (A B : gset string) :
  (MERGE_THRESHOLD < calculate_route_overlap A B)%Q
  <-> (3 * size (A ∪ B) < 10 * size (A ∩ B))%nat.
Proof.
  assert (Hempty : A = ∅ \/ B = ∅ ->
            (MERGE_THRESHOLD < calculate_route_overlap A B)%Q
            <-> (3 * size (A ∪ B) < 10 * size (A ∩ B))%nat).
  { intros Hor. rewrite overlap_of_empty by exact Hor.
    assert (Hi : A ∩ B = ∅).
    { apply set_eq. intros x. rewrite elem_of_intersection.
      split; [|intros Hx; apply elem_of_empty in Hx; contradiction].
      destruct Hor as [-> | ->]; tauto. }
    rewrite Hi, size_empty. unfold Qlt, MERGE_THRESHOLD. simpl. lia. }
  destruct (decide (A = ∅)) as [HA|HA]; [auto|].
  destruct (decide (B = ∅)) as [HB|HB]; [auto|].
  destruct (overlap_of_non_empty A B HA HB) as [Hpos ->].
  destruct (size_quotient_num_den (size (A ∩ B)) _ Hpos) as (p & Hp & ->).
  unfold Qlt, MERGE_THRESHOLD. simpl. lia.
Qed.

(** X3. In both generators the two directions "0" and "1" of a route are
    merged exactly when ten times the number of stop ids they share
    exceeds three times the number of stop ids of the two together. *)
Theorem merge_decision_in_integers :
  (forall rid name (directions : list (string * InteractiveMap.geometry)) d0 d1,
      dict_get "0" directions = Some d0 ->
      dict_get "1" directions = Some d1 ->
      is_Some (InteractiveMap.merged_feature rid name directions)
      <-> (3 * size (InteractiveMap.stop_ids d0 ∪ InteractiveMap.stop_ids d1)
           < 10 * size (InteractiveMap.stop_ids d0 ∩ InteractiveMap.stop_ids d1))%nat)
  /\ (forall name (directions : list (string * NetworkMap.geometry)) d0 d1,
        dict_get "0" directions = Some d0 ->
        dict_get "1" directions = Some d1 ->
        is_Some (NetworkMap.merged_feature name directions)
        <-> (3 * size (NetworkMap.stop_ids d0 ∪ NetworkMap.stop_ids d1)
             < 10 * size (NetworkMap.stop_ids d0 ∩ NetworkMap.stop_ids d1))%nat).
Proof.
  split.
  - intros rid name directions d0 d1 H0 H1.
    unfold InteractiveMap.merged_feature. rewrite H0, H1.
    rewrite <- overlap_above_threshold.
    destruct (Qlt_le_dec _ _) as [Hlt|Hle].
    + split; [intros _; exact Hlt|intros _; eexists; reflexivity].
    + split; [intros [? [=]]|]. intros Hlt. exfalso.
      exact (Qlt_not_le _ _ Hlt Hle).
  - intros name directions d0 d1 H0 H1.
    unfold NetworkMap.merged_feature. rewrite H0, H1.
    rewrite <- overlap_above_threshold.
    destruct (Qlt_le_dec _ _) as [Hlt|Hle].
    + split; [intros _; exact Hlt|intros _; eexists; reflexivity].
    + split; [intros [? [=]]|]. intros Hlt. exfalso.
      exact (Qlt_not_le _ _ Hlt Hle).
Qed.

Lemma merge_decision_in_integers_witness :
  is_Some (InteractiveMap.merged_feature "10A" "10A" Samples.overlapping_directions)
  /\ ~ is_Some (NetworkMap.merged_feature "5K" Samples.disjoint_directions).
Proof.
  destruct merge_decision_in_integers as [Hi Hn]. split.
  - apply (Hi "10A" "10A" Samples.overlapping_directions _ _ eq_refl eq_refl).
    vm_compute. lia.
  - intros H.
    apply (Hn "5K" Samples.disjoint_directions _ _ eq_refl eq_refl) in H.
    vm_compute in H. lia.
Defined.

Lemma calculate_route_overlap_extremes_witness :
  (calculate_route_overlap {["A"; "B"]} {["C"]} == 0)%Q.
Proof.
  apply (calculate_route_overlap_extremes {["A"; "B"]} {["C"]}).
  vm_compute. reflexivity.
Defined.

End ThresholdFacts.

(** ** The coordinate helpers *)

Module GeoUtilFacts.
Import GeoUtil.

(** X4. [coords_to_geojson] swaps every pair and nothing else: applied
    twice it gives the points back, and it keeps their number. *)
Theorem coords_to_geojson_involutive (points : list (Q * Q)) :
  coords_to_geojson (coords_to_geojson points) = points
  /\ length (coords_to_geojson points) = length points.
Proof.
  unfold coords_to_geojson. split; [|apply length_fmap].
  induction points as [|[a b] points IH]; [reflexivity|].
  rewrite !fmap_cons, IH. reflexivity.
Qed.

Lemma le_trans (a b c : pyfloat) :
  le a b = true -> le b c = true -> le a c = true.
Proof.
  destruct a as [| |x|], b as [| |y|], c as [| |z|]; simpl;
    try discriminate; try reflexivity.
  destruct (Qlt_le_dec y x) as [|Hxy]; [discriminate|].
  destruct (Qlt_le_dec z y) as [|Hyz]; [discriminate|].
  destruct (Qlt_le_dec z x) as [Hzx|]; [|reflexivity].
  intros _ _. exfalso. apply (Qlt_not_le _ _ Hzx). eapply Qle_trans; eassumption.
Qed.

Lemma lt_le (a b : pyfloat) : lt a b = true -> le a b = true.
Proof.
  destruct a as [| |x|], b as [| |y|]; simpl; try discriminate; try reflexivity.
  destruct (Qlt_le_dec x y) as [Hxy|]; [|discriminate].
  destruct (Qlt_le_dec y x) as [Hyx|]; [|reflexivity].
  intros _. exfalso. apply (Qlt_not_le _ _ Hxy), Qlt_le_weak, Hyx.
Qed.

Lemma not_lt_le (a b : pyfloat) :
  a <> nan -> b <> nan -> lt a b = false -> le b a = true.
Proof.
  destruct a as [| |x|], b as [| |y|]; simpl; try discriminate; try reflexivity;
    try contradiction.
  intros _ _. destruct (Qlt_le_dec x y); [discriminate|reflexivity].
Qed.

Lemma le_refl (a : pyfloat) : a <> nan -> le a a = true.
Proof.
  destruct a as [| |x|]; simpl; try reflexivity; [contradiction|].
  intros _. destruct (Qlt_le_dec x x) as [Hxx|]; [|reflexivity].
  exfalso. exact (Qlt_irrefl _ Hxx).
Qed.

(** [min] returns an element of its list; when no element is NaN, it is
    below every element. *)
Lemma py_min_least (first : pyfloat) (rest : list pyfloat) :
  py_min first rest ∈ first :: rest
  /\ (Forall (fun v => v <> nan) (first :: rest) ->
      forall y, y ∈ first :: rest -> le (py_min first rest) y = true).
Proof.
  unfold py_min. revert first. induction rest as [|item rest IH]; intros first.
  - simpl. split; [apply elem_of_cons; auto|].
    intros Hnan y ->%list_elem_of_singleton. apply le_refl.
    apply Forall_inv in Hnan. exact Hnan.
  - simpl. destruct (lt item first) eqn:E.
    + destruct (IH item) as [Hin Hall]. split.
      * apply elem_of_cons. right. exact Hin.
      * intros Hnan. apply Forall_cons in Hnan as [_ Hnan].
        intros y [->|Hy]%elem_of_cons; [|exact (Hall Hnan y Hy)].
        eapply le_trans; [apply (Hall Hnan), elem_of_cons; auto|].
        apply lt_le, E.
    + destruct (IH first) as [Hin Hall]. split.
      * apply elem_of_cons in Hin as [->|Hin];
          [apply elem_of_cons; auto|].
        apply elem_of_cons. right. apply elem_of_cons. right. exact Hin.
      * intros Hnan. apply Forall_cons in Hnan as [Hfirst Hnan].
        apply Forall_cons in Hnan as [Hitem Hnan].
        assert (Hnan' : Forall (fun v => v <> nan) (first :: rest))
          by (apply Forall_cons; auto).
        intros y [->|[->|Hy]%elem_of_cons]%elem_of_cons.
        -- apply (Hall Hnan'), elem_of_cons. auto.
        -- eapply le_trans; [apply (Hall Hnan'), elem_of_cons; auto|].
           apply not_lt_le; assumption.
        -- apply (Hall Hnan'), elem_of_cons. auto.
Qed.

Lemma py_max_greatest (first : pyfloat) (rest : list pyfloat) :
  py_max first rest ∈ first :: rest
  /\ (Forall (fun v => v <> nan) (first :: rest) ->
      forall y, y ∈ first :: rest -> le y (py_max first rest) = true).
Proof.
  unfold py_max. revert first. induction rest as [|item rest IH]; intros first.
  - simpl. split; [apply elem_of_cons; auto|].
    intros Hnan y ->%list_elem_of_singleton. apply le_refl.
    apply Forall_inv in Hnan. exact Hnan.
  - simpl. destruct (lt first item) eqn:E.
    + destruct (IH item) as [Hin Hall]. split.
      * apply elem_of_cons. right. exact Hin.
      * intros Hnan. apply Forall_cons in Hnan as [_ Hnan].
        intros y [->|Hy]%elem_of_cons; [|exact (Hall Hnan y Hy)].
        eapply le_trans; [apply lt_le, E|].
        apply (Hall Hnan), elem_of_cons. auto.
    + destruct (IH first) as [Hin Hall]. split.
      * apply elem_of_cons in Hin as [->|Hin];
          [apply elem_of_cons; auto|].
        apply elem_of_cons. right. apply elem_of_cons. right. exact Hin.
      * intros Hnan. apply Forall_cons in Hnan as [Hfirst Hnan].
        apply Forall_cons in Hnan as [Hitem Hnan].
        assert (Hnan' : Forall (fun v => v <> nan) (first :: rest))
          by (apply Forall_cons; auto).
        intros y [->|[->|Hy]%elem_of_cons]%elem_of_cons.
        -- apply (Hall Hnan'), elem_of_cons. auto.
        -- eapply le_trans; [exact (not_lt_le first item Hfirst Hitem E)|].
           apply (Hall Hnan'), elem_of_cons. auto.
        -- apply (Hall Hnan'), elem_of_cons. auto.
Qed.

(** X5. The box of the empty list is the point (0, 0). Each of the four
    bounds of the box of a non-empty list is a coordinate of a point of
    the list. When no coordinate of the list is NaN, the box holds every
    point of the list; a NaN, with which every comparison is false, can
    leave points outside. *)
Theorem get_bounds_encloses (coords : list (pyfloat * pyfloat)) :
  get_bounds [] = ((finite 0, finite 0), (finite 0, finite 0))
  /\ (coords <> [] ->
      let '((min_lon, min_lat), (max_lon, max_lat)) := get_bounds coords in
      (min_lon ∈ (fst <$> coords) /\ max_lon ∈ (fst <$> coords)
       /\ min_lat ∈ (snd <$> coords) /\ max_lat ∈ (snd <$> coords))
      /\ (Forall (fun c : pyfloat * pyfloat => c.1 <> nan /\ c.2 <> nan) coords ->
          forall lon lat, (lon, lat) ∈ coords ->
            le min_lon lon = true /\ le lon max_lon = true
            /\ le min_lat lat = true /\ le lat max_lat = true)).
Proof.
  split; [reflexivity|]. intros Hne.
  destruct coords as [|c cs]; [contradiction|]. unfold get_bounds.
  destruct (py_min_least c.1 (fst <$> cs)) as [Hmin_lon_in Hmin_lon].
  destruct (py_min_least c.2 (snd <$> cs)) as [Hmin_lat_in Hmin_lat].
  destruct (py_max_greatest c.1 (fst <$> cs)) as [Hmax_lon_in Hmax_lon].
  destruct (py_max_greatest c.2 (snd <$> cs)) as [Hmax_lat_in Hmax_lat].
  rewrite !fmap_cons. split; [auto|].
  intros Hnan lon lat Hin.
  assert (Hlons : Forall (fun v => v <> nan) (c.1 :: (fst <$> cs))).
  { rewrite <- fmap_cons. apply Forall_fmap.
    eapply Forall_impl; [exact Hnan|]. intros p [Hp _]. exact Hp. }
  assert (Hlats : Forall (fun v => v <> nan) (c.2 :: (snd <$> cs))).
  { rewrite <- fmap_cons. apply Forall_fmap.
    eapply Forall_impl; [exact Hnan|]. intros p [_ Hp]. exact Hp. }
  assert (Hlon : lon ∈ c.1 :: (fst <$> cs)).
  { rewrite <- fmap_cons. apply (list_elem_of_fmap_2 fst _ _ Hin). }
  assert (Hlat : lat ∈ c.2 :: (snd <$> cs)).
  { rewrite <- fmap_cons. apply (list_elem_of_fmap_2 snd _ _ Hin). }
  auto.
Qed.

Lemma get_bounds_encloses_witness :
  get_bounds [(finite (78 # 1), finite (17 # 1)); (finite (80 # 1), finite (16 # 1));
              (finite (79 # 1), finite (18 # 1))]
  = ((finite (78 # 1), finite (16 # 1)), (finite (80 # 1), finite (18 # 1)))
  /\ le (finite (78 # 1)) (finite (79 # 1)) = true.
Proof.
  split; [reflexivity|].
  pose proof (proj2 (get_bounds_encloses
                       [(finite (78 # 1), finite (17 # 1));
                        (finite (80 # 1), finite (16 # 1));
                        (finite (79 # 1), finite (18 # 1))])
                ltac:(discriminate)) as H.
  simpl in H. destruct H as [_ H].
  apply (H ltac:(repeat (apply List.Forall_cons; [split; discriminate|]);
                 apply List.Forall_nil)
           (finite (79 # 1)) (finite (18 # 1))).
  apply elem_of_cons. right. apply elem_of_cons. right.
  apply elem_of_cons. left. reflexivity.
Defined.

(** With a NaN as the first longitude no later longitude replaces it:
    both bounds are NaN, and the point of longitude 2 is not inside. *)
Lemma get_bounds_nan_first :
  get_bounds [(nan, finite 1); (finite 2, finite 3)]
  = ((nan, finite 1), (nan, finite 3))
  /\ le nan (finite 2) = false.
Proof. split; reflexivity. Qed.

End GeoUtilFacts.

(** ** More on the representative trips *)

Module RepresentativeFacts.
Import Prim PrimFacts Feed Loader LoaderFacts.

(** X6. A route and direction has a representative trip exactly when one
    of its trips has a stop visit: trips without any stop visit are never
    selected, and every pair with a visited trip is represented. *)
Theorem get_representative_trips_covers
    (trips : list trip_row) (stop_times : list stop_time_row) :
  (forall r, r ∈ get_representative_trips trips stop_times ->
             (0 < stop_count r)%nat)
  /\ (forall rid dir,
        (exists r, r ∈ get_representative_trips trips stop_times
                   /\ route_direction r = (rid, dir))
        <-> exists t, t ∈ trips /\ route_id t = rid
                      /\ default "0" (direction_id t) = dir
                      /\ (0 < visit_count stop_times (trip_id t))%nat).
Proof.
  unfold get_representative_trips, drop_duplicates.
  assert (Hrep : forall r,
            r ∈ drop_duplicates_from route_direction []
                  (stable_sort by_stop_count_desc (trips_enriched trips stop_times)) ->
            exists t, t ∈ trips /\ (0 < visit_count stop_times (trip_id t))%nat
              /\ r = {| rt_trip_id := trip_id t; rt_route_id := route_id t;
                        rt_direction_id := default "0" (direction_id t);
                        stop_count := visit_count stop_times (trip_id t) |}).
  { intros r Hr. apply drop_duplicates_from_elem in Hr.
    apply elem_of_stable_sort, elem_of_trips_enriched in Hr. exact Hr. }
  split.
  - intros r Hr. destruct (Hrep r Hr) as (t & _ & Hpos & ->). exact Hpos.
  - intros rid dir. split.
    + intros (r & Hr & Hk). destruct (Hrep r Hr) as (t & Ht & Hpos & ->).
      unfold route_direction in Hk. simpl in Hk. injection Hk as <- <-.
      exists t. auto.
    + intros (t & Ht & <- & <- & Hpos).
      set (e := {| rt_trip_id := trip_id t; rt_route_id := route_id t;
                   rt_direction_id := default "0" (direction_id t);
                   stop_count := visit_count stop_times (trip_id t) |}).
      destruct (drop_duplicates_from_covers route_direction []
                  (stable_sort by_stop_count_desc (trips_enriched trips stop_times)) e)
        as (r & Hr & Hk).
      * apply elem_of_stable_sort, elem_of_trips_enriched. exists t. auto.
      * apply not_elem_of_nil.
      * exists r. split; [exact Hr|]. rewrite Hk. reflexivity.
Qed.

Lemma get_representative_trips_covers_witness :
  exists r, r ∈ get_representative_trips Samples.tie_trips Samples.tie_stop_times
            /\ route_direction r = ("R", "1").
Proof.
  apply (proj2 (get_representative_trips_covers Samples.tie_trips
                  Samples.tie_stop_times)).
  exists {| trip_id := "T3"; route_id := "R"; direction_id := Some "1" |}.
  split; [|split; [reflexivity|split; [reflexivity|vm_compute; lia]]].
  apply elem_of_cons. right. apply elem_of_cons. right.
  apply elem_of_cons. left. reflexivity.
Defined.

(** X7. The representative trips come out in descending order of their
    number of stop visits. *)
Theorem get_representative_trips_descending
    (trips : list trip_row) (stop_times : list stop_time_row) :
  StronglySorted (fun a b => (stop_count b <= stop_count a)%nat)
    (get_representative_trips trips stop_times).
Proof.
  unfold get_representative_trips, drop_duplicates.
  eapply RankingFacts.StronglySorted_sublist;
    [apply drop_duplicates_from_sublist|].
  pose proof (stable_sort_sorted by_stop_count_desc by_stop_count_desc_total
                by_stop_count_desc_trans (trips_enriched trips stop_times)) as Hs.
  induction Hs as [|a l Hs IH Hall]; constructor; [exact IH|].
  eapply Forall_impl; [exact Hall|]. intros b Hb.
  unfold by_stop_count_desc in Hb. apply Nat.leb_le in Hb. exact Hb.
Qed.

End RepresentativeFacts.

(** ** The display name of a route *)

Module RouteNameFacts.
Import Prim PrimFacts Feed Loader StopJoin LoaderQueries.

Lemma route_names_of_snoc routes row :
  route_names_of (routes ++ [row])
  = dict_set (r_route_id row)
      (if truthy (route_short_name row) then str (route_short_name row)
       else if truthy (route_long_name row) then str (route_long_name row)
       else r_route_id row)
      (route_names_of routes).
Proof. unfold route_names_of. rewrite foldl_snoc. reflexivity. Qed.

Lemma route_names_of_absent routes rid :
  (forall row, row ∈ routes -> r_route_id row <> rid) ->
  dict_get rid (route_names_of routes) = None.
Proof.
  induction routes as [|row routes IH] using rev_ind; intros Hnone; [reflexivity|].
  rewrite route_names_of_snoc, dict_get_set.
  rewrite decide_False.
  - apply IH. intros r Hr. apply Hnone, elem_of_app. auto.
  - intros ->. apply (Hnone row); [|reflexivity].
    apply elem_of_app. right. apply elem_of_cons. auto.
Qed.

Lemma filter_route_absent routes rid :
  (forall row, row ∈ routes -> r_route_id row <> rid) ->
  filter (fun row => r_route_id row = rid) routes = [].
Proof.
  induction routes as [|row routes IH]; intros Hnone; [reflexivity|].
  rewrite filter_cons, decide_False.
  - apply IH. intros r Hr. apply Hnone, elem_of_cons. auto.
  - apply Hnone, elem_of_cons. auto.
Qed.

(** X8. [get_route_name] answers an unknown route id with the id itself.
    On a routes table with distinct route ids in which no name cell is
    false in a condition (no empty string, no number 0) it gives every
    route the name that the generators show: the short name, else the
    long name, else the id, a missing cell of an existing column reading
    as "nan" and a number as its text. *)
Theorem get_route_name_agrees (routes : list route_row) (rid : string) :
  ((forall row, row ∈ routes -> r_route_id row <> rid) ->
   get_route_name routes rid = rid)
  /\ (NoDup (r_route_id <$> routes) ->
      (forall row, row ∈ routes ->
         (route_short_name row = Absent \/ truthy (route_short_name row) = true)
         /\ (route_long_name row = Absent \/ truthy (route_long_name row) = true)) ->
      get_route_name routes rid = default rid (dict_get rid (route_names_of routes))).
Proof.
  split.
  - intros Hnone. unfold get_route_name.
    rewrite filter_route_absent by exact Hnone. reflexivity.
  - induction routes as [|row routes IH] using rev_ind; intros Hnd Hcells;
      [reflexivity|].
    rewrite fmap_app in Hnd. apply NoDup_app in Hnd as (Hnd & Hfresh & _).
    rewrite route_names_of_snoc, dict_get_set.
    unfold get_route_name. rewrite filter_app.
    destruct (decide (rid = r_route_id row)) as [->|Hne].
    + rewrite filter_route_absent.
      2: { intros r Hr Heq. apply (Hfresh (r_route_id r)).
           - apply list_elem_of_fmap_2. exact Hr.
           - rewrite Heq. simpl. apply elem_of_cons. auto. }
      simpl. rewrite filter_cons, decide_True by reflexivity. simpl.
      destruct (Hcells row) as [Hs Hl]; [apply elem_of_app; right; apply elem_of_cons; auto|].
      destruct Hs as [Hs|Hs].
      * rewrite Hs. simpl. destruct Hl as [Hl|Hl]; rewrite Hl; [reflexivity|].
        destruct (route_long_name row); [discriminate|reflexivity..].
      * rewrite Hs. destruct (route_short_name row); [discriminate|reflexivity..].
    + rewrite (filter_cons _ row), decide_False by congruence.
      rewrite filter_nil, app_nil_r.
      apply IH; [exact Hnd|].
      intros r Hr. apply Hcells, elem_of_app. auto.
Qed.

Lemma get_route_name_agrees_witness :
  get_route_name Samples.split_routes "7Z" = "7Z"
  /\ get_route_name Samples.split_routes "5K" = "5K".
Proof.
  destruct (get_route_name_agrees Samples.split_routes "7Z") as [Hunknown _].
  destruct (get_route_name_agrees Samples.split_routes "5K") as [_ Hknown].
  split.
  - apply Hunknown. intros row ->%list_elem_of_singleton. discriminate.
  - rewrite Hknown; [reflexivity| |].
    + apply NoDup_singleton.
    + intros row ->%list_elem_of_singleton. split; right; reflexivity.
Defined.

End RouteNameFacts.

(** ** Where the features of the interactive map come from *)

Module FeatureFacts.
Import Prim PrimFacts Feed Loader LoaderFacts StopJoin InteractiveMap GeometryFacts.

Lemma elem_of_dict_set {K V : Type} `{EqDecision K} (k k' : K) (v v' : V)
    (d : list (K * V)) :
  (k', v') ∈ dict_set k v d -> (k', v') = (k, v) \/ (k', v') ∈ d.
Proof.
  induction d as [|[k0 v0] d IH]; simpl.
  - intros ->%list_elem_of_singleton. auto.
  - destruct (decide (k = k0)) as [->|Hne].
    + intros [Heq|Hin]%elem_of_cons; [auto|].
      right. apply elem_of_cons. auto.
    + intros [Heq|Hin]%elem_of_cons.
      * right. apply elem_of_cons. auto.
      * destruct (IH Hin) as [Heq|Hin']; [auto|].
        right. apply elem_of_cons. auto.
Qed.

(** Every stored geometry is that of a representative trip. *)
Lemma geometries_from_trips st_geo rows k g :
  (k, g) ∈ foldl (add_geometry st_geo) [] rows ->
  exists row, row ∈ rows /\ k = route_direction row
              /\ g = geometry_of (trip_stops_of st_geo (rt_trip_id row)).
Proof.
  induction rows as [|r rows IH] using rev_ind.
  - intros Hin. apply elem_of_nil in Hin. contradiction.
  - rewrite foldl_snoc. unfold add_geometry at 1.
    assert (Hold : (k, g) ∈ foldl (add_geometry st_geo) [] rows ->
              exists row, row ∈ rows ++ [r] /\ k = route_direction row
                /\ g = geometry_of (trip_stops_of st_geo (rt_trip_id row))).
    { intros Hin. destruct (IH Hin) as (row & Hrow & Hk & Hg).
      exists row. split; [apply elem_of_app; auto|auto]. }
    destruct (trip_stops_of st_geo (rt_trip_id r)) as [|x l] eqn:E; [exact Hold|].
    intros [Heq|Hin]%elem_of_dict_set; [|exact (Hold Hin)].
    injection Heq as -> ->. exists r.
    split; [apply elem_of_app; right; apply elem_of_cons; auto|].
    split; [reflexivity|]. rewrite E. reflexivity.
Qed.

(** Every geometry of [route_directions] is stored under its route and
    its direction. *)
Lemma route_directions_of_elem geometries rid directions dir g :
  (rid, directions) ∈ route_directions_of geometries ->
  (dir, g) ∈ directions ->
  ((rid, dir), g) ∈ geometries.
Proof.
  revert directions.
  induction geometries as [|[[rid' dir'] data'] geometries IH] using rev_ind;
    intros directions.
  - intros Hin. apply elem_of_nil in Hin. contradiction.
  - rewrite route_directions_of_snoc.
    intros [Heq|Hin]%elem_of_dict_set Hg.
    + injection Heq as -> ->.
      apply elem_of_dict_set in Hg as [Heq|Hg].
      * injection Heq as -> ->. apply elem_of_app. right.
        apply elem_of_cons. auto.
      * destruct (dict_get rid' (route_directions_of geometries))
          as [inner|] eqn:E; simpl in Hg.
        -- apply elem_of_app. left. eapply IH; [|exact Hg].
           apply dict_get_Some_elem, E.
        -- apply elem_of_nil in Hg. contradiction.
    + apply elem_of_app. left. eapply IH; eassumption.
Qed.

(** A feature shows the geometry of one direction of its route. *)
Lemma route_features_elem names rid (directions : list (string * geometry)) f :
  f ∈ route_features names (rid, directions) ->
  exists dir g, (dir, g) ∈ directions
    /\ coordinates f = coords g /\ f_stop_list f = stop_list g
    /\ stops_count f = count g.
Proof.
  unfold route_features.
  destruct (merged_feature rid _ directions) as [m|] eqn:E.
  - intros ->%list_elem_of_singleton. unfold merged_feature in E.
    destruct (dict_get "0" directions) as [d0|] eqn:E0; [|discriminate].
    destruct (dict_get "1" directions) as [d1|] eqn:E1; [|discriminate].
    destruct (Qlt_le_dec _ _); [|discriminate]. injection E as <-. simpl.
    destruct (count d1 <=? count d0)%nat.
    + exists "0", d0. split; [apply dict_get_Some_elem, E0|auto].
    + exists "1", d1. split; [apply dict_get_Some_elem, E1|auto].
  - intros ([dir g] & -> & Hin)%list_elem_of_fmap.
    exists dir, g. split; [exact Hin|]. simpl. auto.
Qed.

(** Every feature of the interactive map shows the joined stop visits of
    one representative trip. *)
Lemma feature_from_trip stops stop_times rep_trips routes f :
  f ∈ _create_geojson_features
        (_build_route_geometries stops stop_times rep_trips) routes ->
  exists row, row ∈ rep_trips
    /\ let trip_stops :=
         trip_stops_of (st_geo_of stops stop_times rep_trips) (rt_trip_id row) in
       coordinates f = coords_of trip_stops
       /\ f_stop_list f = stop_list_of trip_stops
       /\ stops_count f = length (coords_of trip_stops).
Proof.
  unfold _create_geojson_features. rewrite elem_of_stable_sort.
  intros ([rid directions] & Hf & Hrd)%list_elem_of_bind.
  apply route_features_elem in Hf as (dir & g & Hg & Hc & Hs & Hn).
  pose proof (route_directions_of_elem _ _ _ _ _ Hrd Hg) as Hin.
  apply geometries_from_trips in Hin as (row & Hrow & _ & ->).
  exists row. split; [exact Hrow|]. simpl. auto.
Qed.

Lemma coords_of_stop_list_of trip_stops :
  coords_of trip_stops
  = (fun sd => (sd_lon sd, sd_lat sd)) <$> stop_list_of trip_stops.
Proof.
  unfold coords_of, stop_list_of.
  induction trip_stops as [|g l IH]; [reflexivity|]. csimpl.
  destruct (g_stop_lon g), (g_stop_lat g); csimpl; rewrite IH; reflexivity.
Qed.

(** X9. In every feature of the interactive map the stop count, the
    coordinate list and the list of stop markers agree: the count is the
    number of coordinates, and the coordinates are the longitude and
    latitude of the markers, one by one. *)
Theorem feature_lists_agree
    (stops : list stop_row) (stop_times : list stop_time_row)
    (rep_trips : list rep_trip_row) (routes : list route_row) (f : feature) :
  f ∈ _create_geojson_features
        (_build_route_geometries stops stop_times rep_trips) routes ->
  stops_count f = length (coordinates f)
  /\ coordinates f = (fun sd => (sd_lon sd, sd_lat sd)) <$> f_stop_list f
  /\ length (f_stop_list f) = length (coordinates f).
Proof.
  intros (row & _ & Hc & Hs & Hn)%feature_from_trip.
  rewrite Hc, Hs, Hn. split; [reflexivity|].
  split; [apply coords_of_stop_list_of|].
  rewrite coords_of_stop_list_of, length_fmap. reflexivity.
Qed.

Lemma elem_of_coords_of trip_stops lon lat :
  (lon, lat) ∈ coords_of trip_stops ->
  exists g, g ∈ trip_stops /\ g_stop_lon g = Some lon /\ g_stop_lat g = Some lat.
Proof.
  unfold coords_of. intros (g & Hg & Hc)%list_elem_of_omap.
  exists g. split; [exact Hg|].
  destruct (g_stop_lon g), (g_stop_lat g); try discriminate.
  injection Hc as -> ->. auto.
Qed.

Lemma elem_of_merge_stops stops tid sid seq g lon lat :
  g ∈ merge_stops stops tid sid seq ->
  g_stop_lon g = Some lon -> g_stop_lat g = Some lat ->
  exists sr, sr ∈ stops /\ sid = Some (stop_id sr)
             /\ stop_lon sr = Some lon /\ stop_lat sr = Some lat.
Proof.
  unfold merge_stops. destruct sid as [s|].
  - destruct (filter (fun sr => stop_id sr = s) stops) as [|sr0 matches] eqn:E.
    + intros ->%list_elem_of_singleton. discriminate.
    + intros (sr & -> & Hsr)%list_elem_of_fmap. simpl. intros Hlon Hlat.
      rewrite <- E in Hsr. apply list_elem_of_filter in Hsr as [<- Hsr].
      exists sr. auto.
  - intros ->%list_elem_of_singleton. discriminate.
Qed.

(** X10. Every coordinate of every feature is the parsed longitude and
    latitude of a row of the stops table, for a stop that a
    representative trip visits. *)
Theorem feature_coordinates_from_stops
    (stops : list stop_row) (stop_times : list stop_time_row)
    (rep_trips : list rep_trip_row) (routes : list route_row)
    (f : feature) (lon lat : Q) :
  f ∈ _create_geojson_features
        (_build_route_geometries stops stop_times rep_trips) routes ->
  (lon, lat) ∈ coordinates f ->
  exists sr st row,
    sr ∈ stops /\ stop_lon sr = Some lon /\ stop_lat sr = Some lat
    /\ st ∈ stop_times /\ st_stop_id st = Some (stop_id sr)
    /\ row ∈ rep_trips /\ st_trip_id st = rt_trip_id row.
Proof.
  intros (row & Hrow & Hc & _)%feature_from_trip Hin.
  rewrite Hc in Hin. apply elem_of_coords_of in Hin as (g & Hg & Hlon & Hlat).
  apply trip_stops_of_elem in Hg as [Hg Htid].
  unfold st_geo_of in Hg. apply list_elem_of_bind in Hg as (st & Hg & Hst).
  apply list_elem_of_filter in Hst as [_ Hst].
  pose proof (merge_stops_trip _ _ _ _ _ Hg) as Htrip.
  destruct (elem_of_merge_stops _ _ _ _ _ _ _ Hg Hlon Hlat)
    as (sr & Hsr & Hsid & Hl1 & Hl2).
  exists sr, st, row. repeat split; try assumption. congruence.
Qed.

Lemma by_stop_sequence_total a b :
  by_stop_sequence a b = true \/ by_stop_sequence b a = true.
Proof. unfold by_stop_sequence. rewrite !Z.leb_le. lia. Qed.

Lemma by_stop_sequence_trans a b c :
  by_stop_sequence a b = true -> by_stop_sequence b c = true ->
  by_stop_sequence a c = true.
Proof. unfold by_stop_sequence. rewrite !Z.leb_le. lia. Qed.

Lemma astype_int_id (z : Z) :
  (- 2 ^ 63 <= z < 2 ^ 63)%Z -> astype_int z = z.
Proof.
  intros Hz. unfold astype_int. rewrite Z.mod_small; lia.
Qed.

Lemma merge_stops_row stops tid sid seq g :
  g ∈ merge_stops stops tid sid seq ->
  g_stop_id g = sid /\ g_stop_sequence g = seq.
Proof.
  unfold merge_stops. destruct sid as [s|].
  - destruct (filter _ stops) as [|sr matches].
    + intros ->%list_elem_of_singleton. auto.
    + intros (sr' & -> & _)%list_elem_of_fmap. auto.
  - intros ->%list_elem_of_singleton. auto.
Qed.

(** X11. When every sequence number is a 64-bit signed integer, the
    coordinates of every feature follow the stop visits of one
    representative trip in ascending sequence number, a missing sequence
    number counting as 0: the rows read are those of the trip, each with
    the stop and the sequence number of one of its visits, in an order
    in which the sequence numbers never decrease; the visits without a
    parseable coordinate are left out and nothing is put in their
    place. *)
Theorem feature_coordinates_in_sequence
    (stops : list stop_row) (stop_times : list stop_time_row)
    (rep_trips : list rep_trip_row) (routes : list route_row) (f : feature) :
  Forall Spec.sequence_in_int64 stop_times ->
  f ∈ _create_geojson_features
        (_build_route_geometries stops stop_times rep_trips) routes ->
  exists row trip_stops,
    row ∈ rep_trips
    /\ trip_stops ≡ₚ filter (fun g => g_trip_id g = rt_trip_id row)
                       (st_geo_of stops stop_times rep_trips)
    /\ StronglySorted (fun a b => (g_stop_sequence a <= g_stop_sequence b)%Z)
         trip_stops
    /\ Forall (fun g => exists st,
                  st ∈ stop_times /\ st_trip_id st = rt_trip_id row
                  /\ g_stop_id g = st_stop_id st
                  /\ g_stop_sequence g = default 0%Z (stop_sequence st))
         trip_stops
    /\ coordinates f = coords_of trip_stops.
Proof.
  intros Hrange (row & Hrow & Hc & _)%feature_from_trip.
  exists row, (trip_stops_of (st_geo_of stops stop_times rep_trips) (rt_trip_id row)).
  split; [exact Hrow|]. split; [apply stable_sort_perm|].
  split; [|split; [|exact Hc]].
  - unfold trip_stops_of.
    pose proof (stable_sort_sorted by_stop_sequence by_stop_sequence_total
                  by_stop_sequence_trans
                  (filter (fun g => g_trip_id g = rt_trip_id row)
                          (st_geo_of stops stop_times rep_trips))) as Hs.
    induction Hs as [|a l Hs IH Hall]; constructor; [exact IH|].
    eapply Forall_impl; [exact Hall|]. intros b Hb.
    unfold by_stop_sequence in Hb. apply Z.leb_le in Hb. exact Hb.
  - apply Forall_forall. intros g Hg.
    apply trip_stops_of_elem in Hg as [Hg Htid].
    unfold st_geo_of in Hg. apply list_elem_of_bind in Hg as (st & Hg & Hst).
    apply list_elem_of_filter in Hst as [_ Hst].
    pose proof (merge_stops_trip _ _ _ _ _ Hg) as Htrip.
    apply merge_stops_row in Hg as [Hsid Hseq].
    exists st. split; [exact Hst|]. split; [congruence|]. split; [exact Hsid|].
    rewrite Hseq. apply astype_int_id.
    rewrite Forall_forall in Hrange. specialize (Hrange st Hst).
    unfold Spec.sequence_in_int64 in Hrange.
    destruct (stop_sequence st) as [q|]; simpl; [exact Hrange|lia].
Qed.

Lemma split_inbound_feature_elem :
  Samples.split_inbound_feature
  ∈ _create_geojson_features
      (_build_route_geometries Samples.split_stops Samples.split_stop_times
         (get_representative_trips Samples.split_trips Samples.split_stop_times))
      Samples.split_routes.
Proof. vm_compute. apply elem_of_cons. left. reflexivity. Qed.

Lemma feature_lists_agree_witness :
  stops_count Samples.split_inbound_feature
  = length (coordinates Samples.split_inbound_feature).
Proof.
  exact (proj1 (feature_lists_agree _ _ _ _ _ split_inbound_feature_elem)).
Defined.

Lemma feature_coordinates_from_stops_witness :
  exists sr st, sr ∈ Samples.split_stops /\ stop_lon sr = Some (80 # 1)%Q
                /\ st ∈ Samples.split_stop_times
                /\ st_stop_id st = Some (stop_id sr).
Proof.
  destruct (feature_coordinates_from_stops _ _ _ _ _ (80 # 1)%Q (18 # 1)%Q
              split_inbound_feature_elem)
    as (sr & st & row & Hsr & Hlon & _ & Hst & Hid & _).
  - apply elem_of_cons. left. reflexivity.
  - exists sr, st. auto.
Defined.

Lemma feature_coordinates_in_sequence_witness :
  exists trip_stops,
    StronglySorted (fun a b => (g_stop_sequence a <= g_stop_sequence b)%Z) trip_stops
    /\ coordinates Samples.split_inbound_feature = coords_of trip_stops.
Proof.
  destruct (feature_coordinates_in_sequence Samples.split_stops
              Samples.split_stop_times
              (get_representative_trips Samples.split_trips Samples.split_stop_times)
              Samples.split_routes Samples.split_inbound_feature)
    as (row & trip_stops & _ & _ & Hs & _ & Hc).
  - unfold Samples.split_stop_times.
    repeat (apply List.Forall_cons; [vm_compute; split; [discriminate|reflexivity]|]).
    apply List.Forall_nil.
  - exact split_inbound_feature_elem.
  - exists trip_stops. auto.
Defined.

End FeatureFacts.

(** ** The number of features *)

Module PipelineFacts.
Import Prim PrimFacts Feed Loader LoaderFacts StopJoin InteractiveMap
       GeometryFacts FeatureFacts.

Lemma dict_set_fresh {K V : Type} `{EqDecision K} (k : K) (v : V) (d : list (K * V)) :
  dict_get k d = None -> dict_set k v d = d ++ [(k, v)].
Proof.
  induction d as [|[k0 v0] d IH]; simpl; [reflexivity|].
  destruct (decide (k = k0)); [discriminate|].
  intros H. rewrite IH by exact H. reflexivity.
Qed.

Lemma length_dict_set {K V : Type} `{EqDecision K} (k : K) (v : V) (d : list (K * V)) :
  (length (dict_set k v d) <= S (length d))%nat.
Proof.
  induction d as [|[k0 v0] d IH]; simpl; [lia|].
  destruct (decide (k = k0)); simpl; lia.
Qed.

Lemma sum_dict_set {K V : Type} `{EqDecision K} (h : V -> nat) (k : K) (v : V)
    (d : list (K * V)) :
  sum_list_with (fun e => h e.2) (dict_set k v d)
    + from_option h 0%nat (dict_get k d)
  = (sum_list_with (fun e => h e.2) d + h v)%nat.
Proof.
  induction d as [|[k0 v0] d IH]; simpl; [lia|].
  destruct (decide (k = k0)); simpl; lia.
Qed.

(** The representative trips of the loader have distinct keys and at
    least one stop visit each. *)
Lemma loader_rep_trips trips stop_times :
  NoDup (route_direction <$> get_representative_trips trips stop_times)
  /\ forall row, row ∈ get_representative_trips trips stop_times ->
       (0 < visit_count stop_times (rt_trip_id row))%nat.
Proof.
  unfold get_representative_trips, drop_duplicates.
  split; [apply drop_duplicates_from_NoDup|].
  intros row Hrow. apply drop_duplicates_from_elem in Hrow.
  apply elem_of_stable_sort, elem_of_trips_enriched in Hrow
    as (t & _ & Hpos & ->). exact Hpos.
Qed.

(** With distinct keys and no trip without a joined row, the loop stores
    one geometry per representative trip, in the order of the trips. *)
Lemma foldl_add_geometry_closed st_geo rows :
  NoDup (route_direction <$> rows) ->
  (forall row, row ∈ rows -> trip_stops_of st_geo (rt_trip_id row) <> []) ->
  foldl (add_geometry st_geo) [] rows
  = (fun row => (route_direction row,
                 geometry_of (trip_stops_of st_geo (rt_trip_id row)))) <$> rows.
Proof.
  induction rows as [|r rows IH] using rev_ind; intros Hnd Hne; [reflexivity|].
  rewrite fmap_app in Hnd. apply NoDup_app in Hnd as (Hnd & Hfresh & _).
  assert (Hprev : foldl (add_geometry st_geo) [] rows
                  = (fun row => (route_direction row,
                       geometry_of (trip_stops_of st_geo (rt_trip_id row)))) <$> rows).
  { apply IH; [exact Hnd|]. intros row Hrow. apply Hne, elem_of_app. auto. }
  rewrite foldl_snoc, fmap_snoc, Hprev.
  unfold add_geometry at 1.
  destruct (trip_stops_of st_geo (rt_trip_id r)) as [|x l] eqn:E.
  { exfalso. apply (Hne r); [|exact E].
    apply elem_of_app. right. apply elem_of_cons. auto. }
  rewrite dict_set_fresh; [reflexivity|].
  apply dict_get_None. intros v Hin.
  apply list_elem_of_fmap in Hin as (row & Heq & Hrow).
  assert (Hk : route_direction row = route_direction r).
  { unfold route_direction in *. congruence. }
  apply (Hfresh (route_direction row)).
  - apply list_elem_of_fmap_2. exact Hrow.
  - rewrite Hk. apply elem_of_cons. auto.
Qed.

Lemma rep_trip_has_rows stops stop_times rep_trips row :
  row ∈ rep_trips ->
  (0 < visit_count stop_times (rt_trip_id row))%nat ->
  trip_stops_of (st_geo_of stops stop_times rep_trips) (rt_trip_id row) <> [].
Proof.
  intros Hrow Hpos. apply trip_stops_of_not_nil, st_geo_of_trip.
  split; [apply list_elem_of_fmap_2; exact Hrow|exact Hpos].
Qed.

Lemma route_directions_of_total geometries :
  (sum_list_with (fun e : string * list (string * geometry) => length e.2)
     (route_directions_of geometries) <= length geometries)%nat.
Proof.
  induction geometries as [|[[rid dir] data] geometries IH] using rev_ind;
    [simpl; lia|].
  rewrite route_directions_of_snoc, length_app. simpl.
  pose proof (sum_dict_set (fun dirs : list (string * geometry) => length dirs) rid
                (dict_set dir data
                   (default [] (dict_get rid (route_directions_of geometries))))
                (route_directions_of geometries)) as Hsum.
  pose proof (length_dict_set dir data
                (default [] (dict_get rid (route_directions_of geometries)))) as Hlen.
  destruct (dict_get rid (route_directions_of geometries)); simpl in *; lia.
Qed.

Lemma route_directions_of_not_nil geometries :
  Forall (fun e : string * list (string * geometry) => e.2 <> [])
         (route_directions_of geometries).
Proof.
  induction geometries as [|[[rid dir] data] geometries IH] using rev_ind;
    [constructor|].
  rewrite route_directions_of_snoc. apply Forall_forall.
  intros [rid' dirs] [Heq|Hin]%elem_of_dict_set.
  - injection Heq as -> ->. simpl. apply dict_set_not_nil.
  - rewrite Forall_forall in IH. exact (IH _ Hin).
Qed.

Lemma length_route_features names rid (directions : list (string * geometry)) :
  directions <> [] ->
  (1 <= length (route_features names (rid, directions)) <= length directions)%nat.
Proof.
  intros Hne. rewrite MergeFacts.interactive_route_features_length.
  destruct directions; [contradiction|].
  destruct (merged_feature _ _ _); simpl; lia.
Qed.

Lemma length_features_bounds names
    (route_directions : list (string * list (string * geometry))) :
  Forall (fun e => e.2 <> []) route_directions ->
  (length route_directions
   <= length (route_directions ≫= route_features names)
   <= sum_list_with (fun e => length e.2) route_directions)%nat.
Proof.
  induction 1 as [|[rid dirs] l Hne _ IH]; [simpl; lia|].
  rewrite bind_cons, length_app.
  pose proof (length_route_features names rid dirs Hne).
  cbn [sum_list_with length snd] in *. lia.
Qed.

(** X12. From the tables of a feed, no representative trip is skipped:
    one geometry is stored per representative trip. The interactive map
    then has at least one feature per route with a representative trip
    and at most one feature per representative trip. *)
Theorem feature_count_bounds
    (stops : list stop_row) (stop_times : list stop_time_row)
    (trips : list trip_row) (routes : list route_row) :
  let rep_trips := get_representative_trips trips stop_times in
  let geometries := _build_route_geometries stops stop_times rep_trips in
  let features := generate_features stops stop_times trips routes in
  length geometries = length rep_trips
  /\ (length (route_directions_of geometries) <= length features)%nat
  /\ (length features <= length rep_trips)%nat.
Proof.
  intros rep_trips geometries features.
  destruct (loader_rep_trips trips stop_times) as [Hnd Hvisited].
  assert (Hlen : length geometries = length rep_trips).
  { unfold geometries, _build_route_geometries.
    rewrite foldl_add_geometry_closed; [apply length_fmap|exact Hnd|].
    intros row Hrow. apply rep_trip_has_rows; [exact Hrow|apply Hvisited, Hrow]. }
  split; [exact Hlen|].
  unfold features, generate_features, _create_geojson_features.
  fold rep_trips. fold geometries. rewrite length_stable_sort.
  pose proof (length_features_bounds (route_names_of routes) _
                (route_directions_of_not_nil geometries)) as Hb.
  pose proof (route_directions_of_total geometries) as Ht.
  rewrite <- Hlen. lia.
Qed.

End PipelineFacts.

(** ** The network map against the interactive map *)

Module CompareFacts.
Import Prim PrimFacts Feed Loader LoaderFacts StopJoin GeometryFacts
       PipelineFacts Compare.

Lemma dict_get_values {K V W : Type} `{EqDecision K} (h : V -> W) (k : K)
    (d : list (K * V)) :
  dict_get k (prod_map id h <$> d) = h <$> dict_get k d.
Proof.
  induction d as [|[k0 v0] d IH]; [reflexivity|]. csimpl.
  destruct (decide (k = k0)); [reflexivity|exact IH].
Qed.

Lemma dict_set_values {K V W : Type} `{EqDecision K} (h : V -> W) (k : K) (v : V)
    (d : list (K * V)) :
  dict_set k (h v) (prod_map id h <$> d) = prod_map id h <$> dict_set k v d.
Proof.
  induction d as [|[k0 v0] d IH]; [reflexivity|]. csimpl.
  destruct (decide (k = k0)); csimpl; [reflexivity|]. rewrite IH. reflexivity.
Qed.

Lemma stable_sort_fmap {A B : Type} (f : A -> B) (le : B -> B -> bool) (l : list A) :
  f <$> stable_sort (fun a b => le (f a) (f b)) l = stable_sort le (f <$> l).
Proof.
  assert (Hins : forall x s,
            f <$> insert_sorted (fun a b => le (f a) (f b)) x s
            = insert_sorted le (f x) (f <$> s)).
  { intros x s. induction s as [|y s IH]; [reflexivity|]. csimpl.
    destruct (le (f x) (f y)); csimpl; [reflexivity|]. rewrite IH. reflexivity. }
  induction l as [|x l IH]; [reflexivity|]. csimpl. rewrite Hins, IH. reflexivity.
Qed.

(** When the network map gets through [astype(int)], it joins the same
    rows as the interactive map. *)
Lemma st_geo_of_agree stops stop_times rep_trips st_geo :
  NetworkMap.st_geo_of stops stop_times rep_trips = Some st_geo ->
  st_geo = InteractiveMap.st_geo_of stops stop_times rep_trips.
Proof.
  unfold NetworkMap.st_geo_of, InteractiveMap.st_geo_of.
  destruct (mapM _ _) as [parts|] eqn:Hm; [|discriminate].
  intros [= <-]. apply mapM_Some_1 in Hm.
  induction Hm as [|st part sts parts Hst _ IH]; [reflexivity|].
  rewrite bind_cons. csimpl. rewrite IH.
  destruct (stop_sequence st) as [q|]; [|discriminate].
  injection Hst as <-. reflexivity.
Qed.

Lemma st_geo_of_defined stops stop_times rep_trips :
  (forall st, st ∈ stop_times -> is_Some (stop_sequence st)) ->
  is_Some (NetworkMap.st_geo_of stops stop_times rep_trips).
Proof.
  intros Hseq. unfold NetworkMap.st_geo_of.
  apply fmap_is_Some, mapM_is_Some_2, Forall_forall.
  intros st [_ Hst]%list_elem_of_filter. simpl. apply fmap_is_Some, Hseq, Hst.
Qed.

(** The loop of the network map fills [route_directions] like the two
    loops of the interactive map. *)
Lemma network_route_directions st_geo rows :
  (forall row, row ∈ rows -> trip_stops_of st_geo (rt_trip_id row) <> []) ->
  foldl (NetworkMap.add_direction st_geo) [] rows
  = strip_route_directions
      (InteractiveMap.route_directions_of
         ((fun row => (route_direction row,
                       InteractiveMap.geometry_of
                         (trip_stops_of st_geo (rt_trip_id row)))) <$> rows)).
Proof.
  induction rows as [|r rows IH] using rev_ind; intros Hne; [reflexivity|].
  rewrite foldl_snoc, fmap_snoc, IH.
  2: { intros row Hrow. apply Hne, elem_of_app. auto. }
  change (route_direction r) with (rt_route_id r, rt_direction_id r).
  rewrite route_directions_of_snoc. unfold NetworkMap.add_direction.
  destruct (trip_stops_of st_geo (rt_trip_id r)) as [|x l] eqn:E.
  { exfalso. apply (Hne r); [|exact E].
    apply elem_of_app. right. apply elem_of_cons. auto. }
  unfold strip_route_directions.
  rewrite dict_get_values, <- dict_set_values. f_equal.
  unfold strip_directions. rewrite <- dict_set_values. f_equal.
  destruct (dict_get (rt_route_id r) _); reflexivity.
Qed.

Lemma route_features_agree names rid
    (directions : list (string * InteractiveMap.geometry)) :
  network_summary <$> NetworkMap.route_features names (rid, strip_directions directions)
  = interactive_summary <$> InteractiveMap.route_features names (rid, directions).
Proof.
  unfold NetworkMap.route_features, InteractiveMap.route_features.
  unfold NetworkMap.merged_feature, InteractiveMap.merged_feature.
  unfold strip_directions. rewrite !dict_get_values.
  assert (Hone : network_summary
                   <$> (NetworkMap.one_way_feature (default rid (dict_get rid names))
                          <$> (prod_map id strip_geometry <$> directions))
                 = interactive_summary
                     <$> (InteractiveMap.one_way_feature rid
                            (default rid (dict_get rid names)) <$> directions)).
  { induction directions as [|[dir g] directions IHd]; [reflexivity|].
    rewrite !fmap_cons, IHd. f_equal.
    unfold network_summary, interactive_summary. simpl.
    destruct (String.eqb dir "0"); reflexivity. }
  destruct (dict_get "0" directions) as [d0|]; [|exact Hone].
  destruct (dict_get "1" directions) as [d1|]; [|exact Hone].
  simpl. destruct (Qlt_le_dec _ _); [|exact Hone].
  destruct (InteractiveMap.count d1 <=? InteractiveMap.count d0)%nat; reflexivity.
Qed.

Lemma features_agree names
    (route_directions : list (string * list (string * InteractiveMap.geometry))) :
  network_summary
    <$> (strip_route_directions route_directions ≫= NetworkMap.route_features names)
  = interactive_summary
      <$> (route_directions ≫= InteractiveMap.route_features names).
Proof.
  induction route_directions as [|[rid dirs] l IH]; [reflexivity|].
  unfold strip_route_directions in *. rewrite fmap_cons, !bind_cons, !fmap_app, IH.
  f_equal. apply route_features_agree.
Qed.

(** X13. Whenever the network map is built, the interactive map shows
    the same features, with the same route names, search labels, stop
    counts and coordinates: they are the features of the network map put
    in ascending order of the label. The network map is built as soon as
    every stop visit has a sequence number. *)
Theorem network_and_interactive_agree
    (stops : list stop_row) (stop_times : list stop_time_row)
    (trips : list trip_row) (routes : list route_row) :
  (forall features,
      NetworkMap._build_features stops stop_times trips routes = Some features ->
      interactive_summary
        <$> InteractiveMap.generate_features stops stop_times trips routes
      = stable_sort by_label (network_summary <$> features))
  /\ ((forall st, st ∈ stop_times -> is_Some (stop_sequence st)) ->
      is_Some (NetworkMap._build_features stops stop_times trips routes)).
Proof.
  split.
  - intros features. unfold NetworkMap._build_features.
    destruct (NetworkMap.st_geo_of stops stop_times
                (get_representative_trips trips stop_times)) as [st_geo|] eqn:Hsg;
      [|discriminate].
    simpl. intros [= <-]. apply st_geo_of_agree in Hsg. subst st_geo.
    destruct (loader_rep_trips trips stop_times) as [Hnd Hvisited].
    assert (Hne : forall row,
              row ∈ get_representative_trips trips stop_times ->
              trip_stops_of
                (InteractiveMap.st_geo_of stops stop_times
                   (get_representative_trips trips stop_times))
                (rt_trip_id row) <> []).
    { intros row Hrow. apply rep_trip_has_rows; [exact Hrow|apply Hvisited, Hrow]. }
    rewrite network_route_directions by exact Hne. rewrite features_agree.
    unfold InteractiveMap.generate_features, InteractiveMap._create_geojson_features,
      InteractiveMap._build_route_geometries.
    rewrite foldl_add_geometry_closed by assumption.
    apply (stable_sort_fmap interactive_summary by_label).
  - intros Hseq. unfold NetworkMap._build_features.
    destruct (st_geo_of_defined stops stop_times
                (get_representative_trips trips stop_times) Hseq) as [st_geo ->].
    simpl. eexists. reflexivity.
Qed.

Lemma network_and_interactive_agree_witness :
  exists features,
    NetworkMap._build_features Samples.split_stops Samples.split_stop_times
      Samples.split_trips Samples.split_routes = Some features
    /\ interactive_summary
         <$> InteractiveMap.generate_features Samples.split_stops
               Samples.split_stop_times Samples.split_trips Samples.split_routes
       = stable_sort by_label (network_summary <$> features).
Proof.
  destruct (proj2 (network_and_interactive_agree Samples.split_stops
                     Samples.split_stop_times Samples.split_trips
                     Samples.split_routes)) as [features Hf].
  - intros st Hst. vm_compute in Hst.
    repeat (apply elem_of_cons in Hst as [->|Hst]; [eexists; reflexivity|]).
    apply elem_of_nil in Hst. contradiction.
  - exists features. split; [exact Hf|].
    apply (proj1 (network_and_interactive_agree _ _ _ _) features Hf).
Defined.

End CompareFacts.

(** ** The itineraries returned by [findRoutesRaptor] *)

Module RaptorFacts.
Import Prim PrimFacts Loader LoaderFacts Raptor Spec DirectFacts RankingFacts
       RepresentativeFacts Journey.

Lemma elem_of_new_Set (l : list string) (x : string) : x ∈ new_Set l <-> x ∈ l.
Proof.
  unfold new_Set, drop_duplicates. split.
  - apply drop_duplicates_from_elem.
  - intros Hx.
    destruct (drop_duplicates_from_covers (fun x : string => x) [] l x Hx)
      as (r & Hr & ->); [apply not_elem_of_nil|exact Hr].
Qed.

Lemma or_empty_lookup {A} (x : option (list A)) (i : nat) (a : A) :
  or_empty x !! i = Some a -> x = Some (or_empty x).
Proof. destruct x; [reflexivity|discriminate]. Qed.

(** The itinerary pushed for a direct route. *)
Lemma direct_itinerary_elem (DATA : data) (originStops destStops : gset string)
    (route : string) (r : itinerary) :
  direct_itinerary DATA originStops destStops route = Some (Some r) ->
  exists (stops : list string) (o d : nat) (so sd : string),
    routeStops DATA !! route = Some stops
    /\ (o < d)%nat
    /\ stops !! o = Some so /\ so ∈ originStops
    /\ stops !! d = Some sd /\ sd ∈ destStops
    /\ r = {| type := direct; routes := [route];
              segments := [ {| routeId := route; startIdx := Z.of_nat o;
                               endIdx := Z.of_nat d |} ];
              transfers := 0;
              duration := leg_duration (or_empty (routeTravelTimes DATA !! route))
                            (Z.of_nat o) (Z.of_nat d);
              stopCount := Some (Z.of_nat d - Z.of_nat o + 1)%Z;
              originStopId := Some so; destStopId := Some sd;
              transferLoc := None; transferStopId := None |}.
Proof.
  unfold direct_itinerary.
  destruct (routeStops DATA !! route) as [stops|] eqn:Hstops; [|discriminate].
  simpl. pose proof (scan_from_result originStops destStops stops) as Hscan.
  set (st := scan_from originStops destStops scan_init 0 stops) in *.
  destruct ((0 <=? originIdx st)%Z && (originIdx st <? destIdx st)%Z) eqn:E;
    [|discriminate].
  apply andb_true_iff in E as [E1 E2].
  apply Z.leb_le in E1. apply Z.ltb_lt in E2.
  intros [= <-].
  destruct Hscan as [(Ho & _)|(o & so & Ho & Hso & Hlo & Hino & _ & Hdest)];
    [lia|].
  destruct Hdest as [(Hd & _)|(d & sd & Hd & Hsd & Hod & Hld & Hind & _)];
    [lia|].
  exists stops, o, d, so, sd. rewrite Ho, Hd, Hso, Hsd.
  repeat (split; [first [reflexivity|assumption]|]). reflexivity.
Qed.

(** The itineraries pushed for a first route [route1]. *)
Lemma transfer_itineraries_elem (DATA : data) (originStops destStops : gset string)
    (destRoutes : list string) (route1 : string) (r : itinerary) :
  r ∈ transfer_itineraries DATA originStops destStops destRoutes route1 ->
  exists (stops1 stops2 : list string) (route2 : string) (o i t d : nat)
         (so change sd : string),
    routeStops DATA !! route1 = Some stops1
    /\ routeStops DATA !! route2 = Some stops2
    /\ route2 <> route1 /\ route2 ∈ destRoutes
    /\ stops1 !! o = Some so /\ so ∈ originStops
    /\ (o < i < o + 20)%nat
    /\ stops1 !! i = Some change /\ stops2 !! t = Some change
    /\ (t < d)%nat
    /\ stops2 !! d = Some sd /\ sd ∈ destStops
    /\ r = {| type := transfer; routes := [route1; route2];
              segments := [ {| routeId := route1; startIdx := Z.of_nat o;
                               endIdx := Z.of_nat i |};
                            {| routeId := route2; startIdx := Z.of_nat t;
                               endIdx := Z.of_nat d |} ];
              transfers := 1;
              duration :=
                (leg_duration (or_empty (routeTravelTimes DATA !! route1))
                   (Z.of_nat o) (Z.of_nat i)
                 + 5
                 + leg_duration (or_empty (routeTravelTimes DATA !! route2))
                     (Z.of_nat t) (Z.of_nat d))%Z;
              stopCount := None;
              originStopId := Some so; destStopId := Some sd;
              transferLoc := stopBaseNames DATA !! change;
              transferStopId := Some change |}.
Proof.
  unfold transfer_itineraries.
  destruct (list_find _ _) as [[o so]|] eqn:Hfind;
    [|intros Hr; apply elem_of_nil in Hr; contradiction].
  apply list_find_Some in Hfind as (Hlo & Hino & _).
  pose proof (or_empty_lookup _ _ _ Hlo) as Hstops1.
  set (stops1 := or_empty (routeStops DATA !! route1)) in *.
  intros Hr. apply list_elem_of_bind in Hr as (i & Hr & Hi).
  apply elem_of_seq in Hi.
  destruct (stops1 !! i) as [change|] eqn:Hli;
    [|apply elem_of_nil in Hr; contradiction].
  apply list_elem_of_bind in Hr as (route2 & Hr & _).
  unfold transfer_itinerary in Hr.
  destruct (bool_decide (route2 = route1)) eqn:Eneq;
    [apply elem_of_nil in Hr; contradiction|].
  apply bool_decide_eq_false in Eneq.
  destruct (bool_decide (route2 ∈ destRoutes)) eqn:Edest; simpl in Hr;
    [|apply elem_of_nil in Hr; contradiction].
  apply bool_decide_eq_true in Edest.
  destruct (indexOf _ change) as [t|] eqn:Hidx;
    [|apply elem_of_nil in Hr; contradiction].
  unfold indexOf in Hidx.
  destruct (list_find (fun s => s = change) _) as [[t' x]|] eqn:Hfind2;
    [|discriminate].
  injection Hidx as ->.
  apply list_find_Some in Hfind2 as (Hlt & -> & _).
  pose proof (or_empty_lookup _ _ _ Hlt) as Hstops2.
  set (stops2 := or_empty (routeStops DATA !! route2)) in *.
  destruct (list_find (fun s => s ∈ destStops) _) as [[k sd]|] eqn:Hfind3;
    [|apply elem_of_nil in Hr; contradiction].
  apply list_find_Some in Hfind3 as (Hld & Hind & _).
  rewrite lookup_drop in Hld.
  apply list_elem_of_singleton in Hr.
  exists stops1, stops2, route2, o, i, t, (S t + k)%nat, so, change, sd.
  split; [exact Hstops1|]. split; [exact Hstops2|].
  split; [exact Eneq|]. split; [exact Edest|].
  split; [exact Hlo|]. split; [exact Hino|].
  split; [lia|]. split; [exact Hli|]. split; [exact Hlt|].
  split; [lia|]. split; [exact Hld|]. split; [exact Hind|]. exact Hr.
Qed.

(** Where an itinerary of the result comes from. *)
Lemma findRoutesRaptor_elem (DATA : data) (originLoc destLoc : string)
    (result : list itinerary) (r : itinerary) :
  findRoutesRaptor DATA originLoc destLoc = Some result ->
  r ∈ result ->
  let originStops : gset string :=
    list_to_set (or_empty (locationStops DATA !! originLoc)) in
  let destStops : gset string :=
    list_to_set (or_empty (locationStops DATA !! destLoc)) in
  let originRoutes := or_empty (locationRoutes DATA !! originLoc) in
  let destRoutes := or_empty (locationRoutes DATA !! destLoc) in
  (exists route,
      route ∈ originRoutes /\ route ∈ destRoutes
      /\ direct_itinerary DATA originStops destStops route = Some (Some r))
  \/ (exists route1,
         route1 ∈ originRoutes
         /\ r ∈ transfer_itineraries DATA originStops destStops
                  (new_Set destRoutes) route1).
Proof.
  unfold findRoutesRaptor. intros Hres Hr. cbv zeta.
  destruct (bool_decide _ || bool_decide _).
  { injection Hres as <-. apply elem_of_nil in Hr. contradiction. }
  destruct (mapM _ _) as [found|] eqn:Hfound; [|discriminate].
  simpl in Hres. injection Hres as <-.
  unfold sort_and_dedupe in Hr.
  eapply elem_of_sublist in Hr; [|apply dedupe_sublist].
  apply elem_of_stable_sort in Hr.
  assert (Hdirect : r ∈ omap (fun x => x) found ->
            exists route,
              route ∈ or_empty (locationRoutes DATA !! originLoc)
              /\ route ∈ or_empty (locationRoutes DATA !! destLoc)
              /\ direct_itinerary DATA
                   (list_to_set (or_empty (locationStops DATA !! originLoc)))
                   (list_to_set (or_empty (locationStops DATA !! destLoc)))
                   route = Some (Some r)).
  { intros Hin. apply list_elem_of_omap in Hin as (x & Hx & ->).
    apply mapM_Some_1 in Hfound.
    apply list_elem_of_lookup_1 in Hx as [i Hi].
    destruct (Forall2_lookup_r _ _ _ _ _ Hfound Hi) as (route & Hroute & Hit).
    apply list_elem_of_lookup_2 in Hroute.
    apply list_elem_of_filter in Hroute as [Hd Ho].
    rewrite elem_of_new_Set in Hd. rewrite elem_of_new_Set in Ho.
    exists route. split; [exact Ho|]. split; [exact Hd|exact Hit]. }
  destruct (length (omap (fun x => x) found) <? 3)%nat; [|left; auto].
  apply elem_of_app in Hr as [Hr|Hr]; [left; auto|]. right.
  apply list_elem_of_bind in Hr as (route1 & Hr & Ho).
  rewrite elem_of_new_Set in Ho. exists route1. split; assumption.
Qed.

(** X14. Every itinerary returned is a journey over the stop sequences
    of the data: it boards at a stop of the origin place and alights at a
    stop of the destination place, by one ride down one route, or by two
    rides on two different routes that meet at the same stop, the first
    ride at most nineteen hops long. Its first route serves the origin
    place and its last route the destination place. *)
Theorem itineraries_are_journeys (DATA : data) (originLoc destLoc : string)
    (result : list itinerary) (r : itinerary) :
  findRoutesRaptor DATA originLoc destLoc = Some result ->
  r ∈ result ->
  journey DATA (list_to_set (or_empty (locationStops DATA !! originLoc)))
    (list_to_set (or_empty (locationStops DATA !! destLoc))) r
  /\ (exists first, head (routes r) = Some first
        /\ first ∈ or_empty (locationRoutes DATA !! originLoc))
  /\ (exists final, last (routes r) = Some final
        /\ final ∈ or_empty (locationRoutes DATA !! destLoc)).
Proof.
  intros Hres Hr.
  destruct (findRoutesRaptor_elem _ _ _ _ _ Hres Hr)
    as [(route & Ho & Hd & Hit)|(route1 & Ho & Hit)].
  - apply direct_itinerary_elem in Hit
      as (stops & o & d & so & sd & Hstops & Hod & Hlo & Hino & Hld & Hind & ->).
    split; [|split; simpl; eauto].
    exists so, sd. simpl.
    repeat (split; [first [reflexivity|assumption]|]).
    exists stops, o, d. simpl. auto 10.
  - apply transfer_itineraries_elem in Hit
      as (stops1 & stops2 & route2 & o & i & t & d & so & change & sd
          & Hs1 & Hs2 & Hneq & Hdest & Hlo & Hino & Hi & Hli & Hlt & Htd
          & Hld & Hind & ->).
    rewrite elem_of_new_Set in Hdest.
    split; [|split; simpl; eauto].
    exists so, sd. simpl.
    repeat (split; [first [reflexivity|assumption]|]).
    split; [congruence|]. exists change.
    split; [reflexivity|]. split; [|split; [|lia]].
    + exists stops1, o, i. simpl.
      repeat (split; [first [reflexivity|assumption|lia]|]). exact Hli.
    + exists stops2, t, d. simpl.
      repeat (split; [first [reflexivity|assumption|lia]|]). exact Hld.
Qed.

Lemma itineraries_are_journeys_witness :
  exists result r,
    findRoutesRaptor Samples.twin_data "X" "Y" = Some result
    /\ result !! 2%nat = Some r
    /\ journey Samples.twin_data
         (list_to_set (or_empty (locationStops Samples.twin_data !! "X")))
         (list_to_set (or_empty (locationStops Samples.twin_data !! "Y"))) r.
Proof.
  destruct (findRoutesRaptor Samples.twin_data "X" "Y") as [result|] eqn:Hres;
    [|vm_compute in Hres; discriminate].
  destruct (result !! 2%nat) as [r|] eqn:Hr.
  - exists result, r. split; [reflexivity|]. split; [exact Hr|].
    apply (itineraries_are_journeys Samples.twin_data "X" "Y" result r Hres).
    eapply list_elem_of_lookup_2, Hr.
  - exfalso. vm_compute in Hres. injection Hres as <-. discriminate Hr.
Defined.

End RaptorFacts.

(** ** Durations, failure and coverage of the search *)

Module SearchFacts.
Import Prim PrimFacts Feed Loader LoaderFacts TripPlanner Raptor Spec DirectFacts
       RankingFacts RaptorFacts Journey.

(** A leg of [n] hops takes between [n] and [30 * n] minutes. *)
Lemma leg_duration_bounds (travelTimes : list Z) (n a : nat) (acc : Z) :
  Forall (fun v => (1 <= v <= 30)%Z) travelTimes ->
  (acc + Z.of_nat n
   <= foldl (fun duration i => (duration + or_3 (travelTimes !! Z.to_nat i))%Z)
        acc (seqZ (Z.of_nat a) (Z.of_nat n))
   <= acc + 30 * Z.of_nat n)%Z.
Proof.
  intros Hall. revert a acc. induction n as [|n IH]; intros a acc.
  - simpl. lia.
  - rewrite seqZ_cons by lia. simpl foldl.
    replace (Z.succ (Z.of_nat a)) with (Z.of_nat (S a)) by lia.
    replace (Z.pred (Z.of_nat (S n))) with (Z.of_nat n) by lia.
    rewrite Nat2Z.id.
    assert (Hv : (1 <= or_3 (travelTimes !! a) <= 30)%Z).
    { destruct (travelTimes !! a) as [v|] eqn:Hv; simpl; [|lia].
      rewrite Forall_forall in Hall.
      assert (Hrange : (1 <= v <= 30)%Z)
        by (apply Hall; eapply list_elem_of_lookup_2, Hv).
      rewrite (proj2 (Z.eqb_neq v 0)) by lia. exact Hrange. }
    specialize (IH (S a) (acc + or_3 (travelTimes !! a))%Z). lia.
Qed.

Lemma leg_duration_range (times : option (list Z)) (a b : nat) :
  (forall l, times = Some l -> Forall (fun v => (1 <= v <= 30)%Z) l) ->
  (a <= b)%nat ->
  (Z.of_nat b - Z.of_nat a
   <= leg_duration (or_empty times) (Z.of_nat a) (Z.of_nat b)
   <= 30 * (Z.of_nat b - Z.of_nat a))%Z.
Proof.
  intros Hall Hab. unfold leg_duration.
  replace (Z.of_nat b - Z.of_nat a)%Z with (Z.of_nat (b - a)) by lia.
  assert (Hl : Forall (fun v => (1 <= v <= 30)%Z) (or_empty times)).
  { destruct times as [l|]; [apply Hall; reflexivity|constructor]. }
  pose proof (leg_duration_bounds (or_empty times) (b - a) a 0 Hl). lia.
Qed.

(** X15. With travel times between 1 and 30 minutes, as the index
    construction stores them, the duration of every itinerary returned
    lies between one minute and thirty minutes for each stop-to-stop hop
    of its rides, plus five minutes for each transfer; an itinerary has
    at least one hop for each of its rides. *)
Theorem itinerary_duration_bounds (DATA : data) (originLoc destLoc : string)
    (result : list itinerary) (r : itinerary) :
  map_Forall (fun _ times => Forall (fun v => (1 <= v <= 30)%Z) times)
    (routeTravelTimes DATA) ->
  findRoutesRaptor DATA originLoc destLoc = Some result ->
  r ∈ result ->
  (Z.of_nat (length (segments r)) <= hops r)%Z
  /\ (hops r + 5 * transfers r <= duration r <= 30 * hops r + 5 * transfers r)%Z.
Proof.
  intros Hall Hres Hr.
  assert (Htimes : forall route l,
            routeTravelTimes DATA !! route = Some l ->
            Forall (fun v => (1 <= v <= 30)%Z) l).
  { intros route l Hl. exact (Hall route l Hl). }
  destruct (findRoutesRaptor_elem _ _ _ _ _ Hres Hr)
    as [(route & _ & _ & Hit)|(route1 & _ & Hit)].
  - apply direct_itinerary_elem in Hit
      as (stops & o & d & so & sd & _ & Hod & _ & _ & _ & _ & ->).
    unfold hops. simpl.
    pose proof (leg_duration_range (routeTravelTimes DATA !! route) o d
                  (Htimes route) ltac:(lia)).
    lia.
  - apply transfer_itineraries_elem in Hit
      as (stops1 & stops2 & route2 & o & i & t & d & so & change & sd
          & _ & _ & _ & _ & _ & _ & Hi & _ & _ & Htd & _ & _ & ->).
    unfold hops. simpl.
    pose proof (leg_duration_range (routeTravelTimes DATA !! route1) o i
                  (Htimes route1) ltac:(lia)).
    pose proof (leg_duration_range (routeTravelTimes DATA !! route2) t d
                  (Htimes route2) ltac:(lia)).
    lia.
Qed.

Lemma itinerary_duration_bounds_witness :
  exists result r,
    findRoutesRaptor Samples.twin_data "X" "Y" = Some result
    /\ result !! 3%nat = Some r
    /\ (hops r + 5 * transfers r <= duration r <= 30 * hops r + 5 * transfers r)%Z.
Proof.
  destruct (findRoutesRaptor Samples.twin_data "X" "Y") as [result|] eqn:Hres;
    [|vm_compute in Hres; discriminate].
  destruct (result !! 3%nat) as [r|] eqn:Hr.
  - exists result, r. split; [reflexivity|]. split; [exact Hr|].
    apply (itinerary_duration_bounds Samples.twin_data "X" "Y" result r).
    + refine (bool_decide_unpack _ _). vm_compute. exact I.
    + exact Hres.
    + eapply list_elem_of_lookup_2, Hr.
  - exfalso. vm_compute in Hres. injection Hres as <-. discriminate Hr.
Defined.

Lemma filter_sublist_mono {A : Type} (P : A -> Prop) `{!forall x, Decision (P x)}
    (l1 l2 : list A) :
  l1 `sublist_of` l2 -> filter P l1 `sublist_of` filter P l2.
Proof.
  induction 1 as [|x l1 l2 _ IH|x l1 l2 _ IH]; [constructor| |].
  - rewrite !filter_cons. destruct (decide (P x)); [apply sublist_skip|]; exact IH.
  - rewrite filter_cons. destruct (decide (P x)); [apply sublist_cons|]; exact IH.
Qed.

(** X16. Transfers are searched only below three direct itineraries: a
    result that holds an itinerary with a transfer holds at most two
    direct ones. *)
Theorem transfers_only_below_three_direct (DATA : data) (originLoc destLoc : string)
    (result : list itinerary) :
  findRoutesRaptor DATA originLoc destLoc = Some result ->
  (exists r, r ∈ result /\ transfers r = 1%Z) ->
  (length (filter (fun r => transfers r = 0%Z) result) < 3)%nat.
Proof.
  unfold findRoutesRaptor.
  destruct (bool_decide _ || bool_decide _).
  { intros [= <-] (r & Hr & _). apply elem_of_nil in Hr. contradiction. }
  destruct (mapM _ _) as [found|] eqn:Hfound; [|discriminate].
  simpl. intros [= <-] (r & Hr & Hone).
  set (D := omap (fun x => x) found) in *.
  assert (HD : Forall (fun x => transfers x = 0%Z) D).
  { apply Forall_forall. intros x Hx.
    apply list_elem_of_omap in Hx as (y & Hy & ->).
    apply mapM_Some_1 in Hfound.
    apply list_elem_of_lookup_1 in Hy as [i Hi].
    destruct (Forall2_lookup_r _ _ _ _ _ Hfound Hi) as (route & _ & Hit).
    apply direct_itinerary_elem in Hit
      as (? & ? & ? & ? & ? & _ & _ & _ & _ & _ & _ & ->).
    reflexivity. }
  set (T := _ ≫= _) in *.
  assert (HT : Forall (fun x => transfers x = 1%Z) T).
  { apply Forall_forall. intros x Hx. unfold T in Hx.
    apply list_elem_of_bind in Hx as (route1 & Hx & _).
    apply transfer_itineraries_elem in Hx
      as (? & ? & ? & ? & ? & ? & ? & ? & ? & ?
          & _ & _ & _ & _ & _ & _ & _ & _ & _ & _ & _ & _ & ->).
    reflexivity. }
  unfold sort_and_dedupe in *.
  set (results := if (length D <? 3)%nat then D ++ T else D) in *.
  assert (Hle : (length (filter (fun r => transfers r = 0%Z)
                           (dedupe ∅ 0 (stable_sort by_duration results)))
                 <= length (filter (fun r => transfers r = 0%Z) results))%nat).
  { rewrite <- (stable_sort_perm by_duration results) at 2.
    apply sublist_length, filter_sublist_mono, dedupe_sublist. }
  eapply elem_of_sublist in Hr; [|apply dedupe_sublist].
  apply elem_of_stable_sort in Hr.
  unfold results in *.
  destruct (Nat.ltb_spec (length D) 3) as [Hlt|Hge].
  - rewrite filter_app, length_app in Hle.
    assert (HfT : filter (fun r => transfers r = 0%Z) T = []).
    { clear -HT. induction HT as [|x l Hx _ IH]; [reflexivity|].
      rewrite filter_cons_False by lia. exact IH. }
    rewrite HfT in Hle. simpl in Hle.
    pose proof (length_filter (fun r => transfers r = 0%Z) D). lia.
  - rewrite Forall_forall in HD. specialize (HD r Hr). lia.
Qed.

Lemma transfers_only_below_three_direct_witness :
  exists result,
    findRoutesRaptor Samples.twin_data "X" "Y" = Some result
    /\ (length (filter (fun r => transfers r = 0%Z) result) < 3)%nat.
Proof.
  destruct (findRoutesRaptor Samples.twin_data "X" "Y") as [result|] eqn:Hres;
    [|vm_compute in Hres; discriminate].
  exists result. split; [reflexivity|].
  apply (transfers_only_below_three_direct Samples.twin_data "X" "Y" result Hres).
  destruct (result !! 2%nat) as [r|] eqn:Hr.
  - exists r. split; [eapply list_elem_of_lookup_2, Hr|].
    vm_compute in Hres. injection Hres as <-. injection Hr as <-. reflexivity.
  - exfalso. vm_compute in Hres. injection Hres as <-. discriminate Hr.
Defined.

(** X17. On data and place names whose keys are plain, so that every
    lookup is one of own keys, the search ends in a [TypeError] exactly
    when both places have stops and some route listed at both places has
    no stop sequence in the data; in every other case it returns a
    list. *)
Theorem findRoutesRaptor_fails_iff (DATA : data) (originLoc destLoc : string) :
  ObjectKeys.plain_data DATA ->
  ObjectKeys.plain originLoc -> ObjectKeys.plain destLoc ->
  findRoutesRaptor DATA originLoc destLoc = None
  <-> (or_empty (locationStops DATA !! originLoc) <> []
       /\ or_empty (locationStops DATA !! destLoc) <> []
       /\ exists route,
            route ∈ or_empty (locationRoutes DATA !! originLoc)
            /\ route ∈ or_empty (locationRoutes DATA !! destLoc)
            /\ routeStops DATA !! route = None).
Proof.
  intros _ _ _. unfold findRoutesRaptor.
  destruct (decide (or_empty (locationStops DATA !! originLoc) = [])) as [Eo|Eo].
  { rewrite (bool_decide_eq_true_2 _ Eo). simpl. split; [discriminate|tauto]. }
  rewrite (bool_decide_eq_false_2 _ Eo).
  destruct (decide (or_empty (locationStops DATA !! destLoc) = [])) as [Ed|Ed].
  { rewrite (bool_decide_eq_true_2 _ Ed). simpl. split; [discriminate|tauto]. }
  rewrite (bool_decide_eq_false_2 _ Ed). simpl.
  destruct (mapM _ _) as [found|] eqn:Hfound; simpl.
  - split; [discriminate|]. intros (_ & _ & route & Ho & Hd & Hnone). exfalso.
    apply mk_is_Some, mapM_is_Some_1 in Hfound. rewrite Forall_forall in Hfound.
    destruct (Hfound route) as [x Hx].
    + apply list_elem_of_filter. rewrite !elem_of_new_Set. split; assumption.
    + unfold direct_itinerary in Hx. simpl in Hx. rewrite Hnone in Hx. discriminate.
  - split; [|reflexivity]. intros _. split; [exact Eo|]. split; [exact Ed|].
    apply mapM_None_1, Exists_exists in Hfound as (route & Hroute & Hnone).
    apply list_elem_of_filter in Hroute as [Hd Ho].
    rewrite elem_of_new_Set in Hd. rewrite elem_of_new_Set in Ho.
    exists route. split; [exact Ho|]. split; [exact Hd|].
    unfold direct_itinerary in Hnone.
    destruct (routeStops DATA !! route); [discriminate|reflexivity].
Qed.

Lemma findRoutesRaptor_fails_iff_witness :
  findRoutesRaptor Samples.gap_data "X" "Y" = None.
Proof.
  apply (proj2 (findRoutesRaptor_fails_iff Samples.gap_data "X" "Y"
                  ltac:(unfold ObjectKeys.plain_data, ObjectKeys.plain;
                        refine (bool_decide_unpack _ _); vm_compute; exact I)
                  ltac:(unfold ObjectKeys.plain;
                        refine (bool_decide_unpack _ _); vm_compute; exact I)
                  ltac:(unfold ObjectKeys.plain;
                        refine (bool_decide_unpack _ _); vm_compute; exact I))).
  split; [vm_compute; discriminate|]. split; [vm_compute; discriminate|].
  exists "9". split; [vm_compute; apply elem_of_cons; left; reflexivity|].
  split; [vm_compute; apply elem_of_cons; left; reflexivity|reflexivity].
Defined.

Lemma dedupe_head (x : itinerary) (l : list itinerary) :
  exists rest, dedupe ∅ 0 (x :: l) = x :: rest.
Proof.
  cbn [dedupe]. rewrite bool_decide_eq_false_2 by apply not_elem_of_empty.
  simpl. eexists. reflexivity.
Qed.

(** X18. A direct ride is never missed: when a route listed at both
    places has a stop of the origin followed by a stop of the
    destination, the search, if it returns, returns at least one
    itinerary, and its first itinerary is no longer than the direct
    itinerary of that route. *)
Theorem direct_ride_is_offered (DATA : data) (originLoc destLoc route : string)
    (stops : list string) (o d : nat) (so sd : string)
    (result : list itinerary) :
  route ∈ or_empty (locationRoutes DATA !! originLoc) ->
  route ∈ or_empty (locationRoutes DATA !! destLoc) ->
  routeStops DATA !! route = Some stops ->
  stops !! o = Some so -> so ∈ or_empty (locationStops DATA !! originLoc) ->
  stops !! d = Some sd -> sd ∈ or_empty (locationStops DATA !! destLoc) ->
  (o < d)%nat ->
  findRoutesRaptor DATA originLoc destLoc = Some result ->
  exists best rest it,
    result = best :: rest
    /\ direct_itinerary DATA
         (list_to_set (or_empty (locationStops DATA !! originLoc)))
         (list_to_set (or_empty (locationStops DATA !! destLoc)))
         route = Some (Some it)
    /\ (duration best <= duration it)%Z.
Proof.
  intros Hro Hrd Hstops Hlo Hino Hld Hind Hod. unfold findRoutesRaptor.
  destruct (decide (or_empty (locationStops DATA !! originLoc) = [])) as [Eo|Eo].
  { rewrite Eo in Hino. apply elem_of_nil in Hino. contradiction. }
  rewrite (bool_decide_eq_false_2 _ Eo).
  destruct (decide (or_empty (locationStops DATA !! destLoc) = [])) as [Ed|Ed].
  { rewrite Ed in Hind. apply elem_of_nil in Hind. contradiction. }
  rewrite (bool_decide_eq_false_2 _ Ed). simpl.
  destruct (mapM _ _) as [found|] eqn:Hfound; [|discriminate].
  simpl. intros [= <-].
  destruct (direct_itinerary_found DATA
              (list_to_set (or_empty (locationStops DATA !! originLoc)))
              (list_to_set (or_empty (locationStops DATA !! destLoc)))
              route stops o d so sd Hstops Hlo
              ltac:(apply elem_of_list_to_set; exact Hino) Hld
              ltac:(apply elem_of_list_to_set; exact Hind) Hod) as [it Hit].
  assert (Hin : it ∈ omap (fun x => x) found).
  { apply list_elem_of_omap. exists (Some it). split; [|reflexivity].
    apply mapM_Some_1 in Hfound.
    assert (Hroute : route ∈ filter
              (fun r => r ∈ new_Set (or_empty (locationRoutes DATA !! destLoc)))
              (new_Set (or_empty (locationRoutes DATA !! originLoc)))).
    { apply list_elem_of_filter. rewrite !elem_of_new_Set. split; assumption. }
    apply list_elem_of_lookup_1 in Hroute as [i Hi].
    destruct (Forall2_lookup_l _ _ _ _ _ Hfound Hi) as (y & Hy & Hity).
    rewrite Hit in Hity. injection Hity as <-.
    eapply list_elem_of_lookup_2, Hy. }
  set (results := if (length (omap (fun x => x) found) <? 3)%nat then _ else _).
  assert (Hres : it ∈ results).
  { unfold results. destruct (_ <? _)%nat; [apply elem_of_app; left|]; exact Hin. }
  clearbody results. unfold sort_and_dedupe.
  apply (elem_of_stable_sort by_duration) in Hres.
  pose proof (stable_sort_sorted by_duration by_duration_total by_duration_trans
                results) as Hsorted.
  destruct (stable_sort by_duration results) as [|best ranked].
  { apply elem_of_nil in Hres. contradiction. }
  destruct (dedupe_head best ranked) as [rest ->].
  exists best, rest, it. split; [reflexivity|]. split; [exact Hit|].
  apply elem_of_cons in Hres as [->|Hres]; [lia|].
  apply StronglySorted_inv in Hsorted as [_ Hall].
  rewrite Forall_forall in Hall. specialize (Hall it Hres).
  apply by_duration_spec in Hall. lia.
Qed.

Lemma direct_ride_is_offered_witness :
  exists best rest,
    findRoutesRaptor Samples.loop_data "X" "Y" = Some (best :: rest)
    /\ (duration best <= 11)%Z.
Proof.
  destruct (findRoutesRaptor Samples.loop_data "X" "Y") as [result|] eqn:Hres;
    [|vm_compute in Hres; discriminate].
  destruct (direct_ride_is_offered Samples.loop_data "X" "Y" "12"
              ["o"; "d1"; "d2"] 0 1 "o" "d1" result)
    as (best & rest & it & -> & Hit & Hle);
    try reflexivity; try (vm_compute; apply elem_of_cons; left; reflexivity);
    try lia; try exact Hres.
  exists best, rest. split; [reflexivity|].
  vm_compute in Hit. injection Hit as <-. exact Hle.
Defined.

Lemma length_durations_of (times : list stop_time_entry) :
  length (durations_of times) = (length times - 1)%nat.
Proof.
  induction times as [|here [|next rest] IH]; [reflexivity|reflexivity|].
  cbn [durations_of length] in *. rewrite IH. lia.
Qed.

(** X19. The index construction stores the travel times of exactly the
    routes that have a stop sequence, in the same order, with one travel
    time for each pair of consecutive stops of the sequence: one fewer
    than its stops. *)
Theorem route_travel_times_lengths (trips : list trip_row)
    (stop_times : list stop_time_row)
    (route_stops : list (string * list (option string))) :
  route_stops_of trips stop_times = Some route_stops ->
  exists route_travel_times,
    route_travel_times_of trips stop_times = Some route_travel_times
    /\ Forall2 (fun (s : string * list (option string)) (t : string * list Z) =>
                  s.1 = t.1 /\ length t.2 = (length s.2 - 1)%nat)
         route_stops route_travel_times.
Proof.
  unfold route_travel_times_of, route_stop_times_of, route_stops_of.
  destruct (route_sequences_of trips stop_times) as [sequences|]; [|discriminate].
  intros [= <-]. eexists. split; [reflexivity|].
  induction sequences as [|[rid trip_st] sequences IH]; [constructor|].
  rewrite !fmap_cons. constructor; [|exact IH].
  simpl. split; [reflexivity|].
  rewrite length_durations_of. unfold stop_id_list. rewrite !length_fmap.
  reflexivity.
Qed.

Lemma route_travel_times_lengths_witness :
  exists route_travel_times,
    route_travel_times_of Samples.tie_trips Samples.tie_stop_times
    = Some route_travel_times
    /\ (length <$> (snd <$> route_travel_times)) = [1%nat].
Proof.
  destruct (route_stops_of Samples.tie_trips Samples.tie_stop_times)
    as [route_stops|] eqn:Hrs; [|vm_compute in Hrs; discriminate].
  destruct (route_travel_times_lengths Samples.tie_trips Samples.tie_stop_times
              route_stops Hrs) as (tt & Htt & _).
  exists tt. split; [exact Htt|].
  vm_compute in Htt. injection Htt as <-. reflexivity.
Defined.

End SearchFacts.

(** ** The stops drawn for an itinerary *)

Module PageFacts.
Import Prim PrimFacts Raptor RaptorFacts Page.

(** The slice of a ride from index [a] to index [b]. *)
Lemma slice_ride {A : Type} (l : list A) (a b : nat) (x y : A) :
  (a < b)%nat -> l !! a = Some x -> l !! b = Some y ->
  exists middle,
    slice l (Z.of_nat a) (Z.of_nat b + 1) = x :: middle ++ [y]
    /\ length middle = (b - a - 1)%nat.
Proof.
  intros Hab Ha Hb.
  pose proof (lookup_lt_Some _ _ _ Hb) as Hlen.
  unfold slice.
  rewrite (proj2 (Z.ltb_ge (Z.of_nat a) 0)) by lia.
  rewrite (proj2 (Z.ltb_ge (Z.of_nat b + 1) 0)) by lia.
  rewrite Z.min_l by lia. rewrite Z.min_l by lia.
  replace (Z.to_nat (Z.of_nat b + 1 - Z.of_nat a)) with (S (S (b - a - 1)))
    by lia.
  rewrite Nat2Z.id.
  rewrite (drop_S _ _ _ Ha). cbn [take].
  exists (take (b - a - 1) (drop (S a) l)). split.
  - f_equal. apply take_S_r. rewrite lookup_drop.
    replace (S a + (b - a - 1))%nat with b by lia. exact Hb.
  - rewrite length_take, length_drop. lia.
Qed.

(** X20. The slicing of [showRoute] never fails on an itinerary returned
    by the search: every segment has its [segmentStops], as many as its
    two indices span; put end to end they start at the origin stop of the
    itinerary and end at its destination stop; the stop count of a direct
    itinerary is their number; and at a transfer the first slice ends at
    the transfer stop, where the second one starts. *)
Theorem shown_segments (DATA : data) (originLoc destLoc : string)
    (result : list itinerary) (r : itinerary) :
  findRoutesRaptor DATA originLoc destLoc = Some result ->
  r ∈ result ->
  exists drawn,
    mapM (segment_stops DATA) (segments r) = Some drawn
    /\ Forall2 (fun seg stops =>
                  Z.of_nat (length stops) = (endIdx seg - startIdx seg + 1)%Z)
         (segments r) drawn
    /\ head (mjoin drawn) = originStopId r
    /\ last (mjoin drawn) = destStopId r
    /\ (forall n, stopCount r = Some n -> n = Z.of_nat (length (mjoin drawn)))
    /\ (forall first second, drawn = [first; second] ->
          last first = transferStopId r /\ head second = transferStopId r).
Proof.
  intros Hres Hr.
  destruct (findRoutesRaptor_elem _ _ _ _ _ Hres Hr)
    as [(route & _ & _ & Hit)|(route1 & _ & Hit)].
  - apply direct_itinerary_elem in Hit
      as (stops & o & d & so & sd & Hstops & Hod & Hlo & _ & Hld & _ & ->).
    destruct (slice_ride stops o d so sd Hod Hlo Hld) as (middle & Hslice & Hlen).
    exists [so :: middle ++ [sd]]. cbn [segments].
    split; [|split; [|split; [|split; [|split]]]].
    + cbn. unfold segment_stops. cbn. rewrite Hstops. cbn. rewrite Hslice.
      reflexivity.
    + repeat constructor. cbn. rewrite length_app. cbn. lia.
    + reflexivity.
    + cbn. rewrite app_nil_r. apply (last_snoc sd (so :: middle)).
    + cbn. intros n [= <-]. rewrite app_nil_r, length_app. cbn. lia.
    + intros first second [=].
  - apply transfer_itineraries_elem in Hit
      as (stops1 & stops2 & route2 & o & i & t & d & so & change & sd
          & Hs1 & Hs2 & _ & _ & Hlo & _ & Hi & Hli & Hlt & Htd & Hld & _ & ->).
    destruct (slice_ride stops1 o i so change ltac:(lia) Hlo Hli)
      as (middle1 & Hslice1 & Hlen1).
    destruct (slice_ride stops2 t d change sd Htd Hlt Hld)
      as (middle2 & Hslice2 & Hlen2).
    exists [so :: middle1 ++ [change]; change :: middle2 ++ [sd]]. cbn [segments].
    split; [|split; [|split; [|split; [|split]]]].
    + cbn. unfold segment_stops. cbn. rewrite Hs1, Hs2. cbn.
      rewrite Hslice1, Hslice2. reflexivity.
    + repeat constructor; cbn; rewrite length_app; cbn; lia.
    + reflexivity.
    + cbn. rewrite app_nil_r.
      change (last ((so :: middle1 ++ [change]) ++ (change :: middle2) ++ [sd])
              = Some sd).
      rewrite app_assoc. apply last_snoc.
    + cbn. intros n [=].
    + intros first second [= <- <-]. cbn [transferStopId].
      split; [apply (last_snoc change (so :: middle1))|reflexivity].
Qed.

Lemma shown_segments_witness :
  exists result r drawn,
    findRoutesRaptor Samples.twin_data "X" "Y" = Some result
    /\ result !! 2%nat = Some r
    /\ mapM (segment_stops Samples.twin_data) (segments r) = Some drawn
    /\ head (mjoin drawn) = originStopId r.
Proof.
  destruct (findRoutesRaptor Samples.twin_data "X" "Y") as [result|] eqn:Hres;
    [|vm_compute in Hres; discriminate].
  destruct (result !! 2%nat) as [r|] eqn:Hr.
  - destruct (shown_segments Samples.twin_data "X" "Y" result r Hres
                ltac:(eapply list_elem_of_lookup_2, Hr))
      as (drawn & Hdrawn & _ & Hhead & _).
    exists result, r, drawn. split; [reflexivity|]. split; [exact Hr|].
    split; [exact Hdrawn|exact Hhead].
  - exfalso. vm_compute in Hres. injection Hres as <-. discriminate Hr.
Defined.

End PageFacts.

(** ** The colour of a route *)

Module GeoColorFacts.
Import GeoColor.

Lemma hash_val_permutation (a b : list N) (acc : N) :
  a ≡ₚ b -> foldl N.add acc a = foldl N.add acc b.
Proof.
  intros Hp. revert acc.
  induction Hp as [|x a b _ IH|x y a|a b c _ IH1 _ IH2]; intros acc; simpl.
  - reflexivity.
  - apply IH.
  - f_equal. lia.
  - rewrite IH1. apply IH2.
Qed.

(** X21. The colour of a route is always one of the fifteen colours of
    the palette, never an [IndexError]; and it depends on the characters
    of the name only, not on their order. *)
Theorem generate_color_for_route_palette (route_name : list N) :
  (exists color, generate_color_for_route route_name = Some color
                 /\ color ∈ colors)
  /\ (forall other, other ≡ₚ route_name ->
        generate_color_for_route other = generate_color_for_route route_name).
Proof.
  split.
  - unfold generate_color_for_route.
    destruct (lookup_lt_is_Some_2 colors
                (N.to_nat (foldl N.add 0%N route_name mod N.of_nat (length colors))))
      as [color Hc].
    + pose proof (N.mod_upper_bound (foldl N.add 0%N route_name)
                    (N.of_nat (length colors)) ltac:(discriminate)).
      lia.
    + exists color. split; [exact Hc|]. eapply list_elem_of_lookup_2, Hc.
  - intros other Hp. unfold generate_color_for_route.
    rewrite (hash_val_permutation other route_name 0%N Hp). reflexivity.
Qed.

Lemma generate_color_for_route_palette_witness :
  generate_color_for_route [49; 50; 65]%N = generate_color_for_route [65; 50; 49]%N.
Proof.
  apply (proj2 (generate_color_for_route_palette [65; 50; 49]%N)).
  apply (reverse_Permutation [65; 50; 49]%N).
Defined.

End GeoColorFacts.
